(** * ArrayList.hpp: a shallow embedding of [AL::ArrayList<T>]

    The container of [src/ArrayList.hpp] owns a heap array and hands out raw
    positions into it, so the embedding keeps the three things the source
    keeps apart:

    - the container objects, addressed by where they live, each holding
      [m_capacity], [m_size] and the pointer [m_data];
    - the arrays made by [new value_type[n]], addressed by allocation, each
      a list of cells; a cell of [new value_type[n]] without braces holds
      no value until it is written, and an allocation is never handed out
      twice, so a pointer into a deleted array stays dangling;
    - pointers (the [Iterator] of the source wraps one), an allocation
      together with an offset.

    A member function is a function from the state to an outcome: a normal
    return, a thrown exception (with the state at the throw), or no outcome
    the language defines: a read or write outside a live array, a range
    whose end cannot be reached from its start, and also an order
    comparison of pointers into different arrays, whose result is
    unspecified.

    [size_type] is modelled by [nat].  An array of [c] slots lives in a
    64-bit address space, so [c < 2^63], and [c * 2], [m_size + 1] and
    [size + other.size] stay below [2^64] on every state whose arrays
    exist; [--m_size] is only reached with [m_size > 0] (lemma
    [erase_returns_positive_size]).

    [new value_type[count]] can fail.  In [ArrayList(count)] and
    [resize(count)] the count is the caller's and can be any value of
    [std::size_t]: there the model has both answers of [new], the array and
    the exception ([count_arg], [new_array_of]), and a call is followed
    under each.  In [push_back], [insert], the copy assignment and [+=],
    and where the copy and the initializer-list constructor delegate to
    [ArrayList(count)], the count is the size or capacity of containers (or
    of a list) that exist, or at most twice that: only a machine out of
    memory refuses it, and the model puts no bound on memory, so there
    [new] is served.

    Three places of the source are read by what they are meant to say:
    line 430 names no algorithm ([std::(source.begin(), source.end(),
    begin())], read as the [std::copy] of the copy constructor above it),
    and lines 589 and 721 add an integer to an [Iterator], which declares
    no [operator+] (read as the pointer arithmetic done on [m_data]
    everywhere else). *)

From Stdlib Require Import ZArith Lia.
From stdpp Require Import base decidable option list gmap strings pretty.

Module AL.

(** ** Pointers and container objects *)

(** [p_block = None] is a pointer derived from [nullptr]. *)
Record pointer := Ptr { p_block : option nat; p_off : Z }.

#[global] Instance pointer_eq_dec : EqDecision pointer.
Proof. solve_decision. Defined.

Definition nullptr : pointer := Ptr None 0.

Definition ptr_add (p : pointer) (k : Z) : pointer :=
  Ptr (p_block p) (p_off p + k).

(** The data members of [ArrayList], in declaration order. *)
Record ArrayList := MkArrayList {
  m_capacity : nat;
  m_size : nat;
  m_data : pointer
}.

(** What the container lets escape: [std::out_of_range] from its own
    checks, and the exception of an allocation that [new] refuses,
    [std::bad_alloc] or the [std::bad_array_new_length] derived from it. *)
Inductive exception := out_of_range | bad_alloc.

(** The [size_type count] a caller passes to [ArrayList(count)] and to
    [resize(count)], with the answer of [new value_type[count]] to it.  The
    caller may pass any value of [std::size_t]: [new] refuses a count above
    the implementation's limit on array lengths
    ([ArrayList<int>(size_t(-1))] throws [std::bad_array_new_length]) and a
    count larger than the memory that is left ([std::bad_alloc]). *)
Inductive count_arg :=
| served (count : nat)
| refused (count : nat).

Definition count_of (c : count_arg) : nat :=
  match c with served count | refused count => count end.

(** [std::copy_backward(pos, z, ++z)] in [insert] reads and increments [z]
    in two arguments of one call; the language leaves the order open. *)
Inductive eval_order := left_to_right | right_to_left.

Section ArrayList.

Context {T : Type} `{EqDecision T}.
(** [value_type{}] *)
Variable T_default : T.
Variable arg_order : eval_order.

(** ** State and outcomes *)

Record state := State {
  objects : gmap nat ArrayList;
  arrays : gmap nat (list (option T));
  next_block : nat
}.

Definition initial_state : state := State ∅ ∅ 0.

Inductive outcome (A : Type) : Type :=
| Ok (a : A) (s : state)
| Throw (e : exception) (s : state)
| Undefined.
Arguments Ok {A} a s.
Arguments Throw {A} e s.
Arguments Undefined {A}.

Definition M (A : Type) : Type := state → outcome A.

Definition ret {A} (a : A) : M A := λ s, Ok a s.

Definition bind {A B} (m : M A) (f : A → M B) : M B := λ s,
  match m s with
  | Ok a s' => f a s'
  | Throw e s' => Throw e s'
  | Undefined => Undefined
  end.

Definition throw {A} (e : exception) : M A := λ s, Throw e s.
Definition undefined {A} : M A := λ _, Undefined.

Notation "x <~ m ; k" := (bind m (λ x, k))
  (at level 20, m at level 100, k at level 200, right associativity,
   format "'[v' x  <~  m ; '/' k ']'").
Notation "m ;;; k" := (bind m (λ _, k))
  (at level 100, k at level 200, right associativity,
   format "'[v' m ;;; '/' k ']'").

(** ** Objects *)

Definition get_object (x : nat) : M ArrayList := λ s,
  match objects s !! x with
  | Some a => Ok a s
  | None => Undefined
  end.

Definition set_object (x : nat) (a : ArrayList) : M unit := λ s,
  Ok () (State (<[x := a]> (objects s)) (arrays s) (next_block s)).

Definition remove_object (x : nat) : M unit := λ s,
  Ok () (State (delete x (objects s)) (arrays s) (next_block s)).

Definition set_m_capacity (x : nat) (n : nat) : M unit :=
  a <~ get_object x; set_object x (MkArrayList n (m_size a) (m_data a)).

Definition set_m_size (x : nat) (n : nat) : M unit :=
  a <~ get_object x; set_object x (MkArrayList (m_capacity a) n (m_data a)).

Definition set_m_data (x : nat) (p : pointer) : M unit :=
  a <~ get_object x; set_object x (MkArrayList (m_capacity a) (m_size a) p).

(** ** Arrays *)

(** The cells a pointer's allocation holds; [nullptr] has none. *)
Definition cells_of (s : state) (b : option nat) : option (list (option T)) :=
  match b with
  | None => Some []
  | Some b => arrays s !! b
  end.

Definition load (p : pointer) : M T := λ s,
  match cells_of s (p_block p) with
  | Some cells =>
      if decide (0 ≤ p_off p)%Z then
        match cells !! Z.to_nat (p_off p) with
        | Some (Some v) => Ok v s
        | _ => Undefined
        end
      else Undefined
  | None => Undefined
  end.

Definition store (p : pointer) (v : T) : M unit := λ s,
  match p_block p with
  | Some b =>
      match arrays s !! b with
      | Some cells =>
          if decide (0 ≤ p_off p < Z.of_nat (length cells))%Z then
            Ok () (State (objects s)
                         (<[b := <[Z.to_nat (p_off p) := Some v]> cells]> (arrays s))
                         (next_block s))
          else Undefined
      | None => Undefined
      end
  | None => Undefined
  end.

(** [new value_type[n]{}] is [new_array n (Some T_default)];
    [new value_type[n]] is [new_array n None].  This is the allocation that
    is served: in [push_back], [insert], the copy assignment and [+=] the
    count is the size or capacity of containers that exist, or at most twice
    that, and only a machine out of memory refuses it; the model puts no
    bound on memory.  Where the count is the caller's, [new_array_of] below
    has both answers. *)
Definition new_array (n : nat) (init : option T) : M pointer := λ s,
  Ok (Ptr (Some (next_block s)) 0)
     (State (objects s)
            (<[next_block s := replicate n init]> (arrays s))
            (S (next_block s))).

(** [new value_type[count]] for a [count] of the caller's. *)
Definition new_array_of (count : count_arg) (init : option T) : M pointer :=
  match count with
  | served n => new_array n init
  | refused _ => throw bad_alloc
  end.

(** [delete [] p] *)
Definition delete_array (p : pointer) : M unit := λ s,
  match p_block p with
  | None => Ok () s
  | Some b =>
      match arrays s !! b with
      | Some _ =>
          if decide (p_off p = 0%Z) then
            Ok () (State (objects s) (delete b (arrays s)) (next_block s))
          else Undefined
      | None => Undefined
      end
  end.

(** ** Iterator comparison *)

Definition ptr_lt (p q : pointer) : M bool :=
  if decide (p_block p = p_block q) then ret (bool_decide (p_off p < p_off q)%Z)
  else undefined.

Definition ptr_gt (p q : pointer) : M bool := ptr_lt q p.

Definition ptr_eqb (p q : pointer) : bool := bool_decide (p = q).

(** ** The algorithms of the standard library the source calls *)

(** The number of increments that take [first] to [last]. *)
Definition distance (first last : pointer) : M nat :=
  if decide (p_block first = p_block last ∧ (p_off first ≤ p_off last)%Z)
  then ret (Z.to_nat (p_off last - p_off first))
  else undefined.

Fixpoint copy_loop (n : nat) (first d_first : pointer) : M unit :=
  match n with
  | 0 => ret ()
  | S n' =>
      v <~ load first;
      store d_first v;;;
      copy_loop n' (ptr_add first 1) (ptr_add d_first 1)
  end.

(** [std::copy(first, last, d_first)]; the returned iterator is not used by
    the source and is left out. *)
Definition std_copy (first last d_first : pointer) : M unit :=
  n <~ distance first last;
  copy_loop n first d_first.

Fixpoint copy_backward_loop (n : nat) (last d_last : pointer) : M unit :=
  match n with
  | 0 => ret ()
  | S n' =>
      v <~ load (ptr_add last (-1));
      store (ptr_add d_last (-1)) v;;;
      copy_backward_loop n' (ptr_add last (-1)) (ptr_add d_last (-1))
  end.

(** [std::copy_backward(first, last, d_last)] *)
Definition std_copy_backward (first last d_last : pointer) : M unit :=
  n <~ distance first last;
  copy_backward_loop n last d_last.

Fixpoint equal_loop (n1 n2 : nat) (first1 first2 : pointer) : M bool :=
  match n1, n2 with
  | 0, 0 => ret true
  | S n1', S n2' =>
      v1 <~ load first1;
      v2 <~ load first2;
      if decide (v1 = v2)
      then equal_loop n1' n2' (ptr_add first1 1) (ptr_add first2 1)
      else ret false
  | _, _ => ret false
  end.

(** [std::equal(first1, last1, first2, last2)] *)
Definition std_equal (first1 last1 first2 last2 : pointer) : M bool :=
  n1 <~ distance first1 last1;
  n2 <~ distance first2 last2;
  equal_loop n1 n2 first1 first2.

(** Copying out of a [std::initializer_list], which is not an [ArrayList]
    array. *)
Fixpoint copy_from_list (source : list T) (d_first : pointer) : M unit :=
  match source with
  | [] => ret ()
  | v :: source' => store d_first v;;; copy_from_list source' (ptr_add d_first 1)
  end.

(** ** Member functions *)

Definition size (this : nat) : M nat :=
  a <~ get_object this; ret (m_size a).

Definition capacity (this : nat) : M nat :=
  a <~ get_object this; ret (m_capacity a).

Definition begin (this : nat) : M pointer :=
  a <~ get_object this; ret (m_data a).

Definition end_ (this : nat) : M pointer :=
  a <~ get_object this; ret (ptr_add (m_data a) (Z.of_nat (m_size a))).

Definition empty (this : nat) : M bool :=
  n <~ size this; ret (bool_decide (n = 0)).

(** [ArrayList(size_type count = 0)] *)
Definition ctor_count (this : nat) (count : count_arg) : M unit :=
  p <~ new_array_of count (Some T_default);
  set_object this (MkArrayList (count_of count) (count_of count) p).

(** [ArrayList(const ArrayList& other)] *)
Definition ctor_copy (this other : nat) : M unit :=
  n <~ size other;
  ctor_count this (served n);;;
  ob <~ begin other;
  oe <~ end_ other;
  b <~ begin this;
  std_copy ob oe b.

(** [ArrayList(const std::initializer_list<value_type>& source)] *)
Definition ctor_init (this : nat) (source : list T) : M unit :=
  ctor_count this (served (length source));;;
  b <~ begin this;
  copy_from_list source b.

(** [ArrayList(ArrayList&& other)] *)
Definition ctor_move (this other : nat) : M unit :=
  o <~ get_object other;
  set_m_capacity other 0;;;
  o1 <~ get_object other;
  set_m_size other 0;;;
  o2 <~ get_object other;
  set_m_data other nullptr;;;
  set_object this (MkArrayList (m_capacity o) (m_size o1) (m_data o2)).

(** [~ArrayList()] *)
Definition dtor (this : nat) : M unit :=
  a <~ get_object this;
  delete_array (m_data a);;;
  remove_object this.

(** [operator[]] *)
Definition index (this : nat) (i : nat) : M T :=
  a <~ get_object this;
  load (ptr_add (m_data a) (Z.of_nat i)).

Definition at_ (this : nat) (pos : nat) : M T :=
  n <~ size this;
  if decide (n < pos ∨ pos = n) then throw out_of_range
  else
    a <~ get_object this;
    load (ptr_add (m_data a) (Z.of_nat pos)).

Definition front (this : nat) : M T :=
  n <~ size this;
  if decide (n = 0) then throw out_of_range
  else b <~ begin this; load b.

Definition clear (this : nat) : M unit := set_m_size this 0.

Definition push_back (this : nat) (value : T) : M unit :=
  n <~ size this;
  c <~ capacity this;
  (if decide (n = c) then
     c <~ capacity this;
     set_m_capacity this (if decide (c = 0) then 1 else c * 2);;;
     c' <~ capacity this;
     temp <~ new_array c' (Some T_default);
     b <~ begin this;
     e <~ end_ this;
     std_copy b e temp;;;
     a <~ get_object this;
     delete_array (m_data a);;;
     set_m_data this temp
   else ret ());;;
  a <~ get_object this;
  set_m_size this (m_size a + 1);;;
  store (ptr_add (m_data a) (Z.of_nat (m_size a))) value.

Definition insert (this : nat) (pos : pointer) (value : T) : M pointer :=
  z <~ end_ this;
  a <~ get_object this;
  below <~ ptr_lt pos (m_data a);
  if below then throw out_of_range
  else
    above <~ ptr_gt pos (ptr_add (m_data a) (Z.of_nat (m_size a)));
    if above then throw out_of_range
    else
      n <~ size this;
      c <~ capacity this;
      pos <~ (if decide (n = c) then
                b <~ begin this;
                offset <~ distance b pos;
                let new_capacity := if decide (c = 0) then 1 else c * 2 in
                temp <~ new_array new_capacity (Some T_default);
                b <~ begin this;
                e <~ end_ this;
                std_copy b e temp;;;
                a <~ get_object this;
                delete_array (m_data a);;;
                set_m_data this temp;;;
                set_m_capacity this new_capacity;;;
                a <~ get_object this;
                ret (ptr_add (m_data a) (Z.of_nat offset))
              else ret pos);
      match arg_order with
      | left_to_right => std_copy_backward pos z (ptr_add z 1)
      | right_to_left => std_copy_backward pos (ptr_add z 1) (ptr_add z 1)
      end;;;
      store pos value;;;
      n <~ size this;
      set_m_size this (n + 1);;;
      ret pos.

Definition erase (this : nat) (pos : pointer) : M pointer :=
  a <~ get_object this;
  below <~ ptr_lt pos (m_data a);
  if below || ptr_eqb pos (m_data a) then throw out_of_range
  else
    above <~ ptr_gt pos (ptr_add (m_data a) (Z.of_nat (m_size a)));
    if above then throw out_of_range
    else
      e <~ end_ this;
      std_copy (ptr_add pos 1) e pos;;;
      n <~ size this;
      set_m_size this (n - 1);;;
      ret pos.

Definition resize (this : nat) (count : count_arg) : M unit :=
  n <~ size this;
  if decide (n ≠ count_of count) then
    temp <~ new_array_of count (Some T_default);
    a <~ get_object this;
    let limit := if decide (count_of count < m_size a)
                 then ptr_add (m_data a) (Z.of_nat (count_of count))
                 else ptr_add (m_data a) (Z.of_nat (m_size a)) in
    std_copy (m_data a) limit temp;;;
    delete_array (m_data a);;;
    set_m_data this temp;;;
    set_m_size this (count_of count);;;
    set_m_capacity this (count_of count)
  else ret ().

Definition swap (this other : nat) : M unit :=
  a <~ get_object this;
  b <~ get_object other;
  set_m_capacity this (m_capacity b);;;
  set_m_capacity other (m_capacity a);;;
  set_m_size this (m_size b);;;
  set_m_size other (m_size a);;;
  set_m_data this (m_data b);;;
  set_m_data other (m_data a).

(** [operator=(const ArrayList& rhs)] *)
Definition copy_assign (this rhs : nat) : M unit :=
  if decide (this ≠ rhs) then
    c <~ capacity this;
    rc <~ capacity rhs;
    (if decide (c ≠ rc) then
       a <~ get_object this;
       delete_array (m_data a);;;
       set_m_data this nullptr;;;
       set_m_size this 0;;;
       set_m_capacity this 0;;;
       rc <~ capacity rhs;
       p <~ new_array rc (Some T_default);
       set_m_data this p;;;
       rc <~ capacity rhs;
       set_m_capacity this rc
     else ret ());;;
    rb <~ begin rhs;
    re <~ end_ rhs;
    b <~ begin this;
    std_copy rb re b;;;
    rn <~ size rhs;
    set_m_size this rn
  else ret ().

(** [operator=(ArrayList&& other)] *)
Definition move_assign (this other : nat) : M unit :=
  if decide (this ≠ other) then
    o <~ get_object other;
    set_m_capacity other 0;;;
    set_m_capacity this (m_capacity o);;;
    o <~ get_object other;
    set_m_size other 0;;;
    set_m_size this (m_size o);;;
    o <~ get_object other;
    set_m_data other nullptr;;;
    set_m_data this (m_data o)
  else ret ().

(** [operator+=(const ArrayList& other)] *)
Definition append (this other : nat) : M unit :=
  n <~ size this;
  on <~ size other;
  let reqd_size := n + on in
  c <~ capacity this;
  (if decide (c < reqd_size) then
     temp <~ new_array reqd_size None;
     b <~ begin this;
     e <~ end_ this;
     std_copy b e temp;;;
     a <~ get_object this;
     delete_array (m_data a);;;
     set_m_data this temp;;;
     set_m_capacity this reqd_size
   else ret ());;;
  ob <~ begin other;
  oe <~ end_ other;
  b <~ begin this;
  n <~ size this;
  std_copy ob oe (ptr_add b (Z.of_nat n));;;
  a <~ get_object this;
  o <~ get_object other;
  set_m_size this (m_size a + m_size o).

(** [operator==(lhs, rhs)] *)
Definition equal (lhs rhs : nat) : M bool :=
  lb <~ begin lhs;
  le <~ end_ lhs;
  rb <~ begin rhs;
  re <~ end_ rhs;
  std_equal lb le rb re.

(** [operator!=(lhs, rhs)] *)
Definition not_equal (lhs rhs : nat) : M bool :=
  b <~ equal lhs rhs; ret (negb b).

(** [operator+(lhs, rhs)]: [return ArrayList<T>(lhs) += rhs;].  The
    temporary lives at [tmp]; [+=] returns a reference to it, so the result
    at [result] is copy-constructed from it before it is destroyed. *)
Definition plus (result tmp lhs rhs : nat) : M unit :=
  ctor_copy tmp lhs;;;
  append tmp rhs;;;
  ctor_copy result tmp;;;
  dtor tmp.

(** [back()]: [*(begin() + size() - 1)], no check. *)
Definition back (this : nat) : M T :=
  b <~ begin this;
  n <~ size this;
  load (ptr_add (ptr_add b (Z.of_nat n)) (-1)).

(** [output << item] for an element: the text an element is written as. *)
Variable show : T → string.

(** The range-based [for] of [operator<<]: [separator] is the content of
    the two-character array, [output] the text written so far. *)
Fixpoint print_loop (n : nat) (it : pointer) (separator output : string) : M string :=
  match n with
  | 0 => ret output
  | S n' =>
      item <~ load it;
      print_loop n' (ptr_add it 1) "," ((output +:+ separator) +:+ show item)
  end.

(** [operator<<(std::ostream& output, const ArrayList<T>& list)]; the
    stream is the text written to it. *)
Definition print (output : string) (list : nat) : M string :=
  let separator := "" in
  let output := output +:+ "{" in
  b <~ begin list;
  e <~ end_ list;
  n <~ distance b e;
  output <~ print_loop n b separator output;
  ret (output +:+ "}").

(** A caller that appends the values one [push_back] at a time. *)
Fixpoint push_back_all (this : nat) (values : list T) : M unit :=
  match values with
  | [] => ret ()
  | value :: values' => push_back this value;;; push_back_all this values'
  end.

(** ** Programs over the public interface *)

(** One call of a constructor, the destructor, a mutating member function
    or [operator+]; the numbers are the addresses of the objects involved. *)
Inductive operation :=
| call_ctor_count (this : nat) (count : count_arg)
| call_ctor_init (this : nat) (source : list T)
| call_ctor_copy (this other : nat)
| call_ctor_move (this other : nat)
| call_dtor (this : nat)
| call_push_back (this : nat) (value : T)
| call_insert (this : nat) (pos : pointer) (value : T)
| call_erase (this : nat) (pos : pointer)
| call_resize (this : nat) (count : count_arg)
| call_clear (this : nat)
| call_swap (this other : nat)
| call_copy_assign (this rhs : nat)
| call_move_assign (this other : nat)
| call_append (this other : nat)
| call_plus (result tmp lhs rhs : nat).

Definition exec (c : operation) : M unit :=
  match c with
  | call_ctor_count this count => ctor_count this count
  | call_ctor_init this source => ctor_init this source
  | call_ctor_copy this other => ctor_copy this other
  | call_ctor_move this other => ctor_move this other
  | call_dtor this => dtor this
  | call_push_back this value => push_back this value
  | call_insert this pos value => insert this pos value;;; ret ()
  | call_erase this pos => erase this pos;;; ret ()
  | call_resize this count => resize this count
  | call_clear this => clear this
  | call_swap this other => swap this other
  | call_copy_assign this rhs => copy_assign this rhs
  | call_move_assign this other => move_assign this other
  | call_append this other => append this other
  | call_plus result tmp lhs rhs => plus result tmp lhs rhs
  end.

(** The states a program can be in: after a call that returned, or after
    one that threw. *)
Inductive reachable : state → Prop :=
| reachable_initial : reachable initial_state
| reachable_return c s s' :
    reachable s → exec c s = Ok () s' → reachable s'
| reachable_throw c s e s' :
    reachable s → exec c s = Throw e s' → reachable s'.

End ArrayList.

Arguments state T : clear implicits.
Arguments outcome T A : clear implicits.
Arguments M T A : clear implicits.
Arguments Ok {T A} a s.
Arguments Throw {T A} e s.
Arguments Undefined {T A}.
Arguments initial_state {T}.

Notation "x <~ m ; k" := (bind m (λ x, k))
  (at level 20, m at level 100, k at level 200, right associativity,
   format "'[v' x  <~  m ; '/' k ']'").
Notation "m ;;; k" := (bind m (λ _, k))
  (at level 100, k at level 200, right associativity,
   format "'[v' m ;;; '/' k ']'").

(** ** Representation *)

Section Representation.

Context {T : Type}.

(** Every live array was handed out by [new_array]. *)
Definition heap_ok (s : state T) : Prop :=
  map_Forall (λ b _, b < next_block s) (arrays s).

(** The object at [x] has capacity [cap], its array starts at [p] and holds
    the elements [l] followed by the unused cells [spare]. *)
Definition owns_at (s : state T) (x : nat) (p : pointer) (cap : nat)
    (l : list T) (spare : list (option T)) : Prop :=
  objects s !! x = Some (MkArrayList cap (length l) p) ∧
  p_off p = 0%Z ∧
  cells_of s (p_block p) = Some ((Some <$> l) ++ spare) ∧
  length l + length spare = cap.

(** The container at [x] is well formed, has capacity [cap] and holds the
    elements [l]. *)
Definition owns (s : state T) (x : nat) (cap : nat) (l : list T) : Prop :=
  ∃ p spare, owns_at s x p cap l spare.

(** [size() <= capacity()] for every object. *)
Definition sizes_ok (o : gmap nat ArrayList) : Prop :=
  map_Forall (λ _ a, m_size a ≤ m_capacity a) o.

Definition size_le_capacity (s : state T) : Prop := sizes_ok (objects s).

End Representation.

(** ** Example states *)

(** The states below are written out; the lemmas [*_constructed] further
    down show the calls that produce them. *)

(** [ArrayList<int> a;] at address 0. *)
Definition empty_list : state Z :=
  State {[0 := MkArrayList 0 0 (Ptr (Some 0) 0)]} {[0 := []]} 1.

(** [ArrayList<int> a{1};] at address 0. *)
Definition list_1 : state Z :=
  State {[0 := MkArrayList 1 1 (Ptr (Some 0) 0)]} {[0 := [Some 1%Z]]} 1.

(** [ArrayList<int> a{1, 2, 3};] at address 0. *)
Definition list_123 : state Z :=
  State {[0 := MkArrayList 3 3 (Ptr (Some 0) 0)]}
        {[0 := [Some 1%Z; Some 2%Z; Some 3%Z]]} 1.

(** [ArrayList<int> a{1, 2}; a.push_back(3);] at address 0: three elements
    in four slots. *)
Definition list_123_spare : state Z :=
  State {[0 := MkArrayList 4 3 (Ptr (Some 1) 0)]}
        {[1 := [Some 1%Z; Some 2%Z; Some 3%Z; Some 0%Z]]} 2.

(** [ArrayList<int> a{1, 2, 3}, b{4};] at addresses 0 and 1. *)
Definition list_123_and_4 : state Z :=
  State {[0 := MkArrayList 3 3 (Ptr (Some 0) 0); 1 := MkArrayList 1 1 (Ptr (Some 1) 0)]}
        {[0 := [Some 1%Z; Some 2%Z; Some 3%Z]; 1 := [Some 4%Z]]} 2.

(** [ArrayList<int> a{1, 2}, b{3, 4};] at addresses 0 and 1. *)
Definition lists_12_34 : state Z :=
  State {[0 := MkArrayList 2 2 (Ptr (Some 0) 0); 1 := MkArrayList 2 2 (Ptr (Some 1) 0)]}
        {[0 := [Some 1%Z; Some 2%Z]; 1 := [Some 3%Z; Some 4%Z]]} 2.


(** * Proofs *)

Section Proofs.

Context {T : Type} `{EqDecision T}.
Variable T_default : T.
Variable arg_order : eval_order.

Implicit Types (s : state T) (x y this other : nat) (p q : pointer)
  (l vs : list T) (cells spare : list (option T)) (a : ArrayList).

(** ** Vocabulary *)

(** The capacity [push_back] and [insert] grow to. *)
Definition grown (cap : nat) : nat := if decide (cap = 0) then 1 else cap * 2.

(** The arrays that are left when the one at [b] is deleted. *)
Definition without (b : option nat) (arr : gmap nat (list (option T))) :
    gmap nat (list (option T)) :=
  match b with
  | Some b' => delete b' arr
  | None => arr
  end.

(** Going from [s] to [s'], only the object at [x] and the array [pb] it
    owned were touched. *)
Definition frame (pb : option nat) (x : nat) (s s' : state T) : Prop :=
  (∀ y, y ≠ x → objects s' !! y = objects s !! y) ∧
  (∀ b, b < next_block s → pb ≠ Some b → arrays s' !! b = arrays s !! b) ∧
  next_block s ≤ next_block s'.

(** ** What is proved of a computation *)

(** [m] returns from [s], and [Q] holds of what it returns. *)
Definition returns {A} (m : M T A) (Q : A → state T → Prop) (s : state T) : Prop :=
  match m s with
  | Ok r s' => Q r s'
  | _ => False
  end.

(** If [m] returns from [s] then [Q] holds, and if it throws then [E]
    holds of the state it leaves. *)
Definition wp {A} (m : M T A) (Q : A → state T → Prop) (E : state T → Prop)
    (s : state T) : Prop :=
  match m s with
  | Ok r s' => Q r s'
  | Throw _ s' => E s'
  | Undefined => True
  end.

(** A computation that works on the arrays only: it leaves the objects as
    they are and keeps the heap in order. *)
Definition heap_op {A} (m : M T A) : Prop :=
  ∀ s, wp m (λ _ s', objects s' = objects s ∧ (heap_ok s → heap_ok s'))
            (λ s', objects s' = objects s ∧ (heap_ok s → heap_ok s')) s.

Definition keeps_heap {A} (m : M T A) : Prop :=
  ∀ s, heap_ok s → wp m (λ _ s', heap_ok s') (λ s', heap_ok s') s.

(** What holds of the objects after [m], started on any state whose objects
    are [o]. *)
Definition owp {A} (m : M T A) (Q : A → gmap nat ArrayList → Prop)
    (E : gmap nat ArrayList → Prop) (o : gmap nat ArrayList) : Prop :=
  ∀ s, objects s = o → wp m (λ r s', Q r (objects s')) (λ s', E (objects s')) s.

Definition keeps_sizes {A} (m : M T A) : Prop :=
  ∀ o, sizes_ok o → owp m (λ _ o', sizes_ok o') sizes_ok o.

(** [m] does not throw. *)
Definition no_throw {A} (m : M T A) : Prop :=
  ∀ s, match m s with Throw _ _ => False | _ => True end.

(** [m] only reads: when it returns or throws, the state is the one it
    started from. *)
Definition read_only {A} (m : M T A) : Prop :=
  ∀ s, match m s with
       | Ok _ s' => s' = s
       | Throw _ s' => s' = s
       | Undefined => True
       end.

(** When [m] throws, the state is the one it started from. *)
Definition throws_unchanged {A} (m : M T A) : Prop :=
  ∀ s, match m s with Throw _ s' => s' = s | _ => True end.

(** ** Running a computation step by step *)

Lemma bind_Ok {A B} (m : M T A) (f : A → M T B) s r s1 :
  m s = Ok r s1 → bind m f s = f r s1.
Proof. unfold bind. by intros ->. Qed.

Lemma bind_Throw {A B} (m : M T A) (f : A → M T B) s e s1 :
  m s = Throw e s1 → bind m f s = Throw e s1.
Proof. unfold bind. by intros ->. Qed.

Lemma bind_Undefined {A B} (m : M T A) (f : A → M T B) s :
  m s = Undefined → bind m f s = Undefined.
Proof. unfold bind. by intros ->. Qed.

Lemma get_object_Ok s x a :
  objects s !! x = Some a → get_object x s = Ok a s.
Proof. unfold get_object. by intros ->. Qed.

Lemma size_Ok s x a :
  objects s !! x = Some a → size x s = Ok (m_size a) s.
Proof. intros Hx. unfold size. by rewrite (bind_Ok _ _ _ _ _ (get_object_Ok _ _ _ Hx)). Qed.

Lemma capacity_Ok s x a :
  objects s !! x = Some a → capacity x s = Ok (m_capacity a) s.
Proof. intros Hx. unfold capacity. by rewrite (bind_Ok _ _ _ _ _ (get_object_Ok _ _ _ Hx)). Qed.

Lemma begin_Ok s x a :
  objects s !! x = Some a → begin x s = Ok (m_data a) s.
Proof. intros Hx. unfold begin. by rewrite (bind_Ok _ _ _ _ _ (get_object_Ok _ _ _ Hx)). Qed.

Lemma end_Ok s x a :
  objects s !! x = Some a →
  end_ x s = Ok (ptr_add (m_data a) (Z.of_nat (m_size a))) s.
Proof. intros Hx. unfold end_. by rewrite (bind_Ok _ _ _ _ _ (get_object_Ok _ _ _ Hx)). Qed.

Lemma set_m_capacity_Ok s x a n :
  objects s !! x = Some a →
  set_m_capacity x n s =
  Ok () (State (<[x := MkArrayList n (m_size a) (m_data a)]> (objects s))
               (arrays s) (next_block s)).
Proof.
  intros Hx. unfold set_m_capacity.
  by rewrite (bind_Ok _ _ _ _ _ (get_object_Ok _ _ _ Hx)).
Qed.

Lemma set_m_size_Ok s x a n :
  objects s !! x = Some a →
  set_m_size x n s =
  Ok () (State (<[x := MkArrayList (m_capacity a) n (m_data a)]> (objects s))
               (arrays s) (next_block s)).
Proof.
  intros Hx. unfold set_m_size.
  by rewrite (bind_Ok _ _ _ _ _ (get_object_Ok _ _ _ Hx)).
Qed.

Lemma set_m_data_Ok s x a p :
  objects s !! x = Some a →
  set_m_data x p s =
  Ok () (State (<[x := MkArrayList (m_capacity a) (m_size a) p]> (objects s))
               (arrays s) (next_block s)).
Proof.
  intros Hx. unfold set_m_data.
  by rewrite (bind_Ok _ _ _ _ _ (get_object_Ok _ _ _ Hx)).
Qed.

Lemma load_Ok s b (i : Z) cells v :
  cells_of s b = Some cells →
  (0 ≤ i)%Z →
  cells !! Z.to_nat i = Some (Some v) →
  load (Ptr b i) s = Ok v s.
Proof.
  intros Hc Hi Hv. unfold load. simpl. rewrite Hc.
  destruct (decide (0 ≤ i)%Z); [|lia]. by rewrite Hv.
Qed.

Lemma store_Ok s b (i : Z) cells v :
  arrays s !! b = Some cells →
  (0 ≤ i < Z.of_nat (length cells))%Z →
  store (Ptr (Some b) i) v s =
  Ok () (State (objects s) (<[b := <[Z.to_nat i := Some v]> cells]> (arrays s))
               (next_block s)).
Proof.
  intros Hc Hi. unfold store. simpl. rewrite Hc.
  by destruct (decide (0 ≤ i < Z.of_nat (length cells))%Z).
Qed.

Lemma delete_array_Ok s b cells :
  arrays s !! b = Some cells →
  delete_array (Ptr (Some b) 0) s =
  Ok () (State (objects s) (delete b (arrays s)) (next_block s)).
Proof. intros Hc. unfold delete_array. simpl. by rewrite Hc. Qed.

Lemma distance_Ok s b (i j : Z) :
  (i ≤ j)%Z → distance (Ptr b i) (Ptr b j) s = Ok (Z.to_nat (j - i)) s.
Proof.
  intros Hij. unfold distance. simpl.
  destruct (decide (b = b ∧ (i ≤ j)%Z)) as [|Hn]; [done|].
  exfalso. apply Hn. done.
Qed.

Lemma distance_other_block s p q :
  p_block p ≠ p_block q → distance p q s = Undefined.
Proof.
  intros Hpq. unfold distance.
  destruct (decide (p_block p = p_block q ∧ (p_off p ≤ p_off q)%Z)) as [[? _]|]; done.
Qed.

Lemma distance_backwards s p q :
  (p_off q < p_off p)%Z → distance p q s = Undefined.
Proof.
  intros Hpq. unfold distance.
  destruct (decide (p_block p = p_block q ∧ (p_off p ≤ p_off q)%Z)) as [[_ ?]|];
    [lia|done].
Qed.

(** ** The copy loops *)

Lemma take_drop_cons {A} n i (src : list A) (c : A) (cs : list A) :
  take (S n) (drop i src) = c :: cs →
  src !! i = Some c ∧ take n (drop (S i) src) = cs.
Proof.
  intros Hsrc. destruct (drop i src) as [|c' d] eqn:E; [done|].
  simpl in Hsrc. injection Hsrc as -> <-.
  assert (src !! i = Some c) as Hi.
  { rewrite <- (Nat.add_0_r i), <- lookup_drop. by rewrite E. }
  split; [done|]. rewrite (drop_S _ _ _ Hi) in E. by injection E as ->.
Qed.

Lemma cells_of_insert_ne o arr nx bs bd cells :
  bs ≠ Some bd →
  cells_of (State o (<[bd := cells]> arr) nx) bs = cells_of (State o arr nx) bs.
Proof.
  intros Hne. destruct bs as [b|]; [|done]. simpl.
  apply lookup_insert_ne. congruence.
Qed.

(** Copying [n] cells into another array. *)
Lemma copy_loop_other n : ∀ o arr nx bs (os : Z) bd (od : Z) src dst vs,
  cells_of (State o arr nx) bs = Some src →
  arr !! bd = Some dst →
  bs ≠ Some bd →
  (0 ≤ os)%Z → (0 ≤ od)%Z →
  take n (drop (Z.to_nat os) src) = Some <$> vs →
  length vs = n →
  Z.to_nat od + n ≤ length dst →
  copy_loop n (Ptr bs os) (Ptr (Some bd) od) (State o arr nx) =
  Ok () (State o (<[bd := take (Z.to_nat od) dst ++ (Some <$> vs) ++
                          drop (Z.to_nat od + n) dst]> arr) nx).
Proof.
  induction n as [|n IH]; intros o arr nx bs os bd od src dst vs Hsrc Hdst Hne Hos Hod Hvs Hlen Hfit.
  - destruct vs; [|done]. simpl. unfold ret. do 2 f_equal.
    rewrite Nat.add_0_r, take_drop. symmetry. by apply insert_id.
  - destruct vs as [|v vs]; [done|]. simpl in Hlen.
    apply take_drop_cons in Hvs as [Hv Hvs].
    simpl copy_loop.
    rewrite (bind_Ok _ _ _ _ _ (load_Ok _ _ _ _ _ Hsrc Hos Hv)).
    erewrite bind_Ok; [|apply (store_Ok _ _ _ dst); [done|lia]].
    unfold ptr_add; simpl.
    erewrite (IH _ _ _ _ _ _ _ src (<[Z.to_nat od := Some v]> dst) vs).
    + do 2 f_equal. rewrite insert_insert_eq. f_equal.
      replace (Z.to_nat (od + 1)) with (S (Z.to_nat od)) by lia.
      rewrite (take_S_r _ _ (Some v)) by (apply list_lookup_insert_eq; lia).
      rewrite take_insert_ge by lia.
      rewrite drop_insert_lt by lia.
      rewrite <- app_assoc. simpl. repeat f_equal. lia.
    + by rewrite cells_of_insert_ne.
    + apply lookup_insert_eq.
    + done.
    + lia.
    + lia.
    + by replace (Z.to_nat (os + 1)) with (S (Z.to_nat os)) by lia.
    + lia.
    + rewrite length_insert. lia.
Qed.

(** Copying [n] cells towards the beginning of their own array. *)
Lemma copy_loop_left n : ∀ o arr nx b (os od : Z) cells vs,
  arr !! b = Some cells →
  (0 ≤ od ≤ os)%Z →
  take n (drop (Z.to_nat os) cells) = Some <$> vs →
  length vs = n →
  copy_loop n (Ptr (Some b) os) (Ptr (Some b) od) (State o arr nx) =
  Ok () (State o (<[b := take (Z.to_nat od) cells ++ (Some <$> vs) ++
                         drop (Z.to_nat od + n) cells]> arr) nx).
Proof.
  induction n as [|n IH]; intros o arr nx b os od cells vs Hcells Hoff Hvs Hlen.
  - destruct vs; [|done]. simpl. unfold ret. do 2 f_equal.
    rewrite Nat.add_0_r, take_drop. symmetry. by apply insert_id.
  - destruct vs as [|v vs]; [done|]. simpl in Hlen.
    apply take_drop_cons in Hvs as [Hv Hvs].
    assert (Z.to_nat os < length cells) by (by eapply lookup_lt_Some).
    simpl copy_loop.
    erewrite bind_Ok; [|by apply (load_Ok _ _ _ cells v); [|lia|]].
    erewrite bind_Ok; [|apply (store_Ok _ _ _ cells); [done|lia]].
    unfold ptr_add; simpl.
    erewrite (IH _ _ _ _ _ _ (<[Z.to_nat od := Some v]> cells) vs).
    + do 2 f_equal. rewrite insert_insert_eq. f_equal.
      replace (Z.to_nat (od + 1)) with (S (Z.to_nat od)) by lia.
      rewrite (take_S_r _ _ (Some v)) by (apply list_lookup_insert_eq; lia).
      rewrite take_insert_ge by lia.
      rewrite drop_insert_lt by lia.
      rewrite <- app_assoc. simpl. repeat f_equal. lia.
    + apply lookup_insert_eq.
    + lia.
    + replace (Z.to_nat (os + 1)) with (S (Z.to_nat os)) by lia.
      by rewrite drop_insert_lt by lia.
    + lia.
Qed.

Lemma copy_loop_zero p q s : copy_loop 0 p q s = Ok () s.
Proof. done. Qed.

(** ** Invariants: what holds of every outcome that has a state *)

Lemma wp_bind {A B} (m : M T A) (f : A → M T B) Q E s :
  wp m (λ r s', wp (f r) Q E s') E s → wp (bind m f) Q E s.
Proof. unfold wp, bind. by destruct (m s). Qed.

Lemma wp_ret {A} (r : A) (Q : A → state T → Prop) E s : Q r s → wp (ret r) Q E s.
Proof. done. Qed.

Lemma wp_throw {A} e (Q : A → state T → Prop) (E : state T → Prop) s :
  E s → wp (throw e) Q E s.
Proof. done. Qed.

Lemma wp_undefined {A} (Q : A → state T → Prop) E s : wp undefined Q E s.
Proof. done. Qed.

Lemma wp_mono {A} (m : M T A) (Q Q' : A → state T → Prop) (E E' : state T → Prop) s :
  wp m Q E s →
  (∀ r s', Q r s' → Q' r s') →
  (∀ s', E s' → E' s') →
  wp m Q' E' s.
Proof. unfold wp. destruct (m s); auto. Qed.

Lemma wp_get_object x (Q : ArrayList → state T → Prop) E s :
  (∀ a, objects s !! x = Some a → Q a s) → wp (get_object x) Q E s.
Proof. unfold wp, get_object. destruct (objects s !! x); auto. Qed.

Lemma wp_set_object x a (Q : unit → state T → Prop) E s :
  Q () (State (<[x := a]> (objects s)) (arrays s) (next_block s)) →
  wp (set_object x a) Q E s.
Proof. done. Qed.

Lemma wp_remove_object x (Q : unit → state T → Prop) E s :
  Q () (State (delete x (objects s)) (arrays s) (next_block s)) →
  wp (remove_object x) Q E s.
Proof. done. Qed.

Lemma wp_heap_op {A} (m : M T A) (Q : A → state T → Prop) (E : state T → Prop) s :
  heap_op m →
  (∀ r s', objects s' = objects s → (heap_ok s → heap_ok s') → Q r s') →
  (∀ s', objects s' = objects s → (heap_ok s → heap_ok s') → E s') →
  wp m Q E s.
Proof.
  intros Hm HQ HE. eapply wp_mono; [apply (Hm s)|..]; simpl.
  - intros r s' [? ?]. by apply HQ.
  - intros s' [? ?]. by apply HE.
Qed.

Lemma heap_op_ret {A} (r : A) : heap_op (ret r).
Proof. intros s. by apply wp_ret. Qed.

Lemma heap_op_undefined {A} : heap_op (@undefined T A).
Proof. intros s. apply wp_undefined. Qed.

Lemma heap_op_bind {A B} (m : M T A) (f : A → M T B) :
  heap_op m → (∀ r, heap_op (f r)) → heap_op (bind m f).
Proof.
  intros Hm Hf s. apply wp_bind. apply wp_heap_op; [done|..].
  - intros r s' Ho Hh. apply wp_heap_op; [done|..]; intros; split; (congruence || auto).
  - intros s' Ho Hh. auto.
Qed.

Lemma heap_op_load p : heap_op (load p).
Proof.
  intros s. unfold wp, load. repeat case_match; simplify_eq; done.
Qed.

Lemma heap_op_store p v : heap_op (store p v).
Proof.
  intros s. unfold wp, store. repeat case_match; simplify_eq; auto.
  simpl. split; [done|]. intros Hok. unfold heap_ok in *. simpl.
  apply map_Forall_insert_2; [|done].
  by eapply (map_Forall_lookup_1 _ _ _ _ Hok).
Qed.

Lemma heap_op_new_array n init : heap_op (new_array n init).
Proof.
  intros s. unfold wp, new_array. split; [done|]. intros Hok.
  unfold heap_ok in *. simpl. apply map_Forall_insert_2; [lia|].
  eapply map_Forall_impl; [exact Hok|]. simpl. lia.
Qed.

Lemma heap_op_new_array_of count init : heap_op (new_array_of count init).
Proof.
  destruct count as [n|n]; simpl; [apply heap_op_new_array|].
  intros s. unfold wp, throw. done.
Qed.

Lemma heap_op_delete_array p : heap_op (delete_array p).
Proof.
  intros s. unfold wp, delete_array. repeat case_match; simplify_eq; auto.
  simpl. split; [done|]. intros Hok. by apply map_Forall_delete.
Qed.

Lemma heap_op_distance p q : heap_op (distance p q).
Proof. intros s. unfold wp, distance. case_decide; simpl; auto. Qed.

Lemma heap_op_ptr_lt p q : heap_op (ptr_lt p q).
Proof. intros s. unfold wp, ptr_lt. case_decide; simpl; auto. Qed.

Lemma heap_op_copy_loop n : ∀ p q, heap_op (copy_loop n p q).
Proof.
  induction n as [|n IH]; intros p q; simpl.
  - apply heap_op_ret.
  - apply heap_op_bind; [apply heap_op_load|]. intros v.
    apply heap_op_bind; [apply heap_op_store|]. intros _. apply IH.
Qed.

Lemma heap_op_std_copy p q d : heap_op (std_copy p q d).
Proof.
  apply heap_op_bind; [apply heap_op_distance|]. intros n. apply heap_op_copy_loop.
Qed.

Lemma heap_op_copy_backward_loop n : ∀ p q, heap_op (copy_backward_loop n p q).
Proof.
  induction n as [|n IH]; intros p q; simpl.
  - apply heap_op_ret.
  - apply heap_op_bind; [apply heap_op_load|]. intros v.
    apply heap_op_bind; [apply heap_op_store|]. intros _. apply IH.
Qed.

Lemma heap_op_std_copy_backward p q d : heap_op (std_copy_backward p q d).
Proof.
  apply heap_op_bind; [apply heap_op_distance|]. intros n.
  apply heap_op_copy_backward_loop.
Qed.

Lemma heap_op_equal_loop n1 : ∀ n2 p q, heap_op (equal_loop n1 n2 p q).
Proof.
  induction n1 as [|n1 IH]; intros [|n2] p q; simpl; try apply heap_op_ret.
  apply heap_op_bind; [apply heap_op_load|]. intros v1.
  apply heap_op_bind; [apply heap_op_load|]. intros v2.
  case_decide; [apply IH|apply heap_op_ret].
Qed.

Lemma heap_op_std_equal p1 q1 p2 q2 : heap_op (std_equal p1 q1 p2 q2).
Proof.
  apply heap_op_bind; [apply heap_op_distance|]. intros n1.
  apply heap_op_bind; [apply heap_op_distance|]. intros n2.
  apply heap_op_equal_loop.
Qed.

Lemma heap_op_copy_from_list source : ∀ p, heap_op (copy_from_list source p).
Proof.
  induction source as [|v source IH]; intros p; simpl.
  - apply heap_op_ret.
  - apply heap_op_bind; [apply heap_op_store|]. intros _. apply IH.
Qed.

(** ** Total correctness: the computation returns, and what it returns *)

Lemma returns_bind {A B} (m : M T A) (f : A → M T B) Q s :
  returns m (λ r s', returns (f r) Q s') s → returns (bind m f) Q s.
Proof. unfold returns, bind. by destruct (m s). Qed.

Lemma returns_eq {A} (m : M T A) (Q : A → state T → Prop) s r s' :
  m s = Ok r s' → Q r s' → returns m Q s.
Proof. unfold returns. by intros ->. Qed.

Lemma returns_ret {A} (r : A) (Q : A → state T → Prop) s :
  Q r s → returns (ret r) Q s.
Proof. done. Qed.

Lemma returns_elim {A} (m : M T A) (Q : A → state T → Prop) s :
  returns m Q s → ∃ r s', m s = Ok r s' ∧ Q r s'.
Proof. unfold returns. destruct (m s); naive_solver. Qed.

Lemma new_array_Ok n init s :
  new_array n init s =
  Ok (Ptr (Some (next_block s)) 0)
     (State (objects s) (<[next_block s := replicate n init]> (arrays s))
            (S (next_block s))).
Proof. done. Qed.

Lemma set_object_Ok x a s :
  set_object x a s =
  Ok () (State (<[x := a]> (objects s)) (arrays s) (next_block s)).
Proof. done. Qed.

Lemma delete_array_null s : delete_array (Ptr None 0) s = Ok () s.
Proof. done. Qed.

(** ** Tactics for stepping through a member function *)

Ltac lookup_object :=
  simpl;
  first [ eassumption
        | apply lookup_insert_eq
        | rewrite lookup_insert_ne by done; lookup_object ].

Ltac step_with lem :=
  apply returns_bind; eapply returns_eq; [lem|cbv beta].

Ltac step_object :=
  first [ step_with ltac:(apply get_object_Ok; lookup_object)
        | step_with ltac:(apply size_Ok; lookup_object)
        | step_with ltac:(apply capacity_Ok; lookup_object)
        | step_with ltac:(apply begin_Ok; lookup_object)
        | step_with ltac:(apply end_Ok; lookup_object)
        | step_with ltac:(apply set_m_capacity_Ok; lookup_object)
        | step_with ltac:(apply set_m_size_Ok; lookup_object)
        | step_with ltac:(apply set_m_data_Ok; lookup_object)
        | step_with ltac:(apply new_array_Ok)
        | step_with ltac:(apply set_object_Ok) ];
  simpl objects; simpl arrays; simpl next_block;
  simpl m_size; simpl m_capacity; simpl m_data.

Ltac last_object :=
  first [ eapply returns_eq; [apply set_m_capacity_Ok; lookup_object|]
        | eapply returns_eq; [apply set_m_size_Ok; lookup_object|]
        | eapply returns_eq; [apply set_m_data_Ok; lookup_object|]
        | eapply returns_eq; [apply set_object_Ok|] ];
  simpl objects; simpl arrays; simpl next_block;
  simpl m_size; simpl m_capacity; simpl m_data.


(** ** Ranges of elements *)

Lemma heap_ok_fresh o arr nx b cells :
  heap_ok (State o arr nx) → cells_of (State o arr nx) b = Some cells → b ≠ Some nx.
Proof.
  intros Hok Hc ->. simpl in Hc.
  pose proof (map_Forall_lookup_1 _ _ _ _ Hok Hc) as Hlt. simpl in Hlt. lia.
Qed.

Lemma take_elements k l spare :
  k ≤ length l → take k ((Some <$> l) ++ spare) = Some <$> take k l.
Proof.
  intros Hk. rewrite take_app_le by (by rewrite length_fmap).
  by rewrite fmap_take.
Qed.

(** Copying the first [k] elements of a container into another array. *)
Lemma std_copy_prefix o arr nx bs bd (od k : nat) l spare dst :
  cells_of (State o arr nx) bs = Some ((Some <$> l) ++ spare) →
  arr !! bd = Some dst →
  bs ≠ Some bd →
  k ≤ length l →
  od + k ≤ length dst →
  std_copy (Ptr bs 0) (Ptr bs (0 + Z.of_nat k)) (Ptr (Some bd) (Z.of_nat od))
    (State o arr nx) =
  Ok () (State o (<[bd := take od dst ++ (Some <$> take k l) ++ drop (od + k) dst]> arr) nx).
Proof.
  intros Hsrc Hdst Hne Hk Hfit. unfold std_copy.
  erewrite bind_Ok; [|apply distance_Ok; lia].
  replace (Z.to_nat (0 + Z.of_nat k - 0)) with k by lia.
  rewrite (copy_loop_other k _ _ _ _ _ _ _ _ dst (take k l) Hsrc Hdst Hne);
    rewrite ?Nat2Z.id; try lia.
  - done.
  - simpl. by apply take_elements.
  - rewrite length_take. lia.
Qed.

Lemma delete_array_owned s b cells :
  cells_of s b = Some cells →
  delete_array (Ptr b 0) s =
  Ok () (State (objects s) (without b (arrays s)) (next_block s)).
Proof.
  destruct b as [b'|]; simpl; intros Hc.
  - by eapply delete_array_Ok.
  - by destruct s.
Qed.

Lemma owns_at_block s x b (i : Z) cap l spare :
  owns_at s x (Ptr b i) cap l spare → 0 < cap → ∃ b', b = Some b'.
Proof.
  intros (_ & _ & Hc & Hlen) Hcap. destruct b as [b'|]; [by eexists|].
  simpl in Hc. injection Hc as Hc. symmetry in Hc.
  apply app_eq_nil in Hc as [Hl ->]. apply fmap_nil_inv in Hl as ->. simpl in *. lia.
Qed.

Lemma lookup_without_ne b k (arr : gmap nat (list (option T))) :
  b ≠ Some k → without b arr !! k = arr !! k.
Proof.
  intros Hne. destruct b as [b'|]; [|done]. simpl.
  apply lookup_delete_ne. congruence.
Qed.

Lemma insert_element l (c : option T) spare v :
  <[length l := Some v]> ((Some <$> l) ++ c :: spare) = (Some <$> (l ++ [v])) ++ spare.
Proof.
  rewrite fmap_app, <- app_assoc. simpl.
  rewrite <- (length_fmap Some l) at 1.
  by rewrite (insert_app_r_alt _ _ _ _ (le_n _)), Nat.sub_diag.
Qed.

(** ** [push_back] *)

Lemma push_back_store o arr nx x cap l b c spare v :
  o !! x = Some (MkArrayList cap (length l) (Ptr (Some b) 0)) →
  arr !! b = Some ((Some <$> l) ++ c :: spare) →
  length l + S (length spare) = cap →
  returns (a <~ get_object x;
           set_m_size x (m_size a + 1);;;
           store (ptr_add (m_data a) (Z.of_nat (m_size a))) v)
    (λ _ s', owns s' x cap (l ++ [v])) (State o arr nx).
Proof.
  intros Hobj Hcells Hlen. do 2 step_object. unfold ptr_add; simpl.
  eapply returns_eq.
  { apply (store_Ok _ _ _ ((Some <$> l) ++ c :: spare)); [done|].
    rewrite length_app, length_fmap. simpl. lia. }
  exists (Ptr (Some b) 0), spare. repeat split; simpl.
  - rewrite lookup_insert_eq, length_app. simpl. done.
  - rewrite lookup_insert_eq. f_equal.
    replace (Z.to_nat (0 + Z.of_nat (length l))) with (length l) by lia.
    apply insert_element.
  - rewrite length_app. simpl. lia.
Qed.

Lemma push_back_returns s x cap l v :
  owns s x cap l → heap_ok s →
  returns (push_back T_default x v)
    (λ _ s', owns s' x (if decide (length l = cap) then grown cap else cap) (l ++ [v])) s.
Proof.
  intros (p & spare & Hobj & Hoff & Hcells & Hlen) Hok.
  destruct s as [o arr nx], p as [pb po]. simpl in *. subst po.
  unfold push_back. do 2 step_object.
  case_decide as Hfull.
  - pose proof (heap_ok_fresh _ _ _ _ _ Hok Hcells) as Hfresh.
    apply returns_bind. do 6 step_object. unfold ptr_add; simpl.
    step_with ltac:(apply (std_copy_prefix _ _ _ pb nx 0 (length l) l spare);
      [by rewrite cells_of_insert_ne|apply lookup_insert_eq|done|done|
       rewrite length_replicate; case_decide; lia]).
    step_object.
    step_with ltac:(eapply delete_array_owned; simpl;
      by rewrite cells_of_insert_ne, cells_of_insert_ne).
    last_object. rewrite insert_insert_eq. fold (grown cap).
    assert (length l < grown cap) as Hroom by (unfold grown; case_decide; lia).
    rewrite take_ge, drop_replicate by done.
    destruct (grown cap - length l) as [|k] eqn:Hk; [lia|]. simpl replicate.
    eapply push_back_store.
    + apply lookup_insert_eq.
    + rewrite lookup_without_ne by done. apply lookup_insert_eq.
    + rewrite length_replicate. lia.
  - apply returns_bind, returns_ret.
    destruct spare as [|c spare]; [simpl in Hlen; lia|].
    destruct pb as [b|]; [|simpl in Hcells; injection Hcells as Hc; by destruct l]. simpl in *.
    by eapply push_back_store.
Qed.

(** ** Every member function keeps the heap in order *)

Lemma keeps_heap_bind {A B} (m : M T A) (f : A → M T B) :
  keeps_heap m → (∀ r, keeps_heap (f r)) → keeps_heap (bind m f).
Proof.
  intros Hm Hf s Hs. apply wp_bind. eapply wp_mono; [by apply Hm|..]; simpl; [|done].
  intros r s' Hs'. by apply Hf.
Qed.

Lemma keeps_heap_heap_op {A} (m : M T A) : heap_op m → keeps_heap m.
Proof. intros Hm s Hs. apply wp_heap_op; auto. Qed.

Lemma keeps_heap_ret {A} (r : A) : keeps_heap (ret r).
Proof. by intros s Hs. Qed.

Lemma keeps_heap_throw {A} e : keeps_heap (@throw T A e).
Proof. by intros s Hs. Qed.

Lemma keeps_heap_undefined {A} : keeps_heap (@undefined T A).
Proof. by intros s Hs. Qed.

Lemma keeps_heap_get_object x : keeps_heap (get_object x).
Proof. intros s Hs. by apply wp_get_object. Qed.

Lemma keeps_heap_set_object x a : keeps_heap (set_object x a).
Proof. by intros s Hs. Qed.

Lemma keeps_heap_remove_object x : keeps_heap (remove_object x).
Proof. by intros s Hs. Qed.

Ltac keeps_heap :=
  repeat first
    [ apply keeps_heap_heap_op;
      first [ apply heap_op_load | apply heap_op_store | apply heap_op_new_array
            | apply heap_op_new_array_of
            | apply heap_op_delete_array | apply heap_op_distance
            | apply heap_op_ptr_lt | apply heap_op_std_copy
            | apply heap_op_std_copy_backward | apply heap_op_std_equal
            | apply heap_op_copy_from_list ]
    | apply keeps_heap_ret
    | apply keeps_heap_throw
    | apply keeps_heap_undefined
    | apply keeps_heap_get_object
    | apply keeps_heap_set_object
    | apply keeps_heap_remove_object
    | apply keeps_heap_bind; [|intros ?]
    | case_decide
    | case_match ].

Lemma keeps_heap_size x : keeps_heap (size x).
Proof. unfold size. keeps_heap. Qed.

Lemma keeps_heap_capacity x : keeps_heap (capacity x).
Proof. unfold capacity. keeps_heap. Qed.

Lemma keeps_heap_begin x : keeps_heap (begin x).
Proof. unfold begin. keeps_heap. Qed.

Lemma keeps_heap_end x : keeps_heap (end_ x).
Proof. unfold end_. keeps_heap. Qed.

Lemma keeps_heap_set_m_capacity x n : keeps_heap (set_m_capacity x n).
Proof. unfold set_m_capacity. keeps_heap. Qed.

Lemma keeps_heap_set_m_size x n : keeps_heap (set_m_size x n).
Proof. unfold set_m_size. keeps_heap. Qed.

Lemma keeps_heap_set_m_data x p : keeps_heap (set_m_data x p).
Proof. unfold set_m_data. keeps_heap. Qed.

Ltac keeps_heap_member :=
  repeat first
    [ apply keeps_heap_size | apply keeps_heap_capacity | apply keeps_heap_begin
    | apply keeps_heap_end | apply keeps_heap_set_m_capacity
    | apply keeps_heap_set_m_size | apply keeps_heap_set_m_data
    | progress keeps_heap ].

Lemma keeps_heap_ctor_count x n : keeps_heap (ctor_count T_default x n).
Proof. unfold ctor_count. keeps_heap_member. Qed.

Lemma keeps_heap_ctor_copy x y : keeps_heap (ctor_copy T_default x y).
Proof.
  unfold ctor_copy. apply keeps_heap_bind; [apply keeps_heap_size|]. intros n.
  apply keeps_heap_bind; [apply keeps_heap_ctor_count|]. intros _.
  keeps_heap_member.
Qed.

Lemma keeps_heap_ctor_init x source : keeps_heap (ctor_init T_default x source).
Proof.
  unfold ctor_init. apply keeps_heap_bind; [apply keeps_heap_ctor_count|].
  intros _. keeps_heap_member.
Qed.

Lemma keeps_heap_ctor_move x y : keeps_heap (ctor_move x y).
Proof. unfold ctor_move. keeps_heap_member. Qed.

Lemma keeps_heap_dtor x : keeps_heap (dtor x).
Proof. unfold dtor. keeps_heap_member. Qed.

Lemma keeps_heap_clear x : keeps_heap (clear x).
Proof. unfold clear. keeps_heap_member. Qed.

Lemma keeps_heap_push_back x v : keeps_heap (push_back T_default x v).
Proof. unfold push_back. keeps_heap_member. Qed.

Lemma keeps_heap_insert x p v : keeps_heap (insert T_default arg_order x p v).
Proof. unfold insert. keeps_heap_member. Qed.

Lemma keeps_heap_erase x p : keeps_heap (erase x p).
Proof. unfold erase. keeps_heap_member. Qed.

Lemma keeps_heap_resize x n : keeps_heap (resize T_default x n).
Proof. unfold resize. keeps_heap_member. Qed.

Lemma keeps_heap_swap x y : keeps_heap (swap x y).
Proof. unfold swap. keeps_heap_member. Qed.

Lemma keeps_heap_copy_assign x y : keeps_heap (copy_assign T_default x y).
Proof. unfold copy_assign. keeps_heap_member. Qed.

Lemma keeps_heap_move_assign x y : keeps_heap (move_assign x y).
Proof. unfold move_assign. keeps_heap_member. Qed.

Lemma keeps_heap_append x y : keeps_heap (append x y).
Proof. unfold append. keeps_heap_member. Qed.

Lemma keeps_heap_plus r t x y : keeps_heap (plus T_default r t x y).
Proof.
  unfold plus.
  repeat (apply keeps_heap_bind; [|intros _]);
    auto using keeps_heap_ctor_copy, keeps_heap_append, keeps_heap_dtor.
Qed.

Lemma returns_keeps_heap {A} (m : M T A) (Q : A → state T → Prop) s :
  keeps_heap m → heap_ok s → returns m Q s →
  returns m (λ r s', Q r s' ∧ heap_ok s') s.
Proof.
  intros Hm Hs HQ. specialize (Hm s Hs). unfold wp, returns in *.
  by destruct (m s).
Qed.

(** ** Reading a well-formed container *)

Lemma owns_size s x cap l : owns s x cap l → size x s = Ok (length l) s.
Proof. intros (p & spare & Hobj & _). by rewrite (size_Ok _ _ _ Hobj). Qed.

Lemma owns_capacity s x cap l : owns s x cap l → capacity x s = Ok cap s.
Proof. intros (p & spare & Hobj & _). by rewrite (capacity_Ok _ _ _ Hobj). Qed.

Lemma owns_size_le_capacity s x cap l : owns s x cap l → length l ≤ cap.
Proof. intros (p & spare & _ & _ & _ & Hlen). lia. Qed.

Lemma owns_load s x p cap l spare i v :
  owns_at s x p cap l spare → l !! i = Some v →
  load (ptr_add p (Z.of_nat i)) s = Ok v s.
Proof.
  intros (Hobj & Hoff & Hcells & Hlen) Hv. destruct p as [pb po]. simpl in *. subst po.
  unfold ptr_add. simpl. apply (load_Ok _ _ _ _ _ Hcells); [lia|].
  replace (Z.to_nat (0 + Z.of_nat i)) with i by lia.
  rewrite lookup_app_l by (rewrite length_fmap; by eapply lookup_lt_Some).
  by rewrite list_lookup_fmap, Hv.
Qed.

Lemma owns_index s x cap l i v :
  owns s x cap l → l !! i = Some v → index x i s = Ok v s.
Proof.
  intros (p & spare & Hown) Hv. unfold index.
  rewrite (bind_Ok _ _ _ _ _ (get_object_Ok _ _ _ (proj1 Hown))). simpl.
  by eapply owns_load.
Qed.

Lemma owns_at_in_range s x cap l pos v :
  owns s x cap l → l !! pos = Some v → at_ x pos s = Ok v s.
Proof.
  intros Hown Hv. pose proof (lookup_lt_Some _ _ _ Hv) as Hlt.
  destruct Hown as (p & spare & Hown). unfold at_.
  rewrite (bind_Ok _ _ _ _ _ (size_Ok _ _ _ (proj1 Hown))). simpl.
  case_decide; [lia|].
  rewrite (bind_Ok _ _ _ _ _ (get_object_Ok _ _ _ (proj1 Hown))). simpl.
  by eapply owns_load.
Qed.

Lemma at_out_of_range s x a pos :
  objects s !! x = Some a → m_size a ≤ pos → at_ x pos s = Throw out_of_range s.
Proof.
  intros Hobj Hpos. unfold at_. rewrite (bind_Ok _ _ _ _ _ (size_Ok _ _ _ Hobj)).
  case_decide; [done|lia].
Qed.

(** ** Appending a sequence of values *)

Lemma push_back_all_returns vs : ∀ s x cap l,
  owns s x cap l → heap_ok s →
  returns (push_back_all T_default x vs)
    (λ _ s', (∃ cap', owns s' x cap' (l ++ vs)) ∧ heap_ok s') s.
Proof.
  induction vs as [|v vs IH]; intros s x cap l Hown Hok; simpl.
  - apply returns_ret. rewrite app_nil_r. eauto.
  - apply returns_bind.
    pose proof (returns_keeps_heap _ _ _ (keeps_heap_push_back x v) Hok
                  (push_back_returns _ _ _ _ v Hown Hok)) as Hpush.
    unfold returns in *. destruct (push_back T_default x v s) as [[] s1| |]; try done.
    destruct Hpush as [Hown1 Hok1].
    specialize (IH _ _ _ _ Hown1 Hok1).
    destruct (push_back_all T_default x vs s1); try done.
    by rewrite <- app_assoc in IH.
Qed.

(** ** [erase] *)

Lemma ptr_lt_Ok s b (i j : Z) :
  ptr_lt (Ptr b i) (Ptr b j) s = Ok (bool_decide (i < j)%Z) s.
Proof. unfold ptr_lt. simpl. by destruct (decide (b = b)). Qed.

Lemma ptr_eqb_offset b (i j : Z) : ptr_eqb (Ptr b i) (Ptr b j) = bool_decide (i = j).
Proof.
  unfold ptr_eqb. apply bool_decide_ext. split; [by intros [=]|by intros ->].
Qed.

(** At or before [begin()]: rejected. *)
Lemma erase_at_or_before_begin s x pb cap l spare (k : Z) :
  owns_at s x (Ptr pb 0) cap l spare → (k ≤ 0)%Z →
  erase x (Ptr pb k) s = Throw out_of_range s.
Proof.
  intros (Hobj & _) Hk. unfold erase.
  rewrite (bind_Ok _ _ _ _ _ (get_object_Ok _ _ _ Hobj)). simpl.
  rewrite (bind_Ok _ _ _ _ _ (ptr_lt_Ok _ _ _ _)), ptr_eqb_offset.
  destruct (decide (k < 0)%Z).
  - by rewrite bool_decide_eq_true_2.
  - rewrite (bool_decide_eq_true_2 (k = 0)%Z) by lia. by rewrite orb_true_r.
Qed.

(** Past [end()]: rejected. *)
Lemma erase_past_end s x pb cap l spare (k : Z) :
  owns_at s x (Ptr pb 0) cap l spare → (Z.of_nat (length l) < k)%Z →
  erase x (Ptr pb k) s = Throw out_of_range s.
Proof.
  intros (Hobj & _) Hk. unfold erase.
  rewrite (bind_Ok _ _ _ _ _ (get_object_Ok _ _ _ Hobj)). simpl.
  rewrite (bind_Ok _ _ _ _ _ (ptr_lt_Ok _ _ _ _)), ptr_eqb_offset.
  rewrite !bool_decide_eq_false_2 by lia. simpl.
  unfold ptr_gt, ptr_add. simpl.
  rewrite (bind_Ok _ _ _ _ _ (ptr_lt_Ok _ _ _ _)).
  by rewrite bool_decide_eq_true_2 by lia.
Qed.

(** At [end()] of a container that is not empty: neither rejected nor
    carried out; the range [pos + 1, end()) handed to [std::copy] starts
    behind its end. *)
Lemma erase_at_end s x pb cap l spare :
  owns_at s x (Ptr pb 0) cap l spare → 0 < length l →
  erase x (Ptr pb (Z.of_nat (length l))) s = Undefined.
Proof.
  intros (Hobj & _) Hk. unfold erase.
  rewrite (bind_Ok _ _ _ _ _ (get_object_Ok _ _ _ Hobj)). simpl.
  rewrite (bind_Ok _ _ _ _ _ (ptr_lt_Ok _ _ _ _)), ptr_eqb_offset.
  rewrite !bool_decide_eq_false_2 by lia. simpl.
  unfold ptr_gt, ptr_add. simpl.
  rewrite (bind_Ok _ _ _ _ _ (ptr_lt_Ok _ _ _ _)).
  rewrite bool_decide_eq_false_2 by lia.
  rewrite (bind_Ok _ _ _ _ _ (end_Ok _ _ _ Hobj)). simpl.
  apply bind_Undefined. unfold std_copy. apply bind_Undefined.
  apply distance_backwards. simpl. lia.
Qed.

(** Strictly between [begin()] and [end()]: the element is removed. *)
Lemma erase_inside s x pb cap l spare (k : nat) :
  owns_at s x (Ptr pb 0) cap l spare → 0 < k < length l →
  returns (erase x (Ptr pb (Z.of_nat k)))
    (λ r s', r = Ptr pb (Z.of_nat k) ∧ owns s' x cap (take k l ++ drop (S k) l)) s.
Proof.
  intros Hown Hk.
  destruct (owns_at_block _ _ _ _ _ _ _ Hown ltac:(destruct Hown as (_&_&_&?); lia))
    as [b ->].
  destruct Hown as (Hobj & _ & Hcells & Hlen). destruct s as [o arr nx]. simpl in *.
  unfold erase. step_object.
  step_with ltac:(apply ptr_lt_Ok). rewrite ptr_eqb_offset.
  rewrite !bool_decide_eq_false_2 by lia. simpl.
  unfold ptr_gt, ptr_add. simpl.
  step_with ltac:(apply ptr_lt_Ok). rewrite bool_decide_eq_false_2 by lia.
  step_object. unfold ptr_add; simpl.
  apply returns_bind. unfold std_copy.
  step_with ltac:(apply distance_Ok; lia).
  eapply returns_eq.
  { apply (copy_loop_left _ _ _ _ _ _ _ _ (drop (S k) l) Hcells); [lia| |].
    - replace (Z.to_nat (Z.of_nat k + 1)) with (S k) by lia.
      rewrite drop_app_le, <- fmap_drop by (rewrite length_fmap; lia).
      apply take_app_length'. rewrite length_fmap, length_drop. lia.
    - rewrite length_drop. lia. }
  do 2 step_object. apply returns_ret. split; [done|].
  exists (Ptr (Some b) 0), (drop (length l - 1) ((Some <$> l) ++ spare)).
  repeat split; simpl.
  - rewrite lookup_insert_eq. do 3 f_equal.
    rewrite length_app, length_take, length_drop. lia.
  - rewrite lookup_insert_eq. f_equal. rewrite Nat2Z.id.
    rewrite take_elements by lia. rewrite fmap_app, <- app_assoc.
    do 3 f_equal. lia.
  - rewrite length_app, length_take, !length_drop, length_app, length_fmap. lia.
Qed.

(** ** [insert] *)

Lemma bind_step {A B} (m : M T A) (f : A → M T B) s r s1 (out : outcome T B) :
  m s = Ok r s1 → f r s1 = out → bind m f s = out.
Proof. intros Hm <-. by apply bind_Ok. Qed.

Ltac run_with lem := eapply bind_step; [lem|cbv beta].

Ltac run_object :=
  first [ run_with ltac:(apply get_object_Ok; lookup_object)
        | run_with ltac:(apply size_Ok; lookup_object)
        | run_with ltac:(apply capacity_Ok; lookup_object)
        | run_with ltac:(apply begin_Ok; lookup_object)
        | run_with ltac:(apply end_Ok; lookup_object)
        | run_with ltac:(apply set_m_capacity_Ok; lookup_object)
        | run_with ltac:(apply set_m_size_Ok; lookup_object)
        | run_with ltac:(apply set_m_data_Ok; lookup_object)
        | run_with ltac:(apply new_array_Ok)
        | run_with ltac:(apply set_object_Ok) ];
  simpl objects; simpl arrays; simpl next_block;
  simpl m_size; simpl m_capacity; simpl m_data.

(** Before [begin()]: rejected, nothing changed. *)
Lemma insert_before_begin s x pb cap l spare (k : Z) v :
  owns_at s x (Ptr pb 0) cap l spare → (k < 0)%Z →
  insert T_default arg_order x (Ptr pb k) v s = Throw out_of_range s.
Proof.
  intros (Hobj & _) Hk. unfold insert. do 2 run_object.
  run_with ltac:(apply ptr_lt_Ok). by rewrite bool_decide_eq_true_2 by lia.
Qed.

(** Past [end()]: rejected, nothing changed. *)
Lemma insert_past_end s x pb cap l spare (k : Z) v :
  owns_at s x (Ptr pb 0) cap l spare → (Z.of_nat (length l) < k)%Z →
  insert T_default arg_order x (Ptr pb k) v s = Throw out_of_range s.
Proof.
  intros (Hobj & _) Hk. unfold insert. do 2 run_object.
  run_with ltac:(apply ptr_lt_Ok). rewrite bool_decide_eq_false_2 by lia.
  unfold ptr_gt, ptr_add; simpl.
  run_with ltac:(apply ptr_lt_Ok). by rewrite bool_decide_eq_true_2 by lia.
Qed.

(** Into a full container: the array is reallocated and [pos] reacquired,
    but [z], taken from [end()] on entry, still points into the array that
    was deleted, and [std::copy_backward] is handed a range from the new
    array to the old one. *)
Lemma insert_full s x pb cap l spare (k : nat) v :
  owns_at s x (Ptr pb 0) cap l spare → heap_ok s →
  k ≤ length l → length l = cap →
  insert T_default arg_order x (Ptr pb (Z.of_nat k)) v s = Undefined.
Proof.
  intros (Hobj & _ & Hcells & Hlen) Hok Hk Hfull.
  destruct s as [o arr nx]. simpl in *.
  pose proof (heap_ok_fresh _ _ _ _ _ Hok Hcells) as Hfresh.
  unfold insert. do 2 run_object.
  run_with ltac:(apply ptr_lt_Ok). rewrite bool_decide_eq_false_2 by lia.
  unfold ptr_gt, ptr_add; simpl.
  run_with ltac:(apply ptr_lt_Ok). rewrite bool_decide_eq_false_2 by lia.
  do 2 run_object. case_decide; [|done].
  eapply bind_step.
  { run_object. run_with ltac:(apply distance_Ok; lia).
    do 3 run_object. unfold ptr_add; simpl.
    run_with ltac:(apply (std_copy_prefix _ _ _ pb nx 0 (length l) l spare);
      [by rewrite cells_of_insert_ne|apply lookup_insert_eq|done|done|
       rewrite length_replicate; case_decide; lia]).
    run_object.
    run_with ltac:(eapply delete_array_owned; simpl;
      by rewrite cells_of_insert_ne, cells_of_insert_ne).
    do 3 run_object. reflexivity. }
  cbv beta. unfold ptr_add; simpl.
  apply bind_Undefined.
  destruct arg_order; unfold std_copy_backward; apply bind_Undefined;
    apply distance_other_block; simpl; congruence.
Qed.

Lemma take_drop_snoc {A} n i (src : list A) (c : A) (cs : list A) :
  length cs = n →
  take (S n) (drop i src) = cs ++ [c] →
  src !! (i + n) = Some c ∧ take n (drop i src) = cs.
Proof.
  intros Hlen Hsrc. split.
  - rewrite <- lookup_drop, <- (lookup_take_lt _ (S n)) by lia.
    rewrite Hsrc, lookup_app_r by lia. by rewrite Hlen, Nat.sub_diag.
  - replace (take n (drop i src)) with (take n (take (S n) (drop i src)))
      by (rewrite take_take; f_equal; lia).
    rewrite Hsrc. by apply take_app_length'.
Qed.

(** Copying [n] cells towards the end of their own array, last cell first. *)
Lemma copy_backward_loop_right n : ∀ o arr nx b (la dl : Z) cells vs,
  arr !! b = Some cells →
  (Z.of_nat n ≤ la ≤ dl)%Z →
  (dl ≤ Z.of_nat (length cells))%Z →
  take n (drop (Z.to_nat la - n) cells) = Some <$> vs →
  length vs = n →
  copy_backward_loop n (Ptr (Some b) la) (Ptr (Some b) dl) (State o arr nx) =
  Ok () (State o (<[b := take (Z.to_nat dl - n) cells ++ (Some <$> vs) ++
                         drop (Z.to_nat dl) cells]> arr) nx).
Proof.
  induction n as [|n IH]; intros o arr nx b la dl cells vs Hcells Hoff Hfit Hvs Hlen.
  - destruct vs; [|done]. simpl. unfold ret. do 2 f_equal.
    rewrite Nat.sub_0_r, take_drop. symmetry. by apply insert_id.
  - destruct (decide (vs = [])) as [->|Hne]; [done|].
    destruct (exists_last Hne) as (vs' & v & ->).
    rewrite length_app in Hlen. simpl in Hlen.
    rewrite fmap_app in Hvs. simpl in Hvs.
    apply take_drop_snoc in Hvs as [Hv Hvs]; [|rewrite length_fmap; lia].
    replace (Z.to_nat la - S n + n) with (Z.to_nat (la + -1)) in Hv by lia.
    simpl copy_backward_loop. unfold ptr_add; simpl.
    erewrite bind_Ok; [|by apply (load_Ok _ _ _ cells v); [|lia|]].
    erewrite bind_Ok; [|apply (store_Ok _ _ _ cells); [done|lia]].
    erewrite (IH _ _ _ _ _ _ (<[Z.to_nat (dl + -1) := Some v]> cells) vs').
    + do 2 f_equal. rewrite insert_insert_eq. f_equal.
      rewrite take_insert_ge by lia.
      rewrite (insert_take_drop cells) by lia.
      rewrite (drop_app_length' _ _ (Z.to_nat (dl + -1))) by (rewrite length_take; lia).
      rewrite fmap_app, <- app_assoc. simpl.
      replace (S (Z.to_nat (dl + -1))) with (Z.to_nat dl) by lia.
      by replace (Z.to_nat (dl + -1) - n) with (Z.to_nat dl - S n) by lia.
    + apply lookup_insert_eq.
    + lia.
    + rewrite length_insert. lia.
    + rewrite drop_insert_ge, take_insert_ge by lia.
      rewrite <- Hvs. by replace (Z.to_nat (la + -1) - n) with (Z.to_nat la - S n) by lia.
    + lia.
Qed.

Lemma insert_after_take k (cells : list (option T)) (c : option T) rest :
  k < length cells →
  <[k := c]> (take (S k) cells ++ rest) = take k cells ++ c :: rest.
Proof.
  intros Hk. destruct (lookup_lt_is_Some_2 cells k Hk) as [c' Hc'].
  rewrite (take_S_r _ _ _ Hc'), <- app_assoc. simpl.
  rewrite (insert_app_r_alt _ _ k) by (rewrite length_take; lia).
  rewrite length_take. by replace (k - k `min` length cells) with 0 by lia.
Qed.

(** Into a container with room left, when [z] is copied before [++z]: the
    elements from [pos] on move one slot towards the end. *)
Lemma insert_with_room s x pb cap l spare (k : nat) v :
  arg_order = left_to_right →
  owns_at s x (Ptr pb 0) cap l spare →
  k ≤ length l → length l < cap →
  returns (insert T_default arg_order x (Ptr pb (Z.of_nat k)) v)
    (λ r s', r = Ptr pb (Z.of_nat k) ∧ owns s' x cap (take k l ++ v :: drop k l)) s.
Proof.
  intros -> Hown Hk Hroom.
  destruct (owns_at_block _ _ _ _ _ _ _ Hown ltac:(lia)) as [b ->].
  destruct Hown as (Hobj & _ & Hcells & Hlen). destruct s as [o arr nx]. simpl in *.
  unfold insert. do 2 step_object.
  step_with ltac:(apply ptr_lt_Ok). rewrite bool_decide_eq_false_2 by lia.
  unfold ptr_gt, ptr_add; simpl.
  step_with ltac:(apply ptr_lt_Ok). rewrite bool_decide_eq_false_2 by lia.
  do 2 step_object. case_decide; [lia|].
  step_with ltac:(reflexivity).
  apply returns_bind. unfold std_copy_backward.
  step_with ltac:(apply distance_Ok; lia).
  eapply returns_eq.
  { apply (copy_backward_loop_right _ _ _ _ _ _ _ _ (drop k l) Hcells).
    - lia.
    - rewrite length_app, length_fmap. lia.
    - replace (Z.to_nat (0 + Z.of_nat (length l)) -
               Z.to_nat (0 + Z.of_nat (length l) - Z.of_nat k)) with k by lia.
      rewrite drop_app_le, <- fmap_drop by (rewrite length_fmap; lia).
      apply take_app_length'. rewrite length_fmap, length_drop. lia.
    - rewrite length_drop. lia. }
  step_with ltac:(eapply store_Ok; [apply lookup_insert_eq|];
    rewrite !length_app, length_take, length_fmap, !length_drop, length_app, length_fmap;
    lia).
  do 2 step_object. apply returns_ret. split; [done|].
  exists (Ptr (Some b) 0), (drop (S (length l)) ((Some <$> l) ++ spare)).
  repeat split; simpl.
  - rewrite lookup_insert_eq. do 3 f_equal.
    rewrite length_app, length_take. simpl. rewrite length_drop. lia.
  - rewrite insert_insert_eq, lookup_insert_eq. f_equal.
    replace (Z.to_nat (0 + Z.of_nat (length l) + 1) -
             Z.to_nat (0 + Z.of_nat (length l) - Z.of_nat k)) with (S k) by lia.
    rewrite Nat2Z.id.
    rewrite insert_after_take by (rewrite length_app, length_fmap; lia).
    rewrite take_elements by lia.
    rewrite fmap_app. simpl. rewrite <- app_assoc. simpl.
    repeat f_equal. lia.
  - rewrite length_app, length_take. simpl.
    rewrite !length_drop, length_app, length_fmap. lia.
Qed.

(** ** [resize] *)

Lemma resize_same s x a count :
  objects s !! x = Some a → count_of count = m_size a →
  resize T_default x count s = Ok () s.
Proof.
  intros Hobj Hcount. unfold resize.
  rewrite (bind_Ok _ _ _ _ _ (size_Ok _ _ _ Hobj)).
  by case_decide.
Qed.

(** A count that [new] refuses: the exception leaves [resize] before
    anything was changed. *)
Lemma resize_refused s x a count :
  objects s !! x = Some a → m_size a ≠ count →
  resize T_default x (refused count) s = Throw bad_alloc s.
Proof.
  intros Hobj Hcount. unfold resize.
  rewrite (bind_Ok _ _ _ _ _ (size_Ok _ _ _ Hobj)). simpl.
  by case_decide.
Qed.

Lemma resize_changes s x cap l count :
  owns s x cap l → heap_ok s → length l ≠ count →
  returns (resize T_default x (served count))
    (λ _ s', owns s' x count (take count l ++ replicate (count - length l) T_default)) s.
Proof.
  intros (p & spare & Hobj & Hoff & Hcells & Hlen) Hok Hcount.
  destruct s as [o arr nx], p as [pb po]. simpl in *. subst po.
  pose proof (heap_ok_fresh _ _ _ _ _ Hok Hcells) as Hfresh.
  unfold resize. cbn [count_of new_array_of]. step_object. case_decide; [|done].
  do 2 step_object. unfold ptr_add; simpl.
  set (k := if decide (count < length l) then count else length l).
  assert (k = count `min` length l) as Hk by (unfold k; case_decide; lia).
  replace (if decide (count < length l)
           then {| p_block := pb; p_off := 0 + Z.of_nat count |}
           else {| p_block := pb; p_off := 0 + Z.of_nat (length l) |})
    with (Ptr pb (0 + Z.of_nat k)) by (unfold k; by case_decide).
  step_with ltac:(apply (std_copy_prefix _ _ _ pb nx 0 k l spare);
    [by rewrite cells_of_insert_ne|apply lookup_insert_eq|done|lia|
     rewrite length_replicate; lia]).
  step_with ltac:(eapply delete_array_owned; simpl;
    by rewrite cells_of_insert_ne, cells_of_insert_ne).
  do 2 step_object. last_object.
  exists (Ptr (Some nx) 0), []. repeat split; simpl.
  - rewrite lookup_insert_eq. do 3 f_equal.
    rewrite length_app, length_take, length_replicate. lia.
  - rewrite lookup_without_ne, insert_insert_eq, lookup_insert_eq by done.
    f_equal. rewrite app_nil_r, drop_replicate, fmap_app, fmap_replicate.
    f_equal; [f_equal|f_equal; lia].
    rewrite Hk. destruct (decide (count ≤ length l)).
    + by rewrite Nat.min_l.
    + rewrite Nat.min_r by lia. by rewrite !take_ge by lia.
  - rewrite length_app, length_take, length_replicate. lia.
Qed.

(** ** What a member function leaves alone *)

Lemma frame_owns_at pb x s s' y q cap l spare :
  frame pb x s s' → heap_ok s → y ≠ x →
  owns_at s y q cap l spare →
  (∀ b, p_block q = Some b → pb ≠ Some b) →
  owns_at s' y q cap l spare.
Proof.
  intros (Hobjs & Harrs & _) Hok Hy (Hobj & Hoff & Hcells & Hlen) Hq.
  repeat split; [by rewrite Hobjs|done| |done].
  destruct (p_block q) as [b|] eqn:Hb; [|done]. simpl in *.
  rewrite Harrs; [done| |by apply Hq].
  apply (map_Forall_lookup_1 _ _ _ _ Hok Hcells).
Qed.

Lemma owns_at_block_lt s x q cap l spare b :
  heap_ok s → owns_at s x q cap l spare → p_block q = Some b → b < next_block s.
Proof.
  intros Hok (_ & _ & Hcells & _) Hb. rewrite Hb in Hcells. simpl in Hcells.
  apply (map_Forall_lookup_1 _ _ _ _ Hok Hcells).
Qed.

(** ** Constructors and destructor *)

Lemma ctor_count_returns s x count :
  returns (ctor_count T_default x (served count))
    (λ _ s', owns_at s' x (Ptr (Some (next_block s)) 0) count
               (replicate count T_default) [] ∧
             frame None x s s') s.
Proof.
  destruct s as [o arr nx]. unfold ctor_count. cbn [count_of new_array_of].
  step_object. last_object.
  split; [repeat split; simpl|split; [|split]; simpl].
  - by rewrite lookup_insert_eq, length_replicate.
  - by rewrite lookup_insert_eq, app_nil_r, fmap_replicate.
  - rewrite length_replicate. lia.
  - intros y Hy. by rewrite lookup_insert_ne.
  - intros b Hb _. rewrite lookup_insert_ne; [done|lia].
  - lia.
Qed.

Lemma ctor_copy_returns s this other q co lo so :
  owns_at s other q co lo so → heap_ok s → this ≠ other →
  returns (ctor_copy T_default this other)
    (λ _ s', owns_at s' this (Ptr (Some (next_block s)) 0) (length lo) lo [] ∧
             frame None this s s') s.
Proof.
  intros (Hobj & Hoff & Hcells & Hlen) Hok Hne.
  destruct s as [o arr nx], q as [qb qo]. simpl in *. subst qo.
  pose proof (heap_ok_fresh _ _ _ _ _ Hok Hcells) as Hfresh.
  unfold ctor_copy. step_object. apply returns_bind. unfold ctor_count.
  cbn [count_of new_array_of]. step_object. last_object.
  do 3 step_object. unfold ptr_add; simpl.
  eapply returns_eq.
  { apply (std_copy_prefix _ _ _ qb nx 0 (length lo) lo so);
      [by rewrite cells_of_insert_ne|apply lookup_insert_eq|done|done|
       by rewrite length_replicate]. }
  split; [repeat split; simpl|split; [|split]; simpl].
  - by rewrite lookup_insert_eq.
  - rewrite insert_insert_eq, lookup_insert_eq. f_equal.
    rewrite take_ge, drop_ge by (rewrite ?length_replicate; lia).
    by rewrite !app_nil_r.
  - lia.
  - intros y Hy. by rewrite lookup_insert_ne.
  - intros b Hb _. rewrite insert_insert_eq, lookup_insert_ne; [done|lia].
  - lia.
Qed.

Lemma copy_from_list_returns source : ∀ o arr nx b (i : nat) cells,
  arr !! b = Some cells →
  i + length source ≤ length cells →
  copy_from_list source (Ptr (Some b) (Z.of_nat i)) (State o arr nx) =
  Ok () (State o (<[b := take i cells ++ (Some <$> source) ++
                         drop (i + length source) cells]> arr) nx).
Proof.
  induction source as [|v source IH]; intros o arr nx b i cells Hcells Hfit; simpl.
  - unfold ret. do 2 f_equal. rewrite Nat.add_0_r, take_drop. symmetry.
    by apply insert_id.
  - simpl in Hfit. erewrite bind_Ok; [|apply (store_Ok _ _ _ cells); [done|lia]].
    unfold ptr_add; simpl.
    replace (Z.of_nat i + 1)%Z with (Z.of_nat (S i)) by lia.
    erewrite (IH _ _ _ _ _ (<[Z.to_nat (Z.of_nat i) := Some v]> cells));
      [|apply lookup_insert_eq|rewrite length_insert; lia].
    do 2 f_equal. rewrite insert_insert_eq, Nat2Z.id. f_equal.
    rewrite (take_S_r _ _ (Some v)) by (apply list_lookup_insert_eq; lia).
    rewrite take_insert_ge, drop_insert_lt by lia.
    rewrite <- app_assoc. simpl.
    by replace (S (i + length source)) with (i + S (length source)) by lia.
Qed.

Lemma ctor_init_returns s x source :
  returns (ctor_init T_default x source)
    (λ _ s', owns_at s' x (Ptr (Some (next_block s)) 0) (length source) source [] ∧
             frame None x s s') s.
Proof.
  destruct s as [o arr nx]. unfold ctor_init, ctor_count.
  cbn [count_of new_array_of].
  apply returns_bind. step_object. last_object. step_object.
  eapply returns_eq.
  { apply (copy_from_list_returns _ _ _ _ _ 0); [apply lookup_insert_eq|].
    by rewrite length_replicate. }
  split; [repeat split; simpl|split; [|split]; simpl].
  - by rewrite lookup_insert_eq.
  - rewrite insert_insert_eq, lookup_insert_eq. f_equal.
    rewrite drop_ge by (rewrite length_replicate; lia). by rewrite !app_nil_r.
  - lia.
  - intros y Hy. by rewrite lookup_insert_ne.
  - intros b Hb _. rewrite insert_insert_eq, lookup_insert_ne; [done|lia].
  - lia.
Qed.

Lemma ctor_move_Ok s this other a :
  objects s !! other = Some a → this ≠ other →
  ctor_move this other s =
  Ok () (State (<[this := a]> (<[other := MkArrayList 0 0 nullptr]> (objects s)))
               (arrays s) (next_block s)).
Proof.
  intros Hobj Hne. destruct s as [o arr nx], a as [c n p]. simpl in *.
  unfold ctor_move. do 6 run_object.
  unfold set_object. simpl. by rewrite !insert_insert_eq.
Qed.

Lemma dtor_returns s x pb cap l spare :
  owns_at s x (Ptr pb 0) cap l spare →
  returns (dtor x) (λ _ s', objects s' !! x = None ∧ frame pb x s s') s.
Proof.
  intros (Hobj & _ & Hcells & _). destruct s as [o arr nx]. simpl in *.
  unfold dtor. step_object.
  step_with ltac:(by eapply delete_array_owned). simpl.
  eapply returns_eq; [reflexivity|]. split; [|split; [|split]]; simpl.
  - apply lookup_delete_eq.
  - intros y Hy. by rewrite lookup_delete_ne.
  - intros b _ Hb. by rewrite lookup_without_ne.
  - done.
Qed.

(** ** [operator+=] *)

Lemma cells_of_without_ne o arr nx pb qb :
  (∀ b, pb = Some b → qb ≠ Some b) →
  cells_of (State o (without pb arr) nx) qb = cells_of (State o arr nx) qb.
Proof.
  intros Hne. destruct qb as [b|]; [|done]. simpl.
  apply lookup_without_ne. intros ->. by eapply Hne.
Qed.

Lemma append_returns s this other pb cap l spare q co lo so :
  owns_at s this (Ptr pb 0) cap l spare →
  owns_at s other q co lo so →
  heap_ok s → this ≠ other →
  (∀ b, pb = Some b → p_block q ≠ Some b) →
  returns (append this other)
    (λ _ s', ∃ pb' cap' spare',
       owns_at s' this (Ptr pb' 0) cap' (l ++ lo) spare' ∧
       (pb' = pb ∨ pb' = Some (next_block s)) ∧
       frame pb this s s') s.
Proof.
  intros (Hobj & _ & Hcells & Hlen) (Hobj' & Hoff' & Hcells' & Hlen') Hok Hne Hblocks.
  destruct s as [o arr nx], q as [qb qo]. simpl in *. subst qo.
  pose proof (heap_ok_fresh _ _ _ _ _ Hok Hcells) as Hfresh.
  pose proof (heap_ok_fresh _ _ _ _ _ Hok Hcells') as Hfresh'.
  unfold append. do 3 step_object.
  case_decide as Hgrow.
  - apply returns_bind. do 3 step_object. unfold ptr_add; simpl.
    step_with ltac:(apply (std_copy_prefix _ _ _ pb nx 0 (length l) l spare);
      [by rewrite cells_of_insert_ne|apply lookup_insert_eq|done|done|
       rewrite length_replicate; lia]).
    step_object.
    step_with ltac:(eapply delete_array_owned; simpl;
      by rewrite cells_of_insert_ne, cells_of_insert_ne).
    step_object. last_object.
    do 4 step_object. unfold ptr_add; simpl.
    step_with ltac:(apply (std_copy_prefix _ _ _ qb nx (length l) (length lo) lo so);
      [by rewrite cells_of_without_ne, !cells_of_insert_ne
      |rewrite lookup_without_ne by done; apply lookup_insert_eq
      |done|done
      |rewrite !length_app, length_fmap, length_take, length_drop, length_replicate;
       lia]).
    do 2 step_object. last_object.
    exists (Some nx), (length l + length lo), [].
    split; [|split; [by right|split; [|split; [|simpl; lia]]]]; simpl.
    + repeat split; simpl.
      * rewrite lookup_insert_eq. by rewrite length_app.
      * rewrite lookup_insert_eq. f_equal.
        rewrite (take_ge l), (take_ge lo) by lia. rewrite drop_replicate.
        rewrite take_app_length' by (by rewrite length_fmap).
        rewrite drop_ge
          by (rewrite !length_app, !length_fmap, length_replicate; lia).
        by rewrite !app_nil_r, fmap_app.
      * rewrite length_app. lia.
    + intros y Hy. by rewrite !lookup_insert_ne by done.
    + intros b Hb Hpb.
      rewrite lookup_insert_ne, lookup_without_ne, !lookup_insert_ne by (done || lia).
      done.
  - apply returns_bind, returns_ret. do 4 step_object. unfold ptr_add; simpl.
    destruct pb as [b|].
    + simpl in Hcells.
      step_with ltac:(apply (std_copy_prefix _ _ _ qb b (length l) (length lo) lo so);
        [done|done|intros ->; by eapply Hblocks|done
        |rewrite length_app, length_fmap; lia]).
      do 2 step_object. last_object.
      exists (Some b), cap, (drop (length lo) spare).
      split; [|split; [by left|split; [|split; [|done]]]]; simpl.
      * repeat split; simpl.
        -- rewrite lookup_insert_eq. by rewrite length_app.
        -- rewrite lookup_insert_eq. f_equal.
           rewrite (take_ge lo) by done.
           rewrite take_app_length' by (by rewrite length_fmap).
           rewrite drop_app_ge by (rewrite length_fmap; lia).
           rewrite length_fmap, fmap_app, <- app_assoc.
           by replace (length l + length lo - length l) with (length lo) by lia.
        -- rewrite length_app, length_drop. lia.
      * intros y Hy. by rewrite !lookup_insert_ne by done.
      * intros b' _ Hb'. rewrite lookup_insert_ne; [done|congruence].
    + simpl in Hcells. injection Hcells as Hnil. symmetry in Hnil.
      apply app_eq_nil in Hnil as [Hl ->]. apply fmap_nil_inv in Hl as ->.
      simpl in *. destruct lo; [|simpl in *; lia]. simpl.
      step_with ltac:(unfold std_copy;
        erewrite bind_Ok; [|apply distance_Ok; lia]; reflexivity).
      do 2 step_object. last_object.
      exists None, cap, []. split; [|split; [by left|split; [|split; [|done]]]]; simpl.
      * repeat split; simpl; [|done]. by rewrite lookup_insert_eq, <- Hlen.
      * intros y Hy. by rewrite !lookup_insert_ne by done.
      * done.
Qed.

(** ** [operator==] *)

Lemma equal_loop_Ok l1 : ∀ l2 s b1 b2 (i j : nat) c1 c2,
  cells_of s b1 = Some c1 → cells_of s b2 = Some c2 →
  take (length l1) (drop i c1) = Some <$> l1 →
  take (length l2) (drop j c2) = Some <$> l2 →
  equal_loop (length l1) (length l2) (Ptr b1 (Z.of_nat i)) (Ptr b2 (Z.of_nat j)) s =
  Ok (bool_decide (l1 = l2)) s.
Proof.
  induction l1 as [|v1 l1 IH]; intros [|v2 l2] s b1 b2 i j c1 c2 Hc1 Hc2 H1 H2;
    simpl; try done.
  apply take_drop_cons in H1 as [Hv1 H1]. apply take_drop_cons in H2 as [Hv2 H2].
  erewrite bind_Ok; [|apply (load_Ok _ _ _ c1 v1); [done|lia|by rewrite Nat2Z.id]].
  erewrite bind_Ok; [|apply (load_Ok _ _ _ c2 v2); [done|lia|by rewrite Nat2Z.id]].
  unfold ptr_add; simpl.
  replace (Z.of_nat i + 1)%Z with (Z.of_nat (S i)) by lia.
  replace (Z.of_nat j + 1)%Z with (Z.of_nat (S j)) by lia.
  case_decide as Hv.
  - subst v2. rewrite (IH l2 s b1 b2 (S i) (S j) c1 c2) by done.
    f_equal. apply bool_decide_ext. split; [by intros ->|by intros [=]].
  - unfold ret. f_equal. symmetry. apply bool_decide_eq_false_2. by intros [=].
Qed.

Lemma equal_owns s x y cx cy lx ly :
  owns s x cx lx → owns s y cy ly → equal x y s = Ok (bool_decide (lx = ly)) s.
Proof.
  intros ([pb po] & sx & Hobjx & Hoffx & Hcx & Hlx) ([qb qo] & sy & Hobjy & Hoffy & Hcy & Hly).
  simpl in *. subst po qo. unfold equal.
  do 4 run_object. unfold ptr_add; simpl. unfold std_equal.
  run_with ltac:(apply distance_Ok; lia). run_with ltac:(apply distance_Ok; lia).
  replace (Z.to_nat (0 + Z.of_nat (length lx) - 0)) with (length lx) by lia.
  replace (Z.to_nat (0 + Z.of_nat (length ly) - 0)) with (length ly) by lia.
  apply (equal_loop_Ok _ _ _ _ _ 0 0 _ _ Hcx Hcy); simpl; by apply take_app_length'; rewrite length_fmap.
Qed.

(** ** [operator+] *)

Lemma returns_seq {A B} (m : M T A) (f : A → M T B) R Q s :
  returns m R s → (∀ r s', R r s' → returns (f r) Q s') → returns (bind m f) Q s.
Proof.
  intros Hm Hf. apply returns_bind. unfold returns in *.
  destruct (m s); [|done..]. by apply Hf.
Qed.

Lemma plus_returns s result tmp lhs rhs pa ca la sa pb cb lb sb :
  owns_at s lhs pa ca la sa → owns_at s rhs pb cb lb sb → heap_ok s →
  tmp ≠ lhs → tmp ≠ rhs → result ≠ lhs → result ≠ rhs → result ≠ tmp →
  returns (plus T_default result tmp lhs rhs)
    (λ _ s', owns s' result (length la + length lb) (la ++ lb) ∧
             owns_at s' lhs pa ca la sa ∧ owns_at s' rhs pb cb lb sb) s.
Proof.
  intros Hlhs Hrhs Hok Htl Htr Hrl Hrr Hrt. unfold plus.
  eapply returns_seq.
  { eapply returns_keeps_heap; [apply keeps_heap_ctor_copy|done|].
    by eapply ctor_copy_returns. }
  intros _ s1 [[Htmp1 Hfr1] Hok1]. simpl.
  assert (owns_at s1 lhs pa ca la sa) as Hlhs1
    by (eapply frame_owns_at; eauto).
  assert (owns_at s1 rhs pb cb lb sb) as Hrhs1
    by (eapply frame_owns_at; eauto).
  assert (∀ y q c l sp b, owns_at s y q c l sp → p_block q = Some b → b < next_block s)
    as Hold by (intros; by eapply owns_at_block_lt).
  eapply returns_seq.
  { eapply returns_keeps_heap; [apply keeps_heap_append|done|].
    eapply (append_returns s1 tmp rhs); [exact Htmp1|exact Hrhs1|done|done|].
    intros b [= <-] Hb. specialize (Hold _ _ _ _ _ _ Hrhs Hb). lia. }
  intros _ s2 [(pb' & cap' & spare' & Htmp2 & Hpb' & Hfr2) Hok2]. simpl.
  assert (∃ b', pb' = Some b' ∧ next_block s ≤ b') as (b' & -> & Hb').
  { destruct Hpb' as [->| ->]; eexists; (split; [done|]); [done|].
    by destruct Hfr1 as (_ & _ & ?). }
  assert (∀ y q c l sp, y ≠ tmp → owns_at s y q c l sp → owns_at s1 y q c l sp →
            owns_at s2 y q c l sp) as Hkeep2.
  { intros y q c l sp Hy Hown Hown1. eapply frame_owns_at; eauto.
    intros b Hb [= <-]. specialize (Hold _ _ _ _ _ _ Hown Hb). lia. }
  pose proof (Hkeep2 _ _ _ _ _ (not_eq_sym Htl) Hlhs Hlhs1) as Hlhs2.
  pose proof (Hkeep2 _ _ _ _ _ (not_eq_sym Htr) Hrhs Hrhs1) as Hrhs2.
  eapply returns_seq.
  { eapply returns_keeps_heap; [apply keeps_heap_ctor_copy|done|].
    by eapply ctor_copy_returns. }
  intros _ s3 [[Hres3 Hfr3] Hok3]. simpl.
  assert (∀ y q c l sp, y ≠ result → owns_at s2 y q c l sp → owns_at s3 y q c l sp)
    as Hkeep3 by (intros; eapply frame_owns_at; eauto).
  pose proof (Hkeep3 _ _ _ _ _ (not_eq_sym Hrl) Hlhs2) as Hlhs3.
  pose proof (Hkeep3 _ _ _ _ _ (not_eq_sym Hrr) Hrhs2) as Hrhs3.
  pose proof (Hkeep3 _ _ _ _ _ (not_eq_sym Hrt) Htmp2) as Htmp3.
  pose proof (dtor_returns _ _ _ _ _ _ Htmp3) as Hdtor.
  unfold returns in *. destruct (dtor tmp s3) as [[] s4| |]; [|done..].
  destruct Hdtor as [_ Hfr4].
  split; [|split].
  - rewrite <- length_app. eexists _, _. eapply frame_owns_at; eauto.
    simpl. intros b [= <-] [= Hb2].
    pose proof (owns_at_block_lt _ _ _ _ _ _ _ Hok2 Htmp2 eq_refl). lia.
  - eapply frame_owns_at; eauto.
    intros b Hb [= <-]. specialize (Hold _ _ _ _ _ _ Hlhs Hb). lia.
  - eapply frame_owns_at; eauto.
    intros b Hb [= <-]. specialize (Hold _ _ _ _ _ _ Hrhs Hb). lia.
Qed.

(** ** [size() <= capacity()] *)

Lemma owp_bind {A B} (m : M T A) (f : A → M T B) Q E o :
  owp m (λ r o', owp (f r) Q E o') E o → owp (bind m f) Q E o.
Proof.
  intros Hm s Hs. apply wp_bind. eapply wp_mono; [by apply Hm|..]; simpl; [|done].
  intros r s' Hf. by apply Hf.
Qed.

Lemma owp_ret {A} (r : A) (Q : A → gmap nat ArrayList → Prop) E o :
  Q r o → owp (ret r) Q E o.
Proof. intros HQ s <-. by apply wp_ret. Qed.

Lemma owp_throw {A} e (Q : A → gmap nat ArrayList → Prop) E o :
  E o → owp (throw e) Q E o.
Proof. intros HE s <-. by apply wp_throw. Qed.

Lemma owp_undefined {A} (Q : A → gmap nat ArrayList → Prop) E o :
  owp undefined Q E o.
Proof. intros s _. apply wp_undefined. Qed.

Lemma owp_get_object x (Q : ArrayList → gmap nat ArrayList → Prop) E o :
  (∀ a, o !! x = Some a → Q a o) → owp (get_object x) Q E o.
Proof. intros HQ s <-. apply wp_get_object. auto. Qed.

Lemma owp_set_object x a (Q : unit → gmap nat ArrayList → Prop) E o :
  Q () (<[x := a]> o) → owp (set_object x a) Q E o.
Proof. intros HQ s <-. by apply wp_set_object. Qed.

Lemma owp_remove_object x (Q : unit → gmap nat ArrayList → Prop) E o :
  Q () (delete x o) → owp (remove_object x) Q E o.
Proof. intros HQ s <-. by apply wp_remove_object. Qed.

Lemma owp_heap_op {A} (m : M T A) (Q : A → gmap nat ArrayList → Prop) E o :
  heap_op m → (∀ r, Q r o) → E o → owp m Q E o.
Proof.
  intros Hm HQ HE s <-. apply wp_heap_op; [done|..].
  - intros r s' -> _. apply HQ.
  - by intros s' -> _.
Qed.

Lemma owp_mono {A} (m : M T A) (Q Q' : A → gmap nat ArrayList → Prop) E o :
  owp m Q E o → (∀ r o', Q r o' → Q' r o') → owp m Q' E o.
Proof. intros Hm HQ s Hs. eapply wp_mono; [by apply Hm|..]; simpl; auto. Qed.

Ltac solve_heap_op :=
  first [ apply heap_op_load | apply heap_op_store | apply heap_op_new_array
            | apply heap_op_new_array_of
        | apply heap_op_delete_array | apply heap_op_distance
        | apply heap_op_ptr_lt | apply heap_op_std_copy
        | apply heap_op_std_copy_backward | apply heap_op_std_equal
        | apply heap_op_copy_from_list ].

Ltac owp_step :=
  lazymatch goal with
  | |- owp (bind _ _) _ _ _ => apply owp_bind
  | |- owp (ret _) _ _ _ => apply owp_ret
  | |- owp (throw _) _ _ _ => apply owp_throw
  | |- owp undefined _ _ _ => apply owp_undefined
  | |- owp (get_object _) _ _ _ => apply owp_get_object; intros ? ?
  | |- owp (set_object _ _) _ _ _ => apply owp_set_object
  | |- owp (remove_object _) _ _ _ => apply owp_remove_object
  | |- owp (if decide _ then _ else _) _ _ _ => case_decide
  | |- owp (if ?b then _ else _) _ _ _ => destruct b
  | |- owp (match ?b with left_to_right => _ | right_to_left => _ end) _ _ _ =>
      destruct b
  | |- owp _ _ _ _ => apply owp_heap_op; [solve_heap_op|intros ?|]
  end.

Ltac owp_members :=
  unfold size, capacity, begin, end_, set_m_capacity, set_m_size, set_m_data.

Ltac sizes_facts Hinv :=
  repeat match goal with
  | H : ?o !! ?x = Some ?a |- _ =>
      lazymatch goal with
      | _ : m_size a ≤ m_capacity a |- _ => fail
      | _ => first [ pose proof (map_Forall_lookup_1 _ _ _ _ Hinv H : m_size a ≤ m_capacity a)
                   | fail 2 ]
      end
  end.

Ltac split_lookup :=
  repeat match goal with
  | H : <[?x := _]> _ !! ?k = Some _ |- _ =>
      destruct (decide (x = k)) as [->|?];
      [rewrite lookup_insert_eq in H|rewrite lookup_insert_ne in H by done]
  | H : delete ?x _ !! ?k = Some _ |- _ =>
      apply lookup_delete_Some in H as [? H]
  | H : Some _ = Some _ |- _ => injection H as <-
  end.

Ltac sizes_done Hinv :=
  simplify_map_eq; simpl in *;
  try (apply map_Forall_lookup; intros ? ? ?);
  split_lookup; sizes_facts Hinv; simpl in *;
  try done; repeat case_decide; try lia.

Lemma keeps_sizes_push_back x v : keeps_sizes (push_back T_default x v).
Proof.
  intros o Hinv. unfold push_back. owp_members.
  repeat owp_step; sizes_done Hinv.

Qed.

Lemma keeps_sizes_ctor_count x n : keeps_sizes (ctor_count T_default x n).
Proof.
  intros o Hinv. unfold ctor_count. owp_members.
  repeat owp_step; sizes_done Hinv.
Qed.

Lemma keeps_sizes_ctor_init x source : keeps_sizes (ctor_init T_default x source).
Proof.
  intros o Hinv. unfold ctor_init, ctor_count. owp_members.
  repeat owp_step; sizes_done Hinv.
Qed.

Lemma keeps_sizes_ctor_copy x y : keeps_sizes (ctor_copy T_default x y).
Proof.
  intros o Hinv. unfold ctor_copy, ctor_count. owp_members.
  destruct (decide (x = y)) as [->|Hne]; repeat owp_step; sizes_done Hinv.
Qed.

Lemma keeps_sizes_ctor_move x y : keeps_sizes (ctor_move x y).
Proof.
  intros o Hinv. unfold ctor_move. owp_members.
  destruct (decide (x = y)) as [->|Hne]; repeat owp_step; sizes_done Hinv.
Qed.

Lemma keeps_sizes_dtor x : keeps_sizes (dtor x).
Proof.
  intros o Hinv. unfold dtor. owp_members.
  repeat owp_step; sizes_done Hinv.
Qed.

Lemma keeps_sizes_clear x : keeps_sizes (clear x).
Proof.
  intros o Hinv. unfold clear. owp_members.
  repeat owp_step; sizes_done Hinv.
Qed.

Lemma keeps_sizes_resize x n : keeps_sizes (resize T_default x n).
Proof.
  intros o Hinv. unfold resize. owp_members.
  repeat owp_step; sizes_done Hinv.
Qed.

Lemma keeps_sizes_swap x y : keeps_sizes (swap x y).
Proof.
  intros o Hinv. unfold swap. owp_members.
  destruct (decide (x = y)) as [->|Hne]; repeat owp_step; sizes_done Hinv.
Qed.

Lemma keeps_sizes_copy_assign x y : keeps_sizes (copy_assign T_default x y).
Proof.
  intros o Hinv. unfold copy_assign. owp_members.
  repeat owp_step; sizes_done Hinv.
Qed.

Lemma keeps_sizes_move_assign x y : keeps_sizes (move_assign x y).
Proof.
  intros o Hinv. unfold move_assign. owp_members.
  repeat owp_step; sizes_done Hinv.
Qed.

Lemma keeps_sizes_append x y : keeps_sizes (append x y).
Proof.
  intros o Hinv. unfold append. owp_members.
  destruct (decide (x = y)) as [->|Hne]; repeat owp_step; sizes_done Hinv.
Qed.


Lemma keeps_sizes_insert x p v : keeps_sizes (insert T_default arg_order x p v).
Proof.
  intros o Hinv. unfold insert. owp_members.
  repeat owp_step; sizes_done Hinv.
Qed.

Lemma keeps_sizes_erase x p : keeps_sizes (erase x p).
Proof.
  intros o Hinv. unfold erase. owp_members.
  repeat owp_step; sizes_done Hinv.
Qed.

Lemma keeps_sizes_bind {A B} (m : M T A) (f : A → M T B) :
  keeps_sizes m → (∀ r, keeps_sizes (f r)) → keeps_sizes (bind m f).
Proof.
  intros Hm Hf o Hinv. apply owp_bind. eapply owp_mono; [by apply Hm|].
  simpl. intros r o' Hinv'. by apply Hf.
Qed.

Lemma keeps_sizes_ret {A} (r : A) : keeps_sizes (ret r).
Proof. intros o Hinv. by apply owp_ret. Qed.

Lemma keeps_sizes_plus r t x y : keeps_sizes (plus T_default r t x y).
Proof.
  unfold plus.
  repeat (apply keeps_sizes_bind; [|intros _]);
    auto using keeps_sizes_ctor_copy, keeps_sizes_append, keeps_sizes_dtor.
Qed.

Lemma keeps_sizes_exec c : keeps_sizes (exec T_default arg_order c).
Proof.
  destruct c; simpl;
    try (apply keeps_sizes_bind; [|intros _; apply keeps_sizes_ret]);
    auto using keeps_sizes_ctor_count, keeps_sizes_ctor_init, keeps_sizes_ctor_copy,
      keeps_sizes_ctor_move, keeps_sizes_dtor, keeps_sizes_push_back,
      keeps_sizes_insert, keeps_sizes_erase, keeps_sizes_resize, keeps_sizes_clear,
      keeps_sizes_swap, keeps_sizes_copy_assign, keeps_sizes_move_assign,
      keeps_sizes_append, keeps_sizes_plus.
Qed.

(** [--m_size] in [erase] is only reached with [m_size > 0]: the unsigned
    decrement does not wrap. *)
Lemma erase_returns_positive_size s x pos r s' :
  erase x pos s = Ok r s' → ∃ a, objects s !! x = Some a ∧ 0 < m_size a.
Proof.
  intros Herase. unfold erase in Herase.
  unfold bind at 1, get_object in Herase.
  destruct (objects s !! x) as [a|] eqn:Hobj; [|done].
  exists a. split; [done|].
  unfold bind at 1, ptr_lt in Herase. case_decide as Hblock; [|done].
  unfold ret in Herase.
  destruct (bool_decide (p_off pos < p_off (m_data a))%Z || ptr_eqb pos (m_data a))
    eqn:Hlow; [done|].
  apply orb_false_elim in Hlow as [Hlt Heq].
  apply bool_decide_eq_false_1 in Hlt. apply bool_decide_eq_false_1 in Heq.
  unfold bind at 1, ptr_gt, ptr_lt in Herase. case_decide; [|done].
  unfold ret in Herase.
  destruct (bool_decide _) eqn:Hhigh in Herase; [done|].
  rewrite (bind_Ok _ _ _ _ _ (end_Ok _ _ _ Hobj)) in Herase.
  unfold bind at 1, std_copy in Herase. unfold bind at 1, distance in Herase.
  case_decide as Hrange; [|done]. destruct Hrange as [_ Hrange]. simpl in Hrange.
  assert (p_off pos ≠ p_off (m_data a)) as Hoff.
  { intros Hoff. apply Heq. destruct pos, (m_data a). simpl in *. congruence. }
  lia.
Qed.

(** * The claims *)

(** C2. Starting from an empty container, after one [push_back] per value
    of [vs]: [size()] is the number of values, [capacity() >= size()], and
    [operator[]] reads the values back in the order they were appended. *)
Theorem push_back_sequence s x cap vs :
  owns s x cap [] → heap_ok s →
  ∃ s', push_back_all T_default x vs s = Ok () s' ∧
        size x s' = Ok (length vs) s' ∧
        (∃ c, capacity x s' = Ok c s' ∧ length vs ≤ c) ∧
        (∀ i v, vs !! i = Some v → index x i s' = Ok v s').
Proof.
  intros Hown Hok.
  destruct (returns_elim _ _ _ (push_back_all_returns vs _ _ _ _ Hown Hok))
    as ([] & s' & Hrun & [cap' Hown'] & _).
  simpl in Hown'. exists s'. split; [done|]. split; [|split].
  - by eapply owns_size.
  - exists cap'. split; [by eapply owns_capacity|by eapply owns_size_le_capacity].
  - intros i v Hv. by eapply owns_index.
Qed.

(** C4. [at(pos)] throws [out_of_range] exactly when [pos >= size()], the
    empty container and [pos == size()] included; below [size()] it returns
    the element at index [pos]. *)
Theorem at_range_check s x cap l pos :
  owns s x cap l →
  size x s = Ok (length l) s ∧
  (at_ x pos s = Throw out_of_range s ↔ length l ≤ pos) ∧
  (pos < length l →
   ∃ v, l !! pos = Some v ∧ at_ x pos s = Ok v s ∧ index x pos s = Ok v s).
Proof.
  intros Hown. split; [by eapply owns_size|].
  assert (pos < length l →
          ∃ v, l !! pos = Some v ∧ at_ x pos s = Ok v s ∧ index x pos s = Ok v s)
    as Hin.
  { intros Hpos. destruct (lookup_lt_is_Some_2 l pos Hpos) as [v Hv].
    exists v. split; [done|]. split; [by eapply owns_at_in_range|by eapply owns_index]. }
  split; [split|done].
  - intros Hthrow. destruct (decide (length l ≤ pos)); [done|].
    destruct Hin as (v & _ & Hat & _); [lia|]. congruence.
  - intros Hpos. destruct Hown as (p & spare & Hobj & _).
    by apply (at_out_of_range _ _ _ _ Hobj).
Qed.

(** C6. [resize(count)] with [count != size()] and a [count] that [new]
    serves makes [capacity()] and [size()] both [count], keeps the first
    [min(count, old size)] elements and value-initialises the slots from the
    old size up to [count]; with a [count] that [new] refuses, the exception
    of [new] leaves [resize] and the container is as it was.
    [resize(size())] changes nothing: no array is asked for. *)
Theorem resize_exact_fit s x cap l count :
  owns s x cap l → heap_ok s →
  (count ≠ length l →
   (∃ s', resize T_default x (served count) s = Ok () s' ∧
          capacity x s' = Ok count s' ∧
          size x s' = Ok count s' ∧
          (∀ i v, i < count → l !! i = Some v → index x i s' = Ok v s') ∧
          (∀ i, length l ≤ i < count → index x i s' = Ok T_default s')) ∧
   resize T_default x (refused count) s = Throw bad_alloc s) ∧
  (count = length l →
   resize T_default x (served count) s = Ok () s ∧
   resize T_default x (refused count) s = Ok () s).
Proof.
  intros Hown Hok. split.
  - intros Hcount. split;
      [|destruct Hown as (p & spare & Hobj & _);
        apply (resize_refused _ _ _ _ Hobj); simpl; lia].
    destruct (returns_elim _ _ _ (resize_changes _ _ _ _ count Hown Hok ltac:(done)))
      as ([] & s' & Hrun & Hown').
    exists s'. split; [done|].
    assert (length (take count l ++ replicate (count - length l) T_default) = count)
      as Hlen by (rewrite length_app, length_take, length_replicate; lia).
    split; [by eapply owns_capacity|]. split; [|split].
    + rewrite <- Hlen at 1. by eapply owns_size.
    + intros i v Hi Hv. eapply owns_index; [done|].
      rewrite lookup_app_l by (rewrite length_take; apply lookup_lt_Some in Hv; lia).
      by rewrite lookup_take_lt.
    + intros i Hi. eapply owns_index; [done|].
      rewrite lookup_app_r by (rewrite length_take; lia).
      apply lookup_replicate_2. rewrite length_take. lia.
  - intros ->. destruct Hown as (p & spare & Hobj & _).
    split; by apply (resize_same _ _ _ _ Hobj).
Qed.

(** C7. [a + b] has [a.size() + b.size()] elements, those of [a] in order
    followed by those of [b] in order, also when [a] or [b] is empty, and
    [a] and [b] are left as they were. *)
Theorem plus_concatenates s result tmp lhs rhs ca la cb lb :
  owns s lhs ca la → owns s rhs cb lb → heap_ok s →
  tmp ≠ lhs → tmp ≠ rhs → result ≠ lhs → result ≠ rhs → result ≠ tmp →
  ∃ s', plus T_default result tmp lhs rhs s = Ok () s' ∧
        size lhs s = Ok (length la) s ∧
        size rhs s = Ok (length lb) s ∧
        size result s' = Ok (length la + length lb) s' ∧
        (∀ i v, (la ++ lb) !! i = Some v → index result i s' = Ok v s') ∧
        objects s' !! lhs = objects s !! lhs ∧ owns s' lhs ca la ∧
        objects s' !! rhs = objects s !! rhs ∧ owns s' rhs cb lb.
Proof.
  intros (pa & sa & Hlhs) (pb & sb & Hrhs) Hok Htl Htr Hrl Hrr Hrt.
  destruct (returns_elim _ _ _
    (plus_returns _ result tmp _ _ _ _ _ _ _ _ _ _ Hlhs Hrhs Hok Htl Htr Hrl Hrr Hrt))
    as ([] & s' & Hrun & Hres & Hlhs' & Hrhs').
  exists s'. split; [done|].
  split; [eapply owns_size; by eexists _, _|].
  split; [eapply owns_size; by eexists _, _|].
  split; [rewrite <- length_app; by eapply owns_size|].
  split; [intros i v Hv; by eapply owns_index|].
  split; [by rewrite (proj1 Hlhs), (proj1 Hlhs')|]. split; [by eexists _, _|].
  split; [by rewrite (proj1 Hrhs), (proj1 Hrhs')|]. by eexists _, _.
Qed.

(** C8. A container copy-constructed from [x] compares equal to [x]: same
    size, same elements.  Move construction from [x] leaves [x] with
    [size() == 0] and [capacity() == 0] and gives the new container what
    [x] held. *)
Theorem copy_equals_and_move_empties s x y cap l :
  owns s x cap l → heap_ok s → y ≠ x →
  (∃ s', ctor_copy T_default y x s = Ok () s' ∧
         equal y x s' = Ok true s' ∧
         size y s' = Ok (length l) s' ∧ size x s' = Ok (length l) s' ∧
         (∀ i v, l !! i = Some v →
                 index y i s' = Ok v s' ∧ index x i s' = Ok v s')) ∧
  (∃ s', ctor_move y x s = Ok () s' ∧
         size x s' = Ok 0 s' ∧ capacity x s' = Ok 0 s' ∧
         size y s' = Ok (length l) s' ∧
         (∀ i v, l !! i = Some v → index y i s' = Ok v s')).
Proof.
  intros (p & spare & Hown) Hok Hne. split.
  - destruct (returns_elim _ _ _ (ctor_copy_returns _ y _ _ _ _ _ Hown Hok Hne))
      as ([] & s' & Hrun & Hy & Hfr).
    assert (owns s' y (length l) l) as Hy' by (by eexists _, _).
    assert (owns s' x cap l) as Hx'.
    { eexists _, _. eapply frame_owns_at; eauto. }
    exists s'. split; [done|]. split; [|split; [|split]].
    + rewrite (equal_owns _ _ _ _ _ _ _ Hy' Hx'). by rewrite bool_decide_eq_true_2.
    + by eapply owns_size.
    + by eapply owns_size.
    + intros i v Hv. split; by eapply owns_index.
  - destruct Hown as (Hobj & Hoff & Hcells & Hlen).
    eexists. split; [by apply ctor_move_Ok|].
    split; [|split].
    + rewrite (size_Ok _ _ (MkArrayList 0 0 nullptr)); [done|]. simpl.
      rewrite lookup_insert_ne by done. apply lookup_insert_eq.
    + rewrite (capacity_Ok _ _ (MkArrayList 0 0 nullptr)); [done|]. simpl.
      rewrite lookup_insert_ne by done. apply lookup_insert_eq.
    + assert (owns (State (<[y := MkArrayList cap (length l) p]>
                            (<[x := MkArrayList 0 0 nullptr]> (objects s)))
                          (arrays s) (next_block s)) y cap l) as Hy.
      { exists p, spare. repeat split; simpl; [apply lookup_insert_eq|done| |done].
        by destruct s. }
      split; [by eapply owns_size|]. intros i v Hv. by eapply owns_index.
Qed.

(** C9. [size() <= capacity()] holds of every object in every state a
    program of constructor, destructor and member-function calls can reach,
    whether the calls returned or threw. *)
Theorem size_le_capacity_reachable s :
  reachable T_default arg_order s → size_le_capacity s.
Proof.
  induction 1 as [|c s s' _ IH Hexec|c s e s' _ IH Hexec].
  - apply map_Forall_empty.
  - pose proof (keeps_sizes_exec c _ IH s eq_refl) as Hwp.
    unfold wp in Hwp. by rewrite Hexec in Hwp.
  - pose proof (keeps_sizes_exec c _ IH s eq_refl) as Hwp.
    unfold wp in Hwp. by rewrite Hexec in Hwp.
Qed.

(** C10. The capacity of a copy-constructed container is the size of the
    source; spare capacity of the source is not carried over. *)
Theorem copy_capacity_is_source_size s x y cap l :
  owns s x cap l → heap_ok s → y ≠ x →
  ∃ s', ctor_copy T_default y x s = Ok () s' ∧
        size x s = Ok (length l) s ∧
        capacity x s = Ok cap s ∧
        capacity y s' = Ok (length l) s'.
Proof.
  intros Hx Hok Hne. pose proof Hx as (p & spare & Hown).
  destruct (returns_elim _ _ _ (ctor_copy_returns _ y _ _ _ _ _ Hown Hok Hne))
    as ([] & s' & Hrun & Hy & _).
  exists s'. split; [done|]. split; [by eapply owns_size|].
  split; [by eapply owns_capacity|]. eapply owns_capacity. by eexists _, _.
Qed.

(** * Further properties of the member functions *)

(** [output << item] for an element. *)
Variable show : T → string.

(** ** Constructors *)

(** X1. [ArrayList(count)] with a [count] that [new] serves holds [count]
    value-initialised elements in exactly [count] slots and touches no other
    object.  With a [count] that [new] refuses, the exception of [new]
    leaves the constructor: no object is made and nothing has changed. *)
Theorem count_constructor_default_values s x count :
  (∃ s', ctor_count T_default x (served count) s = Ok () s' ∧
         size x s' = Ok count s' ∧
         capacity x s' = Ok count s' ∧
         (∀ i, i < count →
               index x i s' = Ok T_default s' ∧ at_ x i s' = Ok T_default s') ∧
         at_ x count s' = Throw out_of_range s' ∧
         (∀ y, y ≠ x → objects s' !! y = objects s !! y)) ∧
  ctor_count T_default x (refused count) s = Throw bad_alloc s.
Proof.
  split; [|done].
  destruct (returns_elim _ _ _ (ctor_count_returns s x count))
    as ([] & s' & Hrun & Hown & Hobjs & _).
  assert (owns s' x count (replicate count T_default)) as Hown' by (by eexists _, _).
  exists s'. split; [done|].
  split; [rewrite <- (length_replicate count T_default) at 1; by eapply owns_size|].
  split; [by eapply owns_capacity|].
  split; [|split; [|done]].
  - intros i Hi. pose proof (lookup_replicate_2 count T_default i Hi) as Hv.
    split; [by eapply owns_index|by eapply owns_at_in_range].
  - eapply at_out_of_range; [apply (proj1 Hown)|]. simpl.
    by rewrite length_replicate.
Qed.

(** X2. [ArrayList{e0, ..., en}] holds the listed elements in order, in exactly
    as many slots, and touches no other object. *)
Theorem list_constructor_elements s x source :
  ∃ s', ctor_init T_default x source s = Ok () s' ∧
        size x s' = Ok (length source) s' ∧
        capacity x s' = Ok (length source) s' ∧
        (∀ i v, source !! i = Some v →
                index x i s' = Ok v s' ∧ at_ x i s' = Ok v s') ∧
        (∀ y, y ≠ x → objects s' !! y = objects s !! y).
Proof.
  destruct (returns_elim _ _ _ (ctor_init_returns s x source))
    as ([] & s' & Hrun & Hown & Hobjs & _).
  assert (owns s' x (length source) source) as Hown' by (by eexists _, _).
  exists s'. split; [done|].
  split; [by eapply owns_size|]. split; [by eapply owns_capacity|].
  split; [|done].
  intros i v Hv. split; [by eapply owns_index|by eapply owns_at_in_range].
Qed.

(** ** [front] and [back] *)

(** X3. [front()] throws [out_of_range] on an empty container and leaves it as
    it is; otherwise it returns the first element, the one [at(0)] returns. *)
Theorem front_checked s x cap l :
  owns s x cap l →
  (l = [] → front x s = Throw out_of_range s) ∧
  (∀ v, l !! 0 = Some v → front x s = Ok v s ∧ at_ x 0 s = Ok v s).
Proof.
  intros Hown. pose proof Hown as (p & spare & Hat). split.
  - intros ->. unfold front. by run_with ltac:(apply (size_Ok _ _ _ (proj1 Hat))).
  - intros v Hv. split; [|by eapply owns_at_in_range].
    unfold front. run_with ltac:(apply (size_Ok _ _ _ (proj1 Hat))). simpl.
    case_decide as Hn; [by destruct l|].
    run_with ltac:(apply (begin_Ok _ _ _ (proj1 Hat))). simpl.
    pose proof (owns_load _ _ _ _ _ _ 0 v Hat Hv) as Hload.
    unfold ptr_add in Hload. simpl in Hload. rewrite Z.add_0_r in Hload.
    by destruct p.
Qed.

(** X4. [back()] returns the last element of a container that has one.  On an
    empty container it is not checked: it reads the slot before the array,
    neither throwing nor returning. *)
Theorem back_unchecked s x cap l :
  owns s x cap l →
  (∀ v, last l = Some v → back x s = Ok v s) ∧
  (l = [] → back x s = Undefined).
Proof.
  intros (p & spare & Hat). split.
  - intros v Hv. unfold back.
    run_with ltac:(apply (begin_Ok _ _ _ (proj1 Hat))).
    run_with ltac:(apply (size_Ok _ _ _ (proj1 Hat))). simpl.
    rewrite last_lookup in Hv.
    assert (0 < length l) by (destruct l; simpl in *; [done|lia]).
    pose proof (owns_load _ _ _ _ _ _ _ v Hat Hv) as Hload.
    unfold ptr_add in *. simpl in *.
    by replace (p_off p + Z.of_nat (length l) + -1)%Z
      with (p_off p + Z.of_nat (Nat.pred (length l)))%Z by lia.
  - intros ->. unfold back.
    run_with ltac:(apply (begin_Ok _ _ _ (proj1 Hat))).
    run_with ltac:(apply (size_Ok _ _ _ (proj1 Hat))). simpl.
    destruct Hat as (_ & Hoff & _). unfold load, ptr_add. simpl. rewrite Hoff.
    destruct (cells_of s (p_block p)); [|done]. by case_decide.
Qed.

(** ** [clear] *)

(** X5. [clear()] only sets the size to zero: the container is empty and
    [at] rejects every index, but the capacity and the array are kept, and
    [operator[]] still reads what was stored. *)
Theorem clear_keeps_array s x cap l :
  owns s x cap l →
  ∃ s', clear x s = Ok () s' ∧
        arrays s' = arrays s ∧
        empty x s' = Ok true s' ∧
        capacity x s' = Ok cap s' ∧
        (∃ p, begin x s = Ok p s ∧ begin x s' = Ok p s') ∧
        (∀ pos, at_ x pos s' = Throw out_of_range s') ∧
        (∀ i v, l !! i = Some v → index x i s' = Ok v s').
Proof.
  intros (p & spare & Hobj & Hoff & Hcells & Hlen).
  eexists. split; [unfold clear; by apply set_m_size_Ok|]. simpl.
  set (s' := State _ _ _).
  assert (objects s' !! x = Some (MkArrayList cap 0 p)) as Hobj'
    by apply lookup_insert_eq.
  split; [done|]. split; [|split; [|split; [|split]]].
  - unfold empty. by rewrite (bind_Ok _ _ _ _ _ (size_Ok _ _ _ Hobj')).
  - by rewrite (capacity_Ok _ _ _ Hobj').
  - exists p. by rewrite (begin_Ok _ _ _ Hobj), (begin_Ok _ _ _ Hobj').
  - intros pos. apply (at_out_of_range _ _ _ _ Hobj'). simpl. lia.
  - intros i v Hv. unfold index.
    rewrite (bind_Ok _ _ _ _ _ (get_object_Ok _ _ _ Hobj')). simpl.
    assert (owns_at s' x p cap [] ((Some <$> l) ++ spare)) as Hat.
    { repeat split; [done..|]. simpl. rewrite length_app, length_fmap. lia. }
    destruct p as [pb po]. simpl in *. subst po. unfold ptr_add. simpl.
    apply (load_Ok _ _ _ ((Some <$> l) ++ spare)); [done|lia|].
    replace (Z.to_nat (0 + Z.of_nat i)) with i by lia.
    rewrite lookup_app_l by (rewrite length_fmap; by eapply lookup_lt_Some).
    by rewrite list_lookup_fmap, Hv.
Qed.

(** ** [push_back] *)

(** X6. One [push_back]: the value becomes the last element and the others
    stay.  With room left the capacity stays; a full container of capacity
    [c > 0] grows to [2c], one of capacity [0] to [1]. *)
Theorem push_back_appends s x cap l v :
  owns s x cap l → heap_ok s →
  ∃ s', push_back T_default x v s = Ok () s' ∧
        size x s' = Ok (length l + 1) s' ∧
        capacity x s' =
          Ok (if decide (length l = cap)
              then (if decide (cap = 0) then 1 else cap * 2)
              else cap) s' ∧
        index x (length l) s' = Ok v s' ∧
        (∀ i u, l !! i = Some u → index x i s' = Ok u s').
Proof.
  intros Hown Hok.
  destruct (returns_elim _ _ _ (push_back_returns _ _ _ _ v Hown Hok))
    as ([] & s' & Hrun & Hown').
  exists s'. split; [done|]. split; [|split; [|split]].
  - replace (length l + 1) with (length (l ++ [v])) by (rewrite length_app; simpl; lia).
    by eapply owns_size.
  - by eapply owns_capacity.
  - eapply owns_index; [done|]. by rewrite lookup_app_r, Nat.sub_diag.
  - intros i u Hu. eapply owns_index; [done|].
    rewrite lookup_app_l; [done|]. by eapply lookup_lt_Some.
Qed.

Lemma push_back_all_capacity vs : ∀ s x cap l,
  owns s x cap l → heap_ok s →
  (cap = 0 ∧ l = []) ∨ (∃ k, cap = 2 ^ k ∧ length l ≤ cap < 2 * length l) →
  returns (push_back_all T_default x vs)
    (λ _ s', ∃ cap', owns s' x cap' (l ++ vs) ∧
       ((cap' = 0 ∧ l ++ vs = []) ∨
        (∃ k, cap' = 2 ^ k ∧ length (l ++ vs) ≤ cap' < 2 * length (l ++ vs)))) s.
Proof.
  induction vs as [|v vs IH]; intros s x cap l Hown Hok Hcap; simpl.
  - apply returns_ret. rewrite app_nil_r. eauto.
  - eapply returns_seq.
    { eapply returns_keeps_heap; [apply keeps_heap_push_back|done|].
      by apply push_back_returns. }
    simpl. intros _ s1 [Hown1 Hok1].
    replace (l ++ v :: vs) with ((l ++ [v]) ++ vs) by (by rewrite <- app_assoc).
    eapply IH; [done|done|]. right. rewrite length_app. simpl.
    case_decide as Hfull.
    + unfold grown. destruct Hcap as [[-> ->]|(k & -> & Hk)].
      * exists 0. simpl. lia.
      * exists (S k). case_decide as Hz.
        -- pose proof (Nat.pow_nonzero 2 k). lia.
        -- rewrite Nat.pow_succ_r'. lia.
    + destruct Hcap as [[-> ->]|(k & -> & Hk)]; [done|].
      exists k. pose proof (owns_size_le_capacity _ _ _ _ Hown). lia.
Qed.

(** X7. After one or more [push_back] calls on a default-constructed (or
    moved-from) container, the capacity is a power of two that holds the
    elements and is less than twice their number. *)
Theorem push_back_capacity_power_of_two s x vs :
  owns s x 0 [] → heap_ok s → vs ≠ [] →
  ∃ s' c k, push_back_all T_default x vs s = Ok () s' ∧
            size x s' = Ok (length vs) s' ∧
            capacity x s' = Ok c s' ∧
            c = 2 ^ k ∧ length vs ≤ c < 2 * length vs.
Proof.
  intros Hown Hok Hvs.
  destruct (returns_elim _ _ _
    (push_back_all_capacity vs _ _ _ _ Hown Hok (or_introl (conj eq_refl eq_refl))))
    as ([] & s' & Hrun & cap' & Hown' & Hcap).
  simpl in *. destruct Hcap as [[_ ->]|(k & -> & Hk)]; [done|].
  exists s', (2 ^ k), k. split; [done|]. split; [by eapply owns_size|].
  split; [by eapply owns_capacity|]. done.
Qed.

(** ** [erase] and [insert], with the array they leave *)

Lemma erase_inside_at s x pb cap l spare (k : nat) :
  owns_at s x (Ptr pb 0) cap l spare → 0 < k < length l →
  returns (erase x (Ptr pb (Z.of_nat k)))
    (λ r s', r = Ptr pb (Z.of_nat k) ∧
             owns_at s' x (Ptr pb 0) cap (take k l ++ drop (S k) l)
               (drop (length l - 1) ((Some <$> l) ++ spare))) s.
Proof.
  intros Hown Hk.
  destruct (owns_at_block _ _ _ _ _ _ _ Hown ltac:(destruct Hown as (_&_&_&?); lia))
    as [b ->].
  destruct Hown as (Hobj & _ & Hcells & Hlen). destruct s as [o arr nx]. simpl in *.
  unfold erase. step_object.
  step_with ltac:(apply ptr_lt_Ok). rewrite ptr_eqb_offset.
  rewrite !bool_decide_eq_false_2 by lia. simpl.
  unfold ptr_gt, ptr_add. simpl.
  step_with ltac:(apply ptr_lt_Ok). rewrite bool_decide_eq_false_2 by lia.
  step_object. unfold ptr_add; simpl.
  apply returns_bind. unfold std_copy.
  step_with ltac:(apply distance_Ok; lia).
  eapply returns_eq.
  { apply (copy_loop_left _ _ _ _ _ _ _ _ (drop (S k) l) Hcells); [lia| |].
    - replace (Z.to_nat (Z.of_nat k + 1)) with (S k) by lia.
      rewrite drop_app_le, <- fmap_drop by (rewrite length_fmap; lia).
      apply take_app_length'. rewrite length_fmap, length_drop. lia.
    - rewrite length_drop. lia. }
  do 2 step_object. apply returns_ret. split; [done|].
  repeat split; simpl.
  - rewrite lookup_insert_eq. do 3 f_equal.
    rewrite length_app, length_take, length_drop. lia.
  - rewrite lookup_insert_eq. f_equal. rewrite Nat2Z.id.
    rewrite take_elements by lia. rewrite fmap_app, <- app_assoc.
    do 3 f_equal. lia.
  - rewrite length_app, length_take, !length_drop, length_app, length_fmap. lia.
Qed.

Lemma insert_with_room_at s x pb cap l spare (k : nat) v :
  arg_order = left_to_right →
  owns_at s x (Ptr pb 0) cap l spare →
  k ≤ length l → length l < cap →
  returns (insert T_default arg_order x (Ptr pb (Z.of_nat k)) v)
    (λ r s', r = Ptr pb (Z.of_nat k) ∧
             owns_at s' x (Ptr pb 0) cap (take k l ++ v :: drop k l)
               (drop (S (length l)) ((Some <$> l) ++ spare))) s.
Proof.
  intros -> Hown Hk Hroom.
  destruct (owns_at_block _ _ _ _ _ _ _ Hown ltac:(lia)) as [b ->].
  destruct Hown as (Hobj & _ & Hcells & Hlen). destruct s as [o arr nx]. simpl in *.
  unfold insert. do 2 step_object.
  step_with ltac:(apply ptr_lt_Ok). rewrite bool_decide_eq_false_2 by lia.
  unfold ptr_gt, ptr_add; simpl.
  step_with ltac:(apply ptr_lt_Ok). rewrite bool_decide_eq_false_2 by lia.
  do 2 step_object. case_decide; [lia|].
  step_with ltac:(reflexivity).
  apply returns_bind. unfold std_copy_backward.
  step_with ltac:(apply distance_Ok; lia).
  eapply returns_eq.
  { apply (copy_backward_loop_right _ _ _ _ _ _ _ _ (drop k l) Hcells).
    - lia.
    - rewrite length_app, length_fmap. lia.
    - replace (Z.to_nat (0 + Z.of_nat (length l)) -
               Z.to_nat (0 + Z.of_nat (length l) - Z.of_nat k)) with k by lia.
      rewrite drop_app_le, <- fmap_drop by (rewrite length_fmap; lia).
      apply take_app_length'. rewrite length_fmap, length_drop. lia.
    - rewrite length_drop. lia. }
  step_with ltac:(eapply store_Ok; [apply lookup_insert_eq|];
    rewrite !length_app, length_take, length_fmap, !length_drop, length_app, length_fmap;
    lia).
  do 2 step_object. apply returns_ret. split; [done|].
  repeat split; simpl.
  - rewrite lookup_insert_eq. do 3 f_equal.
    rewrite length_app, length_take. simpl. rewrite length_drop. lia.
  - rewrite insert_insert_eq, lookup_insert_eq. f_equal.
    replace (Z.to_nat (0 + Z.of_nat (length l) + 1) -
             Z.to_nat (0 + Z.of_nat (length l) - Z.of_nat k)) with (S k) by lia.
    rewrite Nat2Z.id.
    rewrite insert_after_take by (rewrite length_app, length_fmap; lia).
    rewrite take_elements by lia.
    rewrite fmap_app. simpl. rewrite <- app_assoc. simpl.
    repeat f_equal. lia.
  - rewrite length_app, length_take. simpl.
    rewrite !length_drop, length_app, length_fmap. lia.
Qed.


(** X8. [erase] at a position strictly between [begin()] and [end()] removes
    that element: the ones before it stay, the ones after it move one
    index down, the capacity and the array stay, and the returned position
    is [pos], where the old successor now is. *)
Theorem erase_removes_element s x pb cap l spare (k : nat) :
  owns_at s x (Ptr pb 0) cap l spare → 0 < k < length l →
  ∃ s', erase x (Ptr pb (Z.of_nat k)) s = Ok (Ptr pb (Z.of_nat k)) s' ∧
        size x s' = Ok (length l - 1) s' ∧
        capacity x s' = Ok cap s' ∧
        begin x s' = Ok (Ptr pb 0) s' ∧
        (∀ i v, i < k → l !! i = Some v → index x i s' = Ok v s') ∧
        (∀ i v, k ≤ i → l !! S i = Some v → index x i s' = Ok v s').
Proof.
  intros Hat Hk.
  destruct (returns_elim _ _ _ (erase_inside_at _ _ _ _ _ _ _ Hat Hk))
    as (r & s' & Hrun & -> & Hat').
  assert (owns s' x cap (take k l ++ drop (S k) l)) as Hown' by (by eexists _, _).
  exists s'. split; [done|]. split; [|split; [|split; [|split]]].
  - replace (length l - 1) with (length (take k l ++ drop (S k) l))
      by (rewrite length_app, length_take, length_drop; lia).
    by eapply owns_size.
  - by eapply owns_capacity.
  - by rewrite (begin_Ok _ _ _ (proj1 Hat')).
  - intros i v Hi Hv. eapply owns_index; [done|].
    rewrite lookup_app_l by (rewrite length_take; lia).
    by rewrite lookup_take_lt.
  - intros i v Hi Hv. eapply owns_index; [done|].
    rewrite lookup_app_r by (rewrite length_take; lia).
    rewrite length_take, lookup_drop. rewrite <- Hv. f_equal. lia.
Qed.

(** X9. [erase] at or before [begin()] and past [end()] throws [out_of_range]
    and changes nothing; in particular the first element cannot be erased. *)
Theorem erase_rejected_unchanged s x pb cap l spare (k : Z) :
  owns_at s x (Ptr pb 0) cap l spare →
  (k ≤ 0 ∨ Z.of_nat (length l) < k)%Z →
  erase x (Ptr pb k) s = Throw out_of_range s.
Proof.
  intros Hat [Hk|Hk]; [by eapply erase_at_or_before_begin|by eapply erase_past_end].
Qed.

(** X10. [insert] before [begin()] or past [end()] throws [out_of_range] and
    changes nothing, whether the container is full or not. *)
Theorem insert_rejected_unchanged s x pb cap l spare (k : Z) v :
  owns_at s x (Ptr pb 0) cap l spare →
  (k < 0 ∨ Z.of_nat (length l) < k)%Z →
  insert T_default arg_order x (Ptr pb k) v s = Throw out_of_range s.
Proof.
  intros Hat [Hk|Hk]; [by eapply insert_before_begin|by eapply insert_past_end].
Qed.

(** X11. [insert] into a container with room left, when the compiler copies [z]
    before it evaluates [++z]: the value lands at [pos], the elements
    before it stay, those from [pos] on move one index up; the capacity
    and the array stay and the returned position is [pos]. *)
Theorem insert_places_value s x pb cap l spare (k : nat) v :
  arg_order = left_to_right →
  owns_at s x (Ptr pb 0) cap l spare →
  k ≤ length l → length l < cap →
  ∃ s', insert T_default arg_order x (Ptr pb (Z.of_nat k)) v s =
          Ok (Ptr pb (Z.of_nat k)) s' ∧
        size x s' = Ok (length l + 1) s' ∧
        capacity x s' = Ok cap s' ∧
        begin x s' = Ok (Ptr pb 0) s' ∧
        index x k s' = Ok v s' ∧
        (∀ i u, i < k → l !! i = Some u → index x i s' = Ok u s') ∧
        (∀ i u, k ≤ i → l !! i = Some u → index x (S i) s' = Ok u s').
Proof.
  intros Horder Hat Hk Hroom.
  destruct (returns_elim _ _ _ (insert_with_room_at _ _ _ _ _ _ _ v Horder Hat Hk Hroom))
    as (r & s' & Hrun & -> & Hat').
  assert (owns s' x cap (take k l ++ v :: drop k l)) as Hown' by (by eexists _, _).
  exists s'. split; [done|]. split; [|split; [|split; [|split; [|split]]]].
  - replace (length l + 1) with (length (take k l ++ v :: drop k l))
      by (rewrite length_app, length_take; simpl; rewrite length_drop; lia).
    by eapply owns_size.
  - by eapply owns_capacity.
  - by rewrite (begin_Ok _ _ _ (proj1 Hat')).
  - eapply owns_index; [done|].
    rewrite lookup_app_r by (rewrite length_take; lia).
    rewrite length_take. by replace (k - k `min` length l) with 0 by lia.
  - intros i u Hi Hu. eapply owns_index; [done|].
    rewrite lookup_app_l by (rewrite length_take; lia).
    by rewrite lookup_take_lt.
  - intros i u Hi Hu. eapply owns_index; [done|].
    rewrite lookup_app_r by (rewrite length_take; lia).
    rewrite length_take.
    replace (S i - k `min` length l) with (S (i - k)) by lia. simpl.
    rewrite lookup_drop. rewrite <- Hu. f_equal. lia.
Qed.

(** X12. Erasing an element and inserting its value back at the same position
    restores the sequence (with [z] copied before [++z]); this holds for
    every position [erase] accepts and carries out, so not for the first
    element. *)
Theorem erase_then_insert_restores s x pb cap l spare (k : nat) v :
  arg_order = left_to_right →
  owns_at s x (Ptr pb 0) cap l spare →
  0 < k < length l → l !! k = Some v →
  ∃ s', (pos <~ erase x (Ptr pb (Z.of_nat k));
         insert T_default arg_order x pos v) s = Ok (Ptr pb (Z.of_nat k)) s' ∧
        size x s' = Ok (length l) s' ∧
        capacity x s' = Ok cap s' ∧
        (∀ i u, l !! i = Some u → index x i s' = Ok u s').
Proof.
  intros Horder Hat Hk Hv.
  assert (returns (pos <~ erase x (Ptr pb (Z.of_nat k));
                   insert T_default arg_order x pos v)
            (λ r s', r = Ptr pb (Z.of_nat k) ∧ owns s' x cap l) s) as Hret.
  { eapply returns_seq; [by apply erase_inside_at|].
    simpl. intros r s1 [-> Hat1].
    pose proof (insert_with_room_at s1 x pb cap _ _ k v Horder Hat1) as Hins.
    rewrite length_app, length_take, length_drop in Hins.
    destruct Hat as (_ & _ & _ & Hlen).
    specialize (Hins ltac:(lia) ltac:(lia)).
    unfold returns in *. destruct (insert _ _ _ _ _ s1) as [r s2| |]; [|done..].
    destruct Hins as [-> Hat2]. split; [done|].
    rewrite take_app_length', drop_app_length' in Hat2
      by (rewrite length_take; lia).
    rewrite (take_drop_middle _ _ _ Hv) in Hat2. by eexists _, _. }
  destruct (returns_elim _ _ _ Hret) as (r & s' & Hrun & -> & Hown').
  exists s'. split; [done|]. split; [by eapply owns_size|].
  split; [by eapply owns_capacity|]. intros i u Hu. by eapply owns_index.
Qed.

(** X13. Inserting a value and erasing at the same position restores the
    sequence (with [z] copied before [++z]), for every position but
    [begin()], where [erase] refuses. *)
Theorem insert_then_erase_restores s x pb cap l spare (k : nat) v :
  arg_order = left_to_right →
  owns_at s x (Ptr pb 0) cap l spare →
  0 < k ≤ length l → length l < cap →
  ∃ s', (pos <~ insert T_default arg_order x (Ptr pb (Z.of_nat k)) v;
         erase x pos) s = Ok (Ptr pb (Z.of_nat k)) s' ∧
        size x s' = Ok (length l) s' ∧
        capacity x s' = Ok cap s' ∧
        (∀ i u, l !! i = Some u → index x i s' = Ok u s').
Proof.
  intros Horder Hat Hk Hroom.
  assert (returns (pos <~ insert T_default arg_order x (Ptr pb (Z.of_nat k)) v;
                   erase x pos)
            (λ r s', r = Ptr pb (Z.of_nat k) ∧ owns s' x cap l) s) as Hret.
  { eapply returns_seq; [apply insert_with_room_at; [done|done|lia|done]|].
    simpl. intros r s1 [-> Hat1].
    pose proof (erase_inside_at s1 x pb cap _ _ k Hat1) as Hers.
    rewrite length_app, length_take in Hers. simpl in Hers.
    rewrite length_drop in Hers. specialize (Hers ltac:(lia)).
    unfold returns in *. destruct (erase x _ s1) as [r s2| |]; [|done..].
    destruct Hers as [-> Hat2]. split; [done|].
    rewrite take_app_length' in Hat2 by (rewrite length_take; lia).
    rewrite drop_app_ge, length_take in Hat2 by (rewrite length_take; lia).
    replace (S k - k `min` length l) with 1 in Hat2 by lia.
    simpl in Hat2. rewrite drop_0, take_drop in Hat2. by eexists _, _. }
  destruct (returns_elim _ _ _ Hret) as (r & s' & Hrun & -> & Hown').
  exists s'. split; [done|]. split; [by eapply owns_size|].
  split; [by eapply owns_capacity|]. intros i u Hu. by eapply owns_index.
Qed.

(** X14. [insert] into a container with room left, when the compiler evaluates
    [++z] before it copies [z]: [std::copy_backward(pos, z, z)] moves
    nothing, so the value overwrites the element at [pos] instead of being
    inserted before it, and the slot past the old end (holding [c]) becomes
    the last element.  Only [insert(end(), value)] comes out as an append. *)
Theorem insert_overwrites_when_incremented_first s x pb cap l c spare (k : nat) v :
  arg_order = right_to_left →
  owns_at s x (Ptr pb 0) cap l (Some c :: spare) →
  k ≤ length l →
  ∃ s', insert T_default arg_order x (Ptr pb (Z.of_nat k)) v s =
          Ok (Ptr pb (Z.of_nat k)) s' ∧
        size x s' = Ok (length l + 1) s' ∧
        capacity x s' = Ok cap s' ∧
        index x k s' = Ok v s' ∧
        (∀ i u, i ≠ k → l !! i = Some u → index x i s' = Ok u s') ∧
        (k < length l → index x (length l) s' = Ok c s').
Proof.
  intros -> Hat Hk.
  assert (returns (insert T_default right_to_left x (Ptr pb (Z.of_nat k)) v)
            (λ r s', r = Ptr pb (Z.of_nat k) ∧ owns s' x cap (<[k := v]> (l ++ [c]))) s)
    as Hret.
  { destruct (owns_at_block _ _ _ _ _ _ _ Hat
                ltac:(destruct Hat as (_&_&_&?); simpl in *; lia)) as [b ->].
    destruct Hat as (Hobj & _ & Hcells & Hlen). destruct s as [o arr nx]. simpl in *.
    assert ((Some <$> l) ++ Some c :: spare = (Some <$> l ++ [c]) ++ spare) as Hnorm
      by (by rewrite fmap_app, <- app_assoc).
    rewrite Hnorm in Hcells.
    unfold insert. do 2 step_object.
    step_with ltac:(apply ptr_lt_Ok). rewrite bool_decide_eq_false_2 by lia.
    unfold ptr_gt, ptr_add; simpl.
    step_with ltac:(apply ptr_lt_Ok). rewrite bool_decide_eq_false_2 by lia.
    do 2 step_object. case_decide; [lia|].
    step_with ltac:(reflexivity).
    apply returns_bind. unfold std_copy_backward.
    step_with ltac:(apply distance_Ok; lia).
    eapply returns_eq.
    { apply (copy_backward_loop_right _ _ _ _ _ _ _ _ (drop k (l ++ [c])) Hcells).
      - lia.
      - rewrite length_app, length_fmap, length_app. simpl. lia.
      - replace (Z.to_nat (0 + Z.of_nat (length l) + 1) -
                 Z.to_nat (0 + Z.of_nat (length l) + 1 - Z.of_nat k)) with k by lia.
        rewrite drop_app_le, <- fmap_drop by (rewrite length_fmap, length_app; simpl; lia).
        apply take_app_length'.
        rewrite length_fmap, length_drop, length_app. simpl. lia.
      - rewrite length_drop, length_app. simpl. lia. }
    replace (Z.to_nat (0 + Z.of_nat (length l) + 1) -
             Z.to_nat (0 + Z.of_nat (length l) + 1 - Z.of_nat k)) with k by lia.
    replace (Z.to_nat (0 + Z.of_nat (length l) + 1)) with (length (l ++ [c]))
      by (rewrite length_app; simpl; lia).
    rewrite (drop_app_length' _ _ (length (l ++ [c]))) by (by rewrite length_fmap).
    rewrite take_elements by (rewrite length_app; simpl; lia).
    rewrite app_assoc, <- fmap_app, take_drop.
    step_with ltac:(eapply store_Ok; [apply lookup_insert_eq|];
      rewrite length_app, length_fmap, length_app; simpl; lia).
    do 2 step_object. apply returns_ret. split; [done|].
    exists (Ptr (Some b) 0), spare. repeat split; simpl.
    - rewrite lookup_insert_eq. do 3 f_equal.
      rewrite length_insert, length_app. simpl. lia.
    - rewrite insert_insert_eq, lookup_insert_eq. f_equal. rewrite Nat2Z.id.
      rewrite insert_app_l by (rewrite length_fmap, length_app; simpl; lia).
      by rewrite list_fmap_insert.
    - rewrite length_insert, length_app. simpl. lia. }
  destruct (returns_elim _ _ _ Hret) as (r & s' & Hrun & -> & Hown').
  exists s'. split; [done|]. split; [|split; [|split; [|split]]].
  - replace (length l + 1) with (length (<[k := v]> (l ++ [c])))
      by (rewrite length_insert, length_app; simpl; lia).
    by eapply owns_size.
  - by eapply owns_capacity.
  - eapply owns_index; [done|]. apply list_lookup_insert_eq.
    rewrite length_app. simpl. lia.
  - intros i u Hi Hu. eapply owns_index; [done|].
    rewrite list_lookup_insert_ne by done.
    rewrite lookup_app_l; [done|]. by eapply lookup_lt_Some.
  - intros Hlt. eapply owns_index; [done|].
    rewrite list_lookup_insert_ne by lia.
    by rewrite lookup_app_r, Nat.sub_diag.
Qed.

(** ** [swap] *)

(** X15. [swap] exchanges what two containers hold (elements, capacity and
    array) without touching any array or any other object, and swapping
    again restores the state. *)
Theorem swap_exchanges s x y p q cx cy lx ly sx sy :
  owns_at s x p cx lx sx → owns_at s y q cy ly sy → x ≠ y →
  ∃ s', swap x y s = Ok () s' ∧
        owns_at s' x q cy ly sy ∧
        owns_at s' y p cx lx sx ∧
        arrays s' = arrays s ∧
        (∀ z, z ≠ x → z ≠ y → objects s' !! z = objects s !! z) ∧
        swap x y s' = Ok () s.
Proof.
  intros (Hx & Hpo & Hpc & Hpl) (Hy & Hqo & Hqc & Hql) Hne.
  destruct s as [o arr nx]. simpl in *.
  eexists. split.
  { unfold swap. do 7 run_object.
    eapply set_m_data_Ok. lookup_object. }
  simpl. split; [|split; [|split; [|split]]].
  - repeat split; simpl; [by simplify_map_eq|done..].
  - repeat split; simpl; [by simplify_map_eq|done..].
  - done.
  - intros z Hzx Hzy. by simplify_map_eq.
  - unfold swap. do 7 run_object.
    erewrite set_m_data_Ok by lookup_object. simpl. do 2 f_equal.
    apply map_eq. intros z.
    destruct (decide (z = x)) as [->|]; [by simplify_map_eq|].
    destruct (decide (z = y)) as [->|]; by simplify_map_eq.
Qed.

(** ** [operator=(ArrayList&&)] *)

(** X16. Move assignment hands [other]'s elements, capacity and array to [this]
    and leaves [other] empty with capacity zero.  No array is freed: the
    one [this] owned before stays allocated, with nothing pointing to it
    from [this] or [other]. *)
Theorem move_assign_transfers s this other p cap l spare b co lo so :
  owns_at s this (Ptr (Some b) 0) cap l spare →
  owns_at s other p co lo so →
  this ≠ other → p_block p ≠ Some b →
  ∃ s', move_assign this other s = Ok () s' ∧
        owns_at s' this p co lo so ∧
        objects s' !! other = Some (MkArrayList 0 0 nullptr) ∧
        arrays s' = arrays s ∧
        arrays s' !! b = Some ((Some <$> l) ++ spare) ∧
        (∀ a, objects s' !! this = Some a ∨ objects s' !! other = Some a →
              p_block (m_data a) ≠ Some b).
Proof.
  intros (Hx & _ & Hc & _) (Hy & Hqo & Hqc & Hql) Hne Hblock.
  destruct s as [o arr nx]. simpl in *.
  unfold move_assign. case_decide; [|done].
  eexists. split.
  { do 8 run_object. eapply set_m_data_Ok. lookup_object. }
  simpl. split; [|split; [|split; [|split]]].
  - repeat split; simpl; [by simplify_map_eq|done..].
  - by simplify_map_eq.
  - done.
  - done.
  - intros a [Ha|Ha]; simplify_map_eq; simpl; done.
Qed.

(** ** [operator=(const ArrayList&)] *)

Lemma std_copy_nothing s b (i : Z) d : std_copy (Ptr b i) (Ptr b (i + 0)) d s = Ok () s.
Proof.
  unfold std_copy. erewrite bind_Ok; [|apply distance_Ok; lia].
  by replace (Z.to_nat (i + 0 - i)) with 0 by lia.
Qed.

Lemma owns_at_null s x cap l spare :
  owns_at s x (Ptr None 0) cap l spare → cap = 0 ∧ l = [] ∧ spare = [].
Proof.
  intros (_ & _ & Hc & Hlen). simpl in Hc. injection Hc as Hc. symmetry in Hc.
  apply app_eq_nil in Hc as [Hl ->]. apply fmap_nil_inv in Hl as ->.
  simpl in Hlen. by subst.
Qed.

Lemma copy_assign_returns s this rhs pb cap l spare q co lo so :
  owns_at s this (Ptr pb 0) cap l spare →
  owns_at s rhs q co lo so →
  heap_ok s → this ≠ rhs →
  (∀ b, pb = Some b → p_block q ≠ Some b) →
  returns (copy_assign T_default this rhs)
    (λ _ s', ∃ pb' spare',
       owns_at s' this (Ptr pb' 0) co lo spare' ∧
       (cap = co → pb' = pb) ∧
       (cap ≠ co → pb' = Some (next_block s) ∧ spare' = replicate (co - length lo) (Some T_default)) ∧
       frame pb this s s') s.
Proof.
  intros Hthis (Hobj' & Hoff' & Hcells' & Hlen') Hok Hne Hblocks.
  pose proof Hthis as (Hobj & _ & Hcells & Hlen).
  destruct s as [o arr nx], q as [qb qo]. simpl in *. subst qo.
  pose proof (heap_ok_fresh _ _ _ _ _ Hok Hcells) as Hfresh.
  pose proof (heap_ok_fresh _ _ _ _ _ Hok Hcells') as Hfresh'.
  unfold copy_assign. case_decide; [|done]. do 2 step_object.
  case_decide as Hcap.
  - apply returns_bind. step_object.
    step_with ltac:(by eapply delete_array_owned). simpl.
    do 7 step_object. last_object.
    do 3 step_object. unfold ptr_add; simpl.
    step_with ltac:(apply (std_copy_prefix _ _ _ qb nx 0 (length lo) lo so);
      [by rewrite cells_of_insert_ne, cells_of_without_ne
      |apply lookup_insert_eq|done|done|rewrite length_replicate; lia]).
    step_object. last_object.
    exists (Some nx), (replicate (co - length lo) (Some T_default)).
    split; [|split; [done|split; [done|split; [|split; [|simpl; lia]]]]]; simpl.
    + repeat split; simpl.
      * by rewrite lookup_insert_eq.
      * rewrite insert_insert_eq, lookup_insert_eq. f_equal.
        rewrite (take_ge lo) by done. by rewrite drop_replicate.
      * rewrite length_replicate. lia.
    + intros y Hy. by rewrite !lookup_insert_ne by done.
    + intros b Hb Hpb.
      rewrite insert_insert_eq, lookup_insert_ne, lookup_without_ne by (done || lia).
      done.
  - apply returns_bind, returns_ret. do 3 step_object. unfold ptr_add; simpl.
    assert (cap = co) as -> by (destruct (decide (cap = co)); [done|by destruct Hcap]).
    destruct pb as [b|].
    + simpl in Hcells.
      step_with ltac:(apply (std_copy_prefix _ _ _ qb b 0 (length lo) lo so);
        [done|done|intros ->; by eapply Hblocks|done
        |rewrite length_app, length_fmap; lia]).
      step_object. last_object.
      exists (Some b), (drop (length lo) ((Some <$> l) ++ spare)).
      split; [|split; [done|split; [done|split; [|split; [|done]]]]]; simpl.
      * repeat split; simpl.
        -- by rewrite lookup_insert_eq.
        -- rewrite lookup_insert_eq. f_equal. by rewrite (take_ge lo) by done.
        -- rewrite length_drop, length_app, length_fmap. lia.
      * intros y Hy. by rewrite !lookup_insert_ne by done.
      * intros b' _ Hb'. rewrite lookup_insert_ne; [done|congruence].
    + destruct (owns_at_null _ _ _ _ _ Hthis) as (Hz & -> & ->).
      destruct lo; [|simpl in *; lia]. simpl.
      step_with ltac:(apply (std_copy_nothing _ qb 0)).
      step_object. last_object.
      exists None, []. split; [|split; [done|split; [done|split; [|split; [|done]]]]]; simpl.
      * split; [apply lookup_insert_eq|]. split; [done|]. split; [done|].
        simpl. lia.
      * intros y Hy. by rewrite !lookup_insert_ne by done.
      * done.
Qed.

(** X17. Copy assignment [x = y] of two distinct containers gives [x] the
    elements of [y] and the capacity of [y] (not its size, unlike the copy
    constructor) and leaves [y] as it was.  With equal capacities the
    array of [x] is overwritten in place; otherwise [x] gets a new one. *)
Theorem copy_assign_copies s this rhs pb cap l spare q co lo so :
  owns_at s this (Ptr pb 0) cap l spare →
  owns_at s rhs q co lo so →
  heap_ok s → this ≠ rhs →
  (∀ b, pb = Some b → p_block q ≠ Some b) →
  ∃ s', copy_assign T_default this rhs s = Ok () s' ∧
        size this s' = Ok (length lo) s' ∧
        capacity this s' = Ok co s' ∧
        (∀ i v, lo !! i = Some v → index this i s' = Ok v s') ∧
        (cap = co → begin this s' = Ok (Ptr pb 0) s') ∧
        (cap ≠ co → begin this s' = Ok (Ptr (Some (next_block s)) 0) s') ∧
        owns_at s' rhs q co lo so.
Proof.
  intros Hthis Hrhs Hok Hne Hblocks.
  destruct (returns_elim _ _ _
    (copy_assign_returns _ _ _ _ _ _ _ _ _ _ _ Hthis Hrhs Hok Hne Hblocks))
    as ([] & s' & Hrun & pb' & spare' & Hthis' & Hsame & Hnew & Hframe).
  assert (owns s' this co lo) as Hown' by (by eexists _, _).
  exists s'. split; [done|]. split; [by eapply owns_size|].
  split; [by eapply owns_capacity|].
  split; [intros i v Hv; by eapply owns_index|].
  split; [|split].
  - intros Hc. rewrite (begin_Ok _ _ _ (proj1 Hthis')). simpl. by rewrite (Hsame Hc).
  - intros Hc. rewrite (begin_Ok _ _ _ (proj1 Hthis')). simpl.
    by rewrite (proj1 (Hnew Hc)).
  - eapply frame_owns_at; [done..|].
    intros b Hb ->. by eapply Hblocks.
Qed.

(** ** [operator+=] *)

Lemma append_capacity o x y a b :
  x ≠ y → o !! x = Some a → o !! y = Some b →
  owp (append x y)
    (λ _ o', ∃ a', o' !! x = Some a' ∧
       m_capacity a' = if decide (m_capacity a < m_size a + m_size b)
                       then m_size a + m_size b else m_capacity a)
    (λ _, True) o.
Proof.
  intros Hne Hx Hy. unfold append. owp_members.
  repeat owp_step; simplify_map_eq; try done;
    (eexists; split; [reflexivity|]); simpl; by repeat case_decide.
Qed.

(** X18. [x += y] for two distinct containers appends the elements of [y] to
    those of [x] and leaves [y] as it was.  The capacity stays when the
    result fits; otherwise it becomes exactly the new size, not a
    doubling. *)
Theorem append_exact_fit s this other pb cap l spare q co lo so :
  owns_at s this (Ptr pb 0) cap l spare →
  owns_at s other q co lo so →
  heap_ok s → this ≠ other →
  (∀ b, pb = Some b → p_block q ≠ Some b) →
  ∃ s', append this other s = Ok () s' ∧
        size this s' = Ok (length l + length lo) s' ∧
        capacity this s' =
          Ok (if decide (cap < length l + length lo)
              then length l + length lo else cap) s' ∧
        (∀ i v, (l ++ lo) !! i = Some v → index this i s' = Ok v s') ∧
        owns_at s' other q co lo so.
Proof.
  intros Hthis Hother Hok Hne Hblocks.
  destruct (returns_elim _ _ _
    (append_returns _ _ _ _ _ _ _ _ _ _ _ Hthis Hother Hok Hne Hblocks))
    as ([] & s' & Hrun & pb' & cap' & spare' & Hthis' & _ & Hframe).
  assert (owns s' this cap' (l ++ lo)) as Hown' by (by eexists _, _).
  exists s'. split; [done|].
  split; [rewrite <- length_app; by eapply owns_size|]. split; [|split].
  - pose proof (append_capacity _ _ _ _ _ Hne (proj1 Hthis) (proj1 Hother) s eq_refl)
      as Hcap.
    unfold wp in Hcap. rewrite Hrun in Hcap. destruct Hcap as (a' & Ha' & Hcap).
    simpl in Hcap. by rewrite (capacity_Ok _ _ _ Ha'), Hcap.
  - intros i v Hv. by eapply owns_index.
  - eapply frame_owns_at; [done..|]. intros b Hb ->. by eapply Hblocks.
Qed.

(** Copying [n] cells to a place further up in their own array that the
    source range does not reach. *)
Lemma copy_loop_apart n : ∀ o arr nx b (os od : Z) cells vs,
  arr !! b = Some cells →
  (0 ≤ os)%Z → (os + Z.of_nat n ≤ od)%Z →
  Z.to_nat od + n ≤ length cells →
  take n (drop (Z.to_nat os) cells) = Some <$> vs →
  length vs = n →
  copy_loop n (Ptr (Some b) os) (Ptr (Some b) od) (State o arr nx) =
  Ok () (State o (<[b := take (Z.to_nat od) cells ++ (Some <$> vs) ++
                         drop (Z.to_nat od + n) cells]> arr) nx).
Proof.
  induction n as [|n IH]; intros o arr nx b os od cells vs Hcells Hos Hod Hfit Hvs Hlen.
  - destruct vs; [|done]. simpl. unfold ret. do 2 f_equal.
    rewrite Nat.add_0_r, take_drop. symmetry. by apply insert_id.
  - destruct vs as [|v vs]; [done|]. simpl in Hlen.
    apply take_drop_cons in Hvs as [Hv Hvs].
    simpl copy_loop.
    erewrite bind_Ok; [|by apply (load_Ok _ _ _ cells v); [|lia|]].
    erewrite bind_Ok; [|apply (store_Ok _ _ _ cells); [done|lia]].
    unfold ptr_add; simpl.
    erewrite (IH _ _ _ _ _ _ (<[Z.to_nat od := Some v]> cells) vs).
    + do 2 f_equal. rewrite insert_insert_eq. f_equal.
      replace (Z.to_nat (od + 1)) with (S (Z.to_nat od)) by lia.
      rewrite (take_S_r _ _ (Some v)) by (apply list_lookup_insert_eq; lia).
      rewrite take_insert_ge by lia.
      rewrite drop_insert_lt by lia.
      rewrite <- app_assoc. simpl.
      by replace (S (Z.to_nat od + n)) with (Z.to_nat od + S n) by lia.
    + apply lookup_insert_eq.
    + lia.
    + lia.
    + rewrite length_insert. lia.
    + replace (Z.to_nat (os + 1)) with (S (Z.to_nat os)) by lia.
      rewrite drop_insert_ge, take_insert_ge by lia. done.
    + lia.
Qed.

Lemma append_self_returns s x pb cap l spare :
  owns_at s x (Ptr pb 0) cap l spare → heap_ok s →
  returns (append x x)
    (λ _ s', owns s' x (if decide (cap < length l + length l)
                        then length l + length l else cap) (l ++ l)) s.
Proof.
  intros Hat Hok. pose proof Hat as (Hobj & _ & Hcells & Hlen).
  destruct s as [o arr nx]. simpl in *.
  pose proof (heap_ok_fresh _ _ _ _ _ Hok Hcells) as Hfresh.
  unfold append. do 3 step_object.
  case_decide as Hgrow.
  - apply returns_bind. do 3 step_object. unfold ptr_add; simpl.
    step_with ltac:(apply (std_copy_prefix _ _ _ pb nx 0 (length l) l spare);
      [by rewrite cells_of_insert_ne|apply lookup_insert_eq|done|done|
       rewrite length_replicate; lia]).
    step_object.
    step_with ltac:(eapply delete_array_owned; simpl;
      by rewrite cells_of_insert_ne, cells_of_insert_ne).
    step_object. last_object.
    do 4 step_object. unfold ptr_add; simpl. apply returns_bind. unfold std_copy.
    step_with ltac:(apply distance_Ok; lia).
    replace (Z.to_nat (0 + Z.of_nat (length l) - 0)) with (length l) by lia.
    rewrite (take_ge l), drop_replicate by lia. simpl.
    eapply returns_eq.
    { eapply copy_loop_apart with (vs := l).
      - rewrite lookup_without_ne by done. apply lookup_insert_eq.
      - lia.
      - lia.
      - rewrite length_app, length_fmap, length_replicate. lia.
      - simpl. by apply take_app_length'; rewrite length_fmap.
      - done. }
    do 2 step_object. last_object.
    exists (Ptr (Some nx) 0), []. repeat split; simpl.
    + rewrite lookup_insert_eq. by rewrite length_app.
    + rewrite lookup_insert_eq. f_equal.
      replace (Z.to_nat (0 + Z.of_nat (length l))) with (length l) by lia.
      rewrite take_app_length' by (by rewrite length_fmap).
      rewrite drop_ge by (rewrite length_app, length_fmap, length_replicate; lia).
      by rewrite !app_nil_r, fmap_app.
    + rewrite length_app. lia.
  - apply returns_bind, returns_ret. do 4 step_object. unfold ptr_add; simpl.
    destruct pb as [b|].
    + simpl in Hcells. apply returns_bind. unfold std_copy.
      step_with ltac:(apply distance_Ok; lia).
      replace (Z.to_nat (0 + Z.of_nat (length l) - 0)) with (length l) by lia.
      eapply returns_eq.
      { apply (copy_loop_apart _ _ _ _ _ _ _ _ l Hcells).
        - lia.
        - lia.
        - rewrite length_app, length_fmap. lia.
        - simpl. by apply take_app_length'; rewrite length_fmap.
        - done. }
      do 2 step_object. last_object.
      exists (Ptr (Some b) 0), (drop (length l) spare). repeat split; simpl.
      * rewrite lookup_insert_eq. by rewrite length_app.
      * rewrite lookup_insert_eq. f_equal.
        replace (Z.to_nat (0 + Z.of_nat (length l))) with (length l) by lia.
        rewrite take_app_length' by (by rewrite length_fmap).
        rewrite drop_app_ge by (rewrite length_fmap; lia).
        rewrite length_fmap, fmap_app, <- app_assoc.
        by replace (length l + length l - length l) with (length l) by lia.
      * rewrite length_app, length_drop. lia.
    + destruct (owns_at_null _ _ _ _ _ Hat) as (Hz & -> & ->). simpl.
      step_with ltac:(apply (std_copy_nothing _ None 0)).
      do 2 step_object. last_object.
      exists (Ptr None 0), []. split; [apply lookup_insert_eq|].
      split; [done|]. split; [done|]. simpl. lia.
Qed.

(** X19. [x += x] doubles the contents: the elements of [x] followed by the
    same elements again; the reallocation, when there is one, does not
    lose the source. *)
Theorem append_self_doubles s x pb cap l spare :
  owns_at s x (Ptr pb 0) cap l spare → heap_ok s →
  ∃ s', append x x s = Ok () s' ∧
        size x s' = Ok (length l + length l) s' ∧
        capacity x s' =
          Ok (if decide (cap < length l + length l)
              then length l + length l else cap) s' ∧
        (∀ i v, (l ++ l) !! i = Some v → index x i s' = Ok v s').
Proof.
  intros Hat Hok.
  destruct (returns_elim _ _ _ (append_self_returns _ _ _ _ _ _ Hat Hok))
    as ([] & s' & Hrun & Hown').
  exists s'. split; [done|].
  split; [rewrite <- length_app; by eapply owns_size|].
  split; [by eapply owns_capacity|].
  intros i v Hv. by eapply owns_index.
Qed.

(** ** [operator==] and [operator!=] *)

(** X20. [==] compares the elements in order and nothing else: it is true
    exactly when both containers hold the same sequence, whatever their
    capacities; [!=] is its negation.  Neither changes the state. *)
Theorem equality_compares_elements s x y cx cy lx ly :
  owns s x cx lx → owns s y cy ly →
  ∃ r, equal x y s = Ok r s ∧
       not_equal x y s = Ok (negb r) s ∧
       (r = true ↔ lx = ly).
Proof.
  intros Hx Hy. exists (bool_decide (lx = ly)).
  pose proof (equal_owns _ _ _ _ _ _ _ Hx Hy) as Heq.
  split; [done|]. split.
  - unfold not_equal. by rewrite (bind_Ok _ _ _ _ _ Heq).
  - apply bool_decide_eq_true.
Qed.

(** ** [operator<<] *)

Lemma string_app_assoc (a b c : string) : (a +:+ b) +:+ c = a +:+ (b +:+ c).
Proof.
  induction a as [|ch a IH]; [done|].
  change (String ch ((a +:+ b) +:+ c) = String ch (a +:+ (b +:+ c))).
  by rewrite IH.
Qed.

Lemma string_app_nil_r (a : string) : a +:+ "" = a.
Proof.
  induction a as [|ch a IH]; [done|].
  change (String ch (a +:+ "") = String ch a). by rewrite IH.
Qed.

Lemma print_loop_Ok vs : ∀ s b (i : nat) cells separator output,
  cells_of s b = Some cells →
  take (length vs) (drop i cells) = Some <$> vs →
  print_loop show (length vs) (Ptr b (Z.of_nat i)) separator output s =
  Ok (output +:+ match vs with
                 | [] => ""
                 | _ => separator +:+ String.concat "," (show <$> vs)
                 end) s.
Proof.
  induction vs as [|v vs IH]; intros s b i cells separator output Hcells Hvs.
  - simpl. by rewrite string_app_nil_r.
  - apply take_drop_cons in Hvs as [Hv Hvs]. simpl print_loop.
    erewrite bind_Ok; [|apply (load_Ok _ _ _ cells v); [done|lia|by rewrite Nat2Z.id]].
    unfold ptr_add; simpl.
    replace (Z.of_nat i + 1)%Z with (Z.of_nat (S i)) by lia.
    rewrite (IH _ _ _ cells) by done. f_equal.
    destruct vs as [|u vs]; simpl.
    + by rewrite string_app_nil_r, string_app_assoc.
    + by rewrite !string_app_assoc.
Qed.

(** X21. [output << list] writes an opening brace, the elements in order with a
    comma between neighbours and none at the end, and a closing brace; an
    empty container is written as [{}].  The container is not changed. *)
Theorem print_braces_and_commas s x cap l output :
  owns s x cap l →
  print show output x s =
  Ok (output +:+ "{" +:+ String.concat "," (show <$> l) +:+ "}") s.
Proof.
  intros ([pb po] & spare & Hobj & Hoff & Hcells & Hlen). simpl in *. subst po.
  unfold print. do 2 run_object. unfold ptr_add; simpl.
  run_with ltac:(apply distance_Ok; lia).
  replace (Z.to_nat (0 + Z.of_nat (length l) - 0)) with (length l) by lia.
  run_with ltac:(apply (print_loop_Ok l _ _ 0 _ _ _ Hcells); simpl;
                 by apply take_app_length'; rewrite length_fmap).
  unfold ret. f_equal. destruct l as [|v l].
  - rewrite string_app_nil_r, string_app_assoc. reflexivity.
  - rewrite !string_app_assoc. reflexivity.
Qed.

(** ** Destruction after a copy or a move *)

Lemma dtor_removes s x r s' : dtor x s = Ok r s' → objects s' !! x = None.
Proof.
  unfold dtor, bind, get_object, delete_array, remove_object.
  intros Hrun. repeat case_match; simplify_eq; simpl; apply lookup_delete_eq.
Qed.

(** X22. The copy constructor copies the elements, not the pointer: after the
    source is destroyed and its array freed, the copy still holds them. *)
Theorem copy_is_deep s x y b cap l spare :
  owns_at s x (Ptr (Some b) 0) cap l spare → heap_ok s → y ≠ x →
  ∃ s', (ctor_copy T_default y x;;; dtor x) s = Ok () s' ∧
        objects s' !! x = None ∧
        arrays s' !! b = None ∧
        size y s' = Ok (length l) s' ∧
        (∀ i v, l !! i = Some v → index y i s' = Ok v s').
Proof.
  intros Hx Hok Hne.
  assert (returns (ctor_copy T_default y x;;; dtor x)
            (λ _ s', objects s' !! x = None ∧ arrays s' !! b = None ∧
                     owns s' y (length l) l) s) as Hret.
  { eapply returns_seq.
    { eapply returns_keeps_heap; [apply keeps_heap_ctor_copy|done|].
      by eapply ctor_copy_returns. }
    simpl. intros _ s1 [[Hy1 Hfr1] Hok1].
    assert (owns_at s1 x (Ptr (Some b) 0) cap l spare) as Hx1
      by (eapply frame_owns_at; eauto).
    pose proof (owns_at_block_lt _ _ _ _ _ _ _ Hok Hx eq_refl) as Hb.
    pose proof (dtor_returns _ _ _ _ _ _ Hx1) as Hdtor.
    unfold returns in *. destruct (dtor x s1) as [[] s2| |] eqn:Hrun; [|done..].
    destruct Hdtor as [Hgone Hfr2]. split; [done|]. split.
    - revert Hrun. destruct Hx1 as (Hobj1 & _ & Hc1 & _). simpl in Hc1.
      unfold dtor. rewrite (bind_Ok _ _ _ _ _ (get_object_Ok _ _ _ Hobj1)). simpl.
      rewrite (bind_Ok _ _ _ _ _ (delete_array_Ok _ _ _ Hc1)).
      intros [= <-]. simpl. apply lookup_delete_eq.
    - eexists _, _. eapply frame_owns_at; [exact Hfr2|exact Hok1|done|exact Hy1|].
      simpl. intros b' [= <-] [= Hbb]. lia. }
  destruct (returns_elim _ _ _ Hret) as ([] & s' & Hrun & Hgone & Hfreed & Hy).
  exists s'. split; [done|]. split; [done|]. split; [done|].
  split; [by eapply owns_size|]. intros i v Hv. by eapply owns_index.
Qed.

(** X23. The move constructor leaves nothing behind for the source to free:
    after the moved-from source is destroyed, every array is still
    allocated and the new container holds the elements. *)
Theorem move_then_destroy_source s x y cap l :
  owns s x cap l → y ≠ x →
  ∃ s', (ctor_move y x;;; dtor x) s = Ok () s' ∧
        objects s' !! x = None ∧
        arrays s' = arrays s ∧
        size y s' = Ok (length l) s' ∧
        capacity y s' = Ok cap s' ∧
        (∀ i v, l !! i = Some v → index y i s' = Ok v s').
Proof.
  intros (p & spare & Hobj & Hoff & Hcells & Hlen) Hne.
  destruct s as [o arr nx]. simpl in *.
  eexists. split.
  { eapply bind_step; [by apply ctor_move_Ok|]. simpl. unfold dtor.
    run_object. eapply bind_step; [apply delete_array_null|]. reflexivity. }
  simpl. split; [apply lookup_delete_eq|]. split; [done|].
  assert (owns (State (delete x (<[y := MkArrayList cap (length l) p]>
                                  (<[x := MkArrayList 0 0 nullptr]> o))) arr nx)
               y cap l) as Hy.
  { exists p, spare. repeat split; simpl; [|done..].
    rewrite lookup_delete_ne by done. apply lookup_insert_eq. }
  split; [by eapply owns_size|]. split; [by eapply owns_capacity|].
  intros i v Hv. by eapply owns_index.
Qed.

(** ** [operator+], what is left afterwards *)

(** X24. The result of [a + b] has no spare capacity, and the temporary the
    sum is built in is destroyed before the call returns. *)
Theorem plus_exact_fit_no_temporary s result tmp lhs rhs ca la cb lb :
  owns s lhs ca la → owns s rhs cb lb → heap_ok s →
  tmp ≠ lhs → tmp ≠ rhs → result ≠ lhs → result ≠ rhs → result ≠ tmp →
  ∃ s', plus T_default result tmp lhs rhs s = Ok () s' ∧
        size result s' = Ok (length la + length lb) s' ∧
        capacity result s' = Ok (length la + length lb) s' ∧
        objects s' !! tmp = None.
Proof.
  intros (pa & sa & Hlhs) (pb & sb & Hrhs) Hok Htl Htr Hrl Hrr Hrt.
  destruct (returns_elim _ _ _
    (plus_returns _ result tmp _ _ _ _ _ _ _ _ _ _ Hlhs Hrhs Hok Htl Htr Hrl Hrr Hrt))
    as ([] & s' & Hrun & Hres & _).
  exists s'. split; [done|].
  split; [rewrite <- length_app; by eapply owns_size|].
  split; [by eapply owns_capacity|].
  revert Hrun. unfold plus, bind.
  destruct (ctor_copy T_default tmp lhs s) as [? s1| |]; [|done..].
  destruct (append tmp rhs s1) as [? s2| |]; [|done..].
  destruct (ctor_copy T_default result tmp s2) as [? s3| |]; [|done..].
  apply dtor_removes.
Qed.

(** ** Exceptions *)

Lemma no_throw_bind {A B} (m : M T A) (f : A → M T B) :
  no_throw m → (∀ r, no_throw (f r)) → no_throw (bind m f).
Proof.
  intros Hm Hf s. unfold bind. specialize (Hm s).
  destruct (m s) as [r s1| |]; [apply Hf|done..].
Qed.

Lemma no_throw_ret {A} (r : A) : no_throw (ret r).
Proof. by intros s. Qed.

Lemma no_throw_undefined {A} : no_throw (@undefined T A).
Proof. by intros s. Qed.

Lemma no_throw_get_object x : no_throw (get_object x).
Proof. intros s. unfold get_object. repeat case_match; simplify_eq; done. Qed.

Lemma no_throw_set_object x a : no_throw (set_object x a).
Proof. by intros s. Qed.

Lemma no_throw_remove_object x : no_throw (remove_object x).
Proof. by intros s. Qed.

Lemma no_throw_load p : no_throw (load p).
Proof. intros s. unfold load. repeat case_match; simplify_eq; done. Qed.

Lemma no_throw_store p v : no_throw (store p v).
Proof. intros s. unfold store. repeat case_match; simplify_eq; done. Qed.

Lemma no_throw_new_array n init : no_throw (new_array n init).
Proof. by intros s. Qed.

Lemma no_throw_delete_array p : no_throw (delete_array p).
Proof. intros s. unfold delete_array. repeat case_match; simplify_eq; done. Qed.

Lemma no_throw_distance p q : no_throw (distance p q).
Proof. intros s. unfold distance. repeat case_match; simplify_eq; done. Qed.

Lemma no_throw_ptr_lt p q : no_throw (ptr_lt p q).
Proof. intros s. unfold ptr_lt. repeat case_match; simplify_eq; done. Qed.

Lemma no_throw_copy_loop n : ∀ p q, no_throw (copy_loop n p q).
Proof.
  induction n as [|n IH]; intros p q; simpl; [apply no_throw_ret|].
  apply no_throw_bind; [apply no_throw_load|]. intros v.
  apply no_throw_bind; [apply no_throw_store|]. intros _. apply IH.
Qed.

Lemma no_throw_copy_backward_loop n : ∀ p q, no_throw (copy_backward_loop n p q).
Proof.
  induction n as [|n IH]; intros p q; simpl; [apply no_throw_ret|].
  apply no_throw_bind; [apply no_throw_load|]. intros v.
  apply no_throw_bind; [apply no_throw_store|]. intros _. apply IH.
Qed.

Lemma no_throw_copy_from_list source : ∀ p, no_throw (copy_from_list source p).
Proof.
  induction source as [|v source IH]; intros p; simpl; [apply no_throw_ret|].
  apply no_throw_bind; [apply no_throw_store|]. intros _. apply IH.
Qed.

Ltac no_throw :=
  repeat first
    [ apply no_throw_ret | apply no_throw_undefined
    | apply no_throw_get_object | apply no_throw_set_object
    | apply no_throw_remove_object | apply no_throw_load | apply no_throw_store
    | apply no_throw_new_array | apply no_throw_delete_array
    | apply no_throw_distance | apply no_throw_ptr_lt
    | apply no_throw_copy_loop | apply no_throw_copy_backward_loop
    | apply no_throw_copy_from_list
    | apply no_throw_bind; [|intros ?]
    | case_decide
    | case_match ].

Lemma read_only_bind {A B} (m : M T A) (f : A → M T B) :
  read_only m → (∀ r, read_only (f r)) → read_only (bind m f).
Proof.
  intros Hm Hf s. unfold bind. specialize (Hm s).
  destruct (m s) as [r s1| |]; [subst s1; apply Hf|done..].
Qed.

Lemma read_only_ret {A} (r : A) : read_only (ret r).
Proof. by intros s. Qed.

Lemma read_only_get_object x : read_only (get_object x).
Proof. intros s. unfold get_object. repeat case_match; simplify_eq; done. Qed.

Lemma read_only_ptr_lt p q : read_only (ptr_lt p q).
Proof. intros s. unfold ptr_lt. by case_decide. Qed.

Lemma read_only_end x : read_only (end_ x).
Proof.
  apply read_only_bind; [apply read_only_get_object|]. intros a. apply read_only_ret.
Qed.

Lemma throws_unchanged_read {A B} (m : M T A) (f : A → M T B) :
  read_only m → (∀ r, throws_unchanged (f r)) → throws_unchanged (bind m f).
Proof.
  intros Hm Hf s. unfold bind. specialize (Hm s).
  destruct (m s) as [r s1| |]; [subst s1; apply Hf|done..].
Qed.

Lemma throws_unchanged_then {A B} (m : M T A) (f : A → M T B) :
  throws_unchanged m → (∀ r, no_throw (f r)) → throws_unchanged (bind m f).
Proof.
  intros Hm Hf s. unfold bind. specialize (Hm s).
  destruct (m s) as [r s1| |]; [|done..].
  specialize (Hf r s1). by destruct (f r s1).
Qed.

Lemma no_throw_unchanged {A} (m : M T A) : no_throw m → throws_unchanged m.
Proof. intros Hm s. specialize (Hm s). by destruct (m s). Qed.

Lemma throws_unchanged_throw {A} e : throws_unchanged (@throw T A e).
Proof. by intros s. Qed.

Lemma throws_unchanged_insert x p v :
  throws_unchanged (insert T_default arg_order x p v).
Proof.
  unfold insert.
  apply throws_unchanged_read; [apply read_only_end|]. intros z.
  apply throws_unchanged_read; [apply read_only_get_object|]. intros a.
  apply throws_unchanged_read; [apply read_only_ptr_lt|]. intros [].
  { apply throws_unchanged_throw. }
  apply throws_unchanged_read; [apply read_only_ptr_lt|]. intros [].
  { apply throws_unchanged_throw. }
  apply no_throw_unchanged.
  unfold size, capacity, begin, end_, set_m_capacity, set_m_size, set_m_data,
    std_copy, std_copy_backward.
  no_throw.
Qed.

Lemma throws_unchanged_erase x p : throws_unchanged (erase x p).
Proof.
  unfold erase.
  apply throws_unchanged_read; [apply read_only_get_object|]. intros a.
  apply throws_unchanged_read; [apply read_only_ptr_lt|]. intros below.
  destruct (below || ptr_eqb p (m_data a)).
  { apply throws_unchanged_throw. }
  apply throws_unchanged_read; [apply read_only_ptr_lt|]. intros [].
  { apply throws_unchanged_throw. }
  apply no_throw_unchanged.
  unfold size, end_, set_m_size, std_copy.
  no_throw.
Qed.

Lemma no_throw_ctor_copy x y : no_throw (ctor_copy T_default x y).
Proof.
  unfold ctor_copy, ctor_count, size, begin, end_, std_copy.
  cbn [new_array_of count_of]. no_throw.
Qed.

Lemma no_throw_append x y : no_throw (append x y).
Proof.
  unfold append, size, capacity, begin, end_, set_m_capacity, set_m_size,
    set_m_data, std_copy.
  no_throw.
Qed.

Lemma no_throw_dtor x : no_throw (dtor x).
Proof. unfold dtor. no_throw. Qed.

(** What [resize] lets escape is the exception of [new]. *)
Lemma resize_throws x count s e s' :
  resize T_default x count s = Throw e s' → e = bad_alloc.
Proof.
  assert (∀ n, no_throw (resize T_default x (served n))) as Hserved.
  { intros n. unfold resize, size, set_m_capacity, set_m_size, set_m_data, std_copy.
    cbn [new_array_of count_of]. no_throw. }
  destruct count as [n|n]; intros Hrun.
  { specialize (Hserved n s). by rewrite Hrun in Hserved. }
  unfold resize, size, bind, get_object, ret in Hrun. simpl in Hrun.
  repeat case_match; simplify_eq; done.
Qed.

(** X25. [std::out_of_range] never comes after a change: whenever a call of
    a constructor, the destructor or a mutating member function throws it,
    the state is exactly the one before the call, and the call was an
    [insert] or an [erase]. *)
Theorem out_of_range_leaves_state_unchanged c s s' :
  exec T_default arg_order c s = Throw out_of_range s' →
  s' = s ∧
  ((∃ this pos value, c = call_insert this pos value) ∨
   (∃ this pos, c = call_erase this pos)).
Proof.
  intros Hexec.
  assert (∀ m : M T unit, no_throw m → m s = Throw out_of_range s' → False) as Hno.
  { intros m Hm Hrun. specialize (Hm s). by rewrite Hrun in Hm. }
  destruct c as [this [n|n]| | | | | | | |this count| | | | | |];
    simpl in Hexec;
    try solve [exfalso; revert Hexec; apply Hno;
         unfold ctor_count, ctor_init, ctor_move, push_back, clear,
           swap, copy_assign, move_assign, plus,
           size, capacity, begin, end_, set_m_capacity, set_m_size, set_m_data,
           std_copy;
         cbn [new_array_of count_of];
         first [ apply no_throw_ctor_copy | apply no_throw_append
               | apply no_throw_dtor
               | repeat (apply no_throw_bind;
                         [first [apply no_throw_ctor_copy | apply no_throw_append]
                         |intros ?]); apply no_throw_dtor
               | no_throw ]].
  - done.
  - split; [|left; by eexists _, _, _].
    pose proof (throws_unchanged_then _ (λ _, ret ())
                  (throws_unchanged_insert this pos value)
                  (λ _, no_throw_ret ()) s) as Hs.
    by rewrite Hexec in Hs.
  - split; [|right; by eexists _, _].
    pose proof (throws_unchanged_then _ (λ _, ret ())
                  (throws_unchanged_erase this pos)
                  (λ _, no_throw_ret ()) s) as Hs.
    by rewrite Hexec in Hs.
  - by apply resize_throws in Hexec.
Qed.

End Proofs.

(** * The claims at concrete containers *)

Lemma empty_list_constructed :
  ctor_count 0%Z 0 (served 0) initial_state = Ok () empty_list.
Proof. by vm_compute. Qed.

Lemma list_1_constructed :
  ctor_init 0%Z 0 [1%Z] initial_state = Ok () list_1.
Proof. by vm_compute. Qed.

Lemma list_123_constructed :
  ctor_init 0%Z 0 [1%Z; 2%Z; 3%Z] initial_state = Ok () list_123.
Proof. by vm_compute. Qed.

Lemma list_123_spare_constructed :
  (ctor_init 0%Z 0 [1%Z; 2%Z];;; push_back 0%Z 0 3%Z) initial_state =
  Ok () list_123_spare.
Proof. by vm_compute. Qed.

Lemma list_123_and_4_constructed :
  (ctor_init 0%Z 0 [1%Z; 2%Z; 3%Z];;; ctor_init 0%Z 1 [4%Z]) initial_state =
  Ok () list_123_and_4.
Proof. by vm_compute. Qed.

Lemma lists_12_34_constructed :
  (ctor_init 0%Z 0 [1%Z; 2%Z];;; ctor_init 0%Z 1 [3%Z; 4%Z]) initial_state =
  Ok () lists_12_34.
Proof. by vm_compute. Qed.

(** C1, at [{1, 2, 3}.erase(end())].  The position [end()] lies outside
    [begin + 1, end), yet the call is not rejected: both checks let it
    through and [std::copy(pos + 1, end(), pos)] is handed a range that
    starts behind its end. *)
Theorem erase_at_end_not_rejected :
  end_ 0 list_123 = Ok (Ptr (Some 0) 3) list_123 ∧
  erase 0 (Ptr (Some 0) 3) list_123 = Undefined ∧
  erase 0 (Ptr (Some 0) 3) list_123 ≠ Throw out_of_range list_123.
Proof. by vm_compute. Qed.

(** C3, at [{1}.insert(end(), 2)], where [size() == capacity() == 1].
    [push_back(2)] on the same container doubles the capacity and keeps the
    element; [insert] does not get that far, whichever way the arguments of
    [std::copy_backward] are evaluated. *)
Theorem insert_growth_undefined :
  size 0 list_1 = Ok 1 list_1 ∧
  capacity 0 list_1 = Ok 1 list_1 ∧
  (∃ s', push_back 0%Z 0 2%Z list_1 = Ok () s' ∧
         capacity 0 s' = Ok 2 s' ∧ index 0 0 s' = Ok 1%Z s') ∧
  ∀ order, insert 0%Z order 0 (Ptr (Some 0) 1) 2%Z list_1 = Undefined.
Proof.
  split; [by vm_compute|]. split; [by vm_compute|]. split.
  - eexists. split; [by vm_compute|]. by vm_compute.
  - by intros []; vm_compute.
Qed.

(** C5, at [{1, 2, 3}.insert(begin(), 0)], where [size() == capacity() == 3]:
    no sequence [{0, 1, 2, 3}] is produced, whichever way the arguments of
    [std::copy_backward] are evaluated. *)
Theorem insert_into_full_undefined :
  begin 0 list_123 = Ok (Ptr (Some 0) 0) list_123 ∧
  ∀ order, insert 0%Z order 0 (Ptr (Some 0) 0) 0%Z list_123 = Undefined.
Proof. split; [by vm_compute|]. by intros []; vm_compute. Qed.

(** [{1, 2, 3}] in four slots, [insert(begin() + 1, 9)]: no reallocation.
    When [z] is copied before [++z] the result is [{1, 9, 2, 3}]; when [++z]
    comes first, [std::copy_backward(pos, z, z)] moves nothing and the
    element at [pos] is overwritten: [{1, 9, 3, 0}]. *)
Lemma insert_evaluation_order :
  insert 0%Z left_to_right 0 (Ptr (Some 1) 1) 9%Z list_123_spare =
    Ok (Ptr (Some 1) 1)
       (State {[0 := MkArrayList 4 4 (Ptr (Some 1) 0)]}
              {[1 := [Some 1%Z; Some 9%Z; Some 2%Z; Some 3%Z]]} 2) ∧
  insert 0%Z right_to_left 0 (Ptr (Some 1) 1) 9%Z list_123_spare =
    Ok (Ptr (Some 1) 1)
       (State {[0 := MkArrayList 4 4 (Ptr (Some 1) 0)]}
              {[1 := [Some 1%Z; Some 9%Z; Some 3%Z; Some 0%Z]]} 2).
Proof. by vm_compute. Qed.

(** ** Instances of the general theorems *)

Ltac heap_ok_by_computation :=
  unfold heap_ok; apply (bool_decide_unpack _); by vm_compute.

Lemma push_back_sequence_witness :
  owns empty_list 0 0 [] ∧ heap_ok empty_list ∧
  ∃ s', push_back_all 0%Z 0 [5%Z; 6%Z; 7%Z] empty_list = Ok () s' ∧
        size 0 s' = Ok 3 s' ∧
        (∃ c, capacity 0 s' = Ok c s' ∧ 3 ≤ c) ∧
        (∀ i v, [5%Z; 6%Z; 7%Z] !! i = Some v → index 0 i s' = Ok v s').
Proof.
  assert (owns empty_list 0 0 []) as Hown
    by (exists (Ptr (Some 0) 0), []; by vm_compute).
  assert (heap_ok empty_list) as Hok by heap_ok_by_computation.
  split; [done|]. split; [done|].
  apply (push_back_sequence 0%Z empty_list 0 0 [5%Z; 6%Z; 7%Z] Hown Hok).
Defined.

Lemma at_range_check_witness :
  owns list_123 0 3 [1%Z; 2%Z; 3%Z] ∧
  size 0 list_123 = Ok 3 list_123 ∧
  (at_ 0 3 list_123 = Throw out_of_range list_123 ↔ 3 ≤ 3) ∧
  (3 < 3 →
   ∃ v, [1%Z; 2%Z; 3%Z] !! 3 = Some v ∧ at_ 0 3 list_123 = Ok v list_123 ∧
        index 0 3 list_123 = Ok v list_123).
Proof.
  assert (owns list_123 0 3 [1%Z; 2%Z; 3%Z]) as Hown
    by (exists (Ptr (Some 0) 0), []; by vm_compute).
  split; [done|].
  apply (at_range_check list_123 0 3 [1%Z; 2%Z; 3%Z] 3 Hown).
Defined.

Lemma resize_exact_fit_witness :
  owns list_123_spare 0 4 [1%Z; 2%Z; 3%Z] ∧ heap_ok list_123_spare ∧
  (5 ≠ 3 →
   (∃ s', resize 0%Z 0 (served 5) list_123_spare = Ok () s' ∧
          capacity 0 s' = Ok 5 s' ∧
          size 0 s' = Ok 5 s' ∧
          (∀ i v, i < 5 → [1%Z; 2%Z; 3%Z] !! i = Some v → index 0 i s' = Ok v s') ∧
          (∀ i, 3 ≤ i < 5 → index 0 i s' = Ok 0%Z s')) ∧
   resize 0%Z 0 (refused 5) list_123_spare = Throw bad_alloc list_123_spare) ∧
  (5 = 3 →
   resize 0%Z 0 (served 5) list_123_spare = Ok () list_123_spare ∧
   resize 0%Z 0 (refused 5) list_123_spare = Ok () list_123_spare).
Proof.
  assert (owns list_123_spare 0 4 [1%Z; 2%Z; 3%Z]) as Hown
    by (exists (Ptr (Some 1) 0), [Some 0%Z]; by vm_compute).
  assert (heap_ok list_123_spare) as Hok by heap_ok_by_computation.
  split; [done|]. split; [done|].
  apply (resize_exact_fit 0%Z list_123_spare 0 4 [1%Z; 2%Z; 3%Z] 5 Hown Hok).
Defined.

Lemma plus_concatenates_witness :
  owns lists_12_34 0 2 [1%Z; 2%Z] ∧ owns lists_12_34 1 2 [3%Z; 4%Z] ∧
  heap_ok lists_12_34 ∧ 3 ≠ 0 ∧ 3 ≠ 1 ∧ 2 ≠ 0 ∧ 2 ≠ 1 ∧ 2 ≠ 3 ∧
  ∃ s', plus 0%Z 2 3 0 1 lists_12_34 = Ok () s' ∧
        size 0 lists_12_34 = Ok 2 lists_12_34 ∧
        size 1 lists_12_34 = Ok 2 lists_12_34 ∧
        size 2 s' = Ok (2 + 2) s' ∧
        (∀ i v, [1%Z; 2%Z; 3%Z; 4%Z] !! i = Some v → index 2 i s' = Ok v s') ∧
        objects s' !! 0 = objects lists_12_34 !! 0 ∧ owns s' 0 2 [1%Z; 2%Z] ∧
        objects s' !! 1 = objects lists_12_34 !! 1 ∧ owns s' 1 2 [3%Z; 4%Z].
Proof.
  assert (owns lists_12_34 0 2 [1%Z; 2%Z]) as Hlhs
    by (exists (Ptr (Some 0) 0), []; by vm_compute).
  assert (owns lists_12_34 1 2 [3%Z; 4%Z]) as Hrhs
    by (exists (Ptr (Some 1) 0), []; by vm_compute).
  assert (heap_ok lists_12_34) as Hok by heap_ok_by_computation.
  repeat (split; [done || lia|]).
  apply (plus_concatenates 0%Z lists_12_34 2 3 0 1 2 [1%Z; 2%Z] 2 [3%Z; 4%Z]
           Hlhs Hrhs Hok); lia.
Defined.

Lemma copy_equals_and_move_empties_witness :
  owns list_123_spare 0 4 [1%Z; 2%Z; 3%Z] ∧ heap_ok list_123_spare ∧ 1 ≠ 0 ∧
  (∃ s', ctor_copy 0%Z 1 0 list_123_spare = Ok () s' ∧
         equal 1 0 s' = Ok true s' ∧
         size 1 s' = Ok 3 s' ∧ size 0 s' = Ok 3 s' ∧
         (∀ i v, [1%Z; 2%Z; 3%Z] !! i = Some v →
                 index 1 i s' = Ok v s' ∧ index 0 i s' = Ok v s')) ∧
  (∃ s', ctor_move 1 0 list_123_spare = Ok () s' ∧
         size 0 s' = Ok 0 s' ∧ capacity 0 s' = Ok 0 s' ∧
         size 1 s' = Ok 3 s' ∧
         (∀ i v, [1%Z; 2%Z; 3%Z] !! i = Some v → index 1 i s' = Ok v s')).
Proof.
  assert (owns list_123_spare 0 4 [1%Z; 2%Z; 3%Z]) as Hown
    by (exists (Ptr (Some 1) 0), [Some 0%Z]; by vm_compute).
  assert (heap_ok list_123_spare) as Hok by heap_ok_by_computation.
  split; [done|]. split; [done|]. split; [lia|].
  apply (copy_equals_and_move_empties 0%Z list_123_spare 0 1 4 [1%Z; 2%Z; 3%Z]
           Hown Hok); lia.
Defined.

Lemma size_le_capacity_reachable_witness :
  reachable 0%Z left_to_right list_123_spare ∧ size_le_capacity list_123_spare.
Proof.
  assert (reachable 0%Z left_to_right list_123_spare) as Hreach.
  { apply (reachable_return _ _ (call_push_back 0 3%Z)
             (State {[0 := MkArrayList 2 2 (Ptr (Some 0) 0)]}
                    {[0 := [Some 1%Z; Some 2%Z]]} 1)); [|by vm_compute].
    apply (reachable_return _ _ (call_ctor_init 0 [1%Z; 2%Z]) initial_state);
      [|by vm_compute].
    apply reachable_initial. }
  split; [done|].
  apply (size_le_capacity_reachable 0%Z left_to_right list_123_spare Hreach).
Defined.

Lemma copy_capacity_is_source_size_witness :
  owns list_123_spare 0 4 [1%Z; 2%Z; 3%Z] ∧ heap_ok list_123_spare ∧ 1 ≠ 0 ∧
  ∃ s', ctor_copy 0%Z 1 0 list_123_spare = Ok () s' ∧
        size 0 list_123_spare = Ok 3 list_123_spare ∧
        capacity 0 list_123_spare = Ok 4 list_123_spare ∧
        capacity 1 s' = Ok 3 s'.
Proof.
  assert (owns list_123_spare 0 4 [1%Z; 2%Z; 3%Z]) as Hown
    by (exists (Ptr (Some 1) 0), [Some 0%Z]; by vm_compute).
  assert (heap_ok list_123_spare) as Hok by heap_ok_by_computation.
  split; [done|]. split; [done|]. split; [lia|].
  apply (copy_capacity_is_source_size 0%Z list_123_spare 0 1 4 [1%Z; 2%Z; 3%Z]
           Hown Hok); lia.
Defined.

(** ** Instances of the further properties *)

Lemma front_checked_witness :
  owns list_123 0 3 [1%Z; 2%Z; 3%Z] ∧
  ([1%Z; 2%Z; 3%Z] = [] → front 0 list_123 = Throw out_of_range list_123) ∧
  ∀ v, [1%Z; 2%Z; 3%Z] !! 0 = Some v →
       front 0 list_123 = Ok v list_123 ∧ at_ 0 0 list_123 = Ok v list_123.
Proof.
  assert (owns list_123 0 3 [1%Z; 2%Z; 3%Z]) as Hown
    by (exists (Ptr (Some 0) 0), []; by vm_compute).
  split; [done|].
  apply (front_checked list_123 0 3 [1%Z; 2%Z; 3%Z] Hown).
Defined.

Lemma back_unchecked_witness :
  owns list_123 0 3 [1%Z; 2%Z; 3%Z] ∧
  (∀ v, last [1%Z; 2%Z; 3%Z] = Some v → back 0 list_123 = Ok v list_123) ∧
  ([1%Z; 2%Z; 3%Z] = [] → back 0 list_123 = Undefined).
Proof.
  assert (owns list_123 0 3 [1%Z; 2%Z; 3%Z]) as Hown
    by (exists (Ptr (Some 0) 0), []; by vm_compute).
  split; [done|].
  apply (back_unchecked list_123 0 3 [1%Z; 2%Z; 3%Z] Hown).
Defined.

Lemma clear_keeps_array_witness :
  owns list_123 0 3 [1%Z; 2%Z; 3%Z] ∧
  ∃ s', clear 0 list_123 = Ok () s' ∧
        arrays s' = arrays list_123 ∧
        empty 0 s' = Ok true s' ∧
        capacity 0 s' = Ok 3 s' ∧
        (∃ p, begin 0 list_123 = Ok p list_123 ∧ begin 0 s' = Ok p s') ∧
        (∀ pos, at_ 0 pos s' = Throw out_of_range s') ∧
        (∀ i v, [1%Z; 2%Z; 3%Z] !! i = Some v → index 0 i s' = Ok v s').
Proof.
  assert (owns list_123 0 3 [1%Z; 2%Z; 3%Z]) as Hown
    by (exists (Ptr (Some 0) 0), []; by vm_compute).
  split; [done|].
  apply (clear_keeps_array list_123 0 3 [1%Z; 2%Z; 3%Z] Hown).
Defined.

Lemma push_back_appends_witness :
  owns list_123 0 3 [1%Z; 2%Z; 3%Z] ∧ heap_ok list_123 ∧
  ∃ s', push_back 0%Z 0 4%Z list_123 = Ok () s' ∧
        size 0 s' = Ok 4 s' ∧
        capacity 0 s' = Ok 6 s' ∧
        index 0 3 s' = Ok 4%Z s' ∧
        (∀ i u, [1%Z; 2%Z; 3%Z] !! i = Some u → index 0 i s' = Ok u s').
Proof.
  assert (owns list_123 0 3 [1%Z; 2%Z; 3%Z]) as Hown
    by (exists (Ptr (Some 0) 0), []; by vm_compute).
  assert (heap_ok list_123) as Hok by heap_ok_by_computation.
  split; [done|]. split; [done|].
  apply (push_back_appends 0%Z list_123 0 3 [1%Z; 2%Z; 3%Z] 4%Z Hown Hok).
Defined.

Lemma push_back_capacity_power_of_two_witness :
  owns empty_list 0 0 [] ∧ heap_ok empty_list ∧
  [5%Z; 6%Z; 7%Z] ≠ [] ∧
  ∃ s' c k, push_back_all 0%Z 0 [5%Z; 6%Z; 7%Z] empty_list = Ok () s' ∧
            size 0 s' = Ok 3 s' ∧ capacity 0 s' = Ok c s' ∧
            c = 2 ^ k ∧ 3 ≤ c < 2 * 3.
Proof.
  assert (owns empty_list 0 0 []) as Hown
    by (exists (Ptr (Some 0) 0), []; by vm_compute).
  assert (heap_ok empty_list) as Hok by heap_ok_by_computation.
  assert ([5%Z; 6%Z; 7%Z] ≠ []) as Hne by done.
  split; [done|]. split; [done|]. split; [done|].
  apply (push_back_capacity_power_of_two 0%Z empty_list 0 [5%Z; 6%Z; 7%Z]
           Hown Hok Hne).
Defined.

Lemma erase_removes_element_witness :
  owns_at list_123 0 (Ptr (Some 0) 0) 3 [1%Z; 2%Z; 3%Z] [] ∧ 0 < 1 < 3 ∧
  ∃ s', erase 0 (Ptr (Some 0) 1) list_123 = Ok (Ptr (Some 0) 1) s' ∧
        size 0 s' = Ok 2 s' ∧
        capacity 0 s' = Ok 3 s' ∧
        begin 0 s' = Ok (Ptr (Some 0) 0) s' ∧
        (∀ i v, i < 1 → [1%Z; 2%Z; 3%Z] !! i = Some v → index 0 i s' = Ok v s') ∧
        (∀ i v, 1 ≤ i → [1%Z; 2%Z; 3%Z] !! S i = Some v → index 0 i s' = Ok v s').
Proof.
  assert (owns_at list_123 0 (Ptr (Some 0) 0) 3 [1%Z; 2%Z; 3%Z] []) as Hown
    by (by vm_compute).
  assert (0 < 1 < length [1%Z; 2%Z; 3%Z]) as Hk by (simpl; lia).
  split; [done|]. split; [lia|].
  apply (erase_removes_element list_123 0 (Some 0) 3 [1%Z; 2%Z; 3%Z] [] 1 Hown Hk).
Defined.

Lemma erase_rejected_unchanged_witness :
  owns_at list_123 0 (Ptr (Some 0) 0) 3 [1%Z; 2%Z; 3%Z] [] ∧
  ((0 ≤ 0)%Z ∨ (3 < 0)%Z) ∧
  erase 0 (Ptr (Some 0) 0) list_123 = Throw out_of_range list_123.
Proof.
  assert (owns_at list_123 0 (Ptr (Some 0) 0) 3 [1%Z; 2%Z; 3%Z] []) as Hown
    by (by vm_compute).
  assert ((0 ≤ 0)%Z ∨ (Z.of_nat (length [1%Z; 2%Z; 3%Z]) < 0)%Z) as Hk
    by (left; lia).
  split; [done|]. split; [left; lia|].
  apply (erase_rejected_unchanged list_123 0 (Some 0) 3 [1%Z; 2%Z; 3%Z] [] 0%Z
           Hown Hk).
Defined.

Lemma insert_rejected_unchanged_witness :
  owns_at list_123 0 (Ptr (Some 0) 0) 3 [1%Z; 2%Z; 3%Z] [] ∧
  ((4 < 0)%Z ∨ (3 < 4)%Z) ∧
  insert 0%Z left_to_right 0 (Ptr (Some 0) 4) 9%Z list_123 =
    Throw out_of_range list_123.
Proof.
  assert (owns_at list_123 0 (Ptr (Some 0) 0) 3 [1%Z; 2%Z; 3%Z] []) as Hown
    by (by vm_compute).
  assert ((4 < 0)%Z ∨ (Z.of_nat (length [1%Z; 2%Z; 3%Z]) < 4)%Z) as Hk
    by (right; simpl; lia).
  split; [done|]. split; [right; lia|].
  apply (insert_rejected_unchanged 0%Z left_to_right list_123 0 (Some 0) 3
           [1%Z; 2%Z; 3%Z] [] 4%Z 9%Z Hown Hk).
Defined.

Lemma insert_places_value_witness :
  owns_at list_123_spare 0 (Ptr (Some 1) 0) 4 [1%Z; 2%Z; 3%Z] [Some 0%Z] ∧
  1 ≤ 3 ∧ 3 < 4 ∧
  ∃ s', insert 0%Z left_to_right 0 (Ptr (Some 1) 1) 9%Z list_123_spare =
          Ok (Ptr (Some 1) 1) s' ∧
        size 0 s' = Ok 4 s' ∧
        capacity 0 s' = Ok 4 s' ∧
        begin 0 s' = Ok (Ptr (Some 1) 0) s' ∧
        index 0 1 s' = Ok 9%Z s' ∧
        (∀ i u, i < 1 → [1%Z; 2%Z; 3%Z] !! i = Some u → index 0 i s' = Ok u s') ∧
        (∀ i u, 1 ≤ i → [1%Z; 2%Z; 3%Z] !! i = Some u →
                index 0 (S i) s' = Ok u s').
Proof.
  assert (owns_at list_123_spare 0 (Ptr (Some 1) 0) 4 [1%Z; 2%Z; 3%Z] [Some 0%Z])
    as Hown by (by vm_compute).
  assert (1 ≤ length [1%Z; 2%Z; 3%Z]) as Hk by (simpl; lia).
  assert (length [1%Z; 2%Z; 3%Z] < 4) as Hroom by (simpl; lia).
  split; [done|]. split; [lia|]. split; [lia|].
  apply (insert_places_value 0%Z left_to_right list_123_spare 0 (Some 1) 4
           [1%Z; 2%Z; 3%Z] [Some 0%Z] 1 9%Z eq_refl Hown Hk Hroom).
Defined.

Lemma insert_overwrites_when_incremented_first_witness :
  owns_at list_123_spare 0 (Ptr (Some 1) 0) 4 [1%Z; 2%Z; 3%Z] [Some 0%Z] ∧
  1 ≤ 3 ∧
  ∃ s', insert 0%Z right_to_left 0 (Ptr (Some 1) 1) 9%Z list_123_spare =
          Ok (Ptr (Some 1) 1) s' ∧
        size 0 s' = Ok 4 s' ∧
        capacity 0 s' = Ok 4 s' ∧
        index 0 1 s' = Ok 9%Z s' ∧
        (∀ i u, i ≠ 1 → [1%Z; 2%Z; 3%Z] !! i = Some u → index 0 i s' = Ok u s') ∧
        (1 < 3 → index 0 3 s' = Ok 0%Z s').
Proof.
  assert (owns_at list_123_spare 0 (Ptr (Some 1) 0) 4 [1%Z; 2%Z; 3%Z] [Some 0%Z])
    as Hown by (by vm_compute).
  assert (1 ≤ length [1%Z; 2%Z; 3%Z]) as Hk by (simpl; lia).
  split; [done|]. split; [lia|].
  apply (insert_overwrites_when_incremented_first 0%Z right_to_left
           list_123_spare 0 (Some 1) 4 [1%Z; 2%Z; 3%Z] 0%Z [] 1 9%Z
           eq_refl Hown Hk).
Defined.

Lemma erase_then_insert_restores_witness :
  owns_at list_123 0 (Ptr (Some 0) 0) 3 [1%Z; 2%Z; 3%Z] [] ∧ 0 < 1 < 3 ∧
  [1%Z; 2%Z; 3%Z] !! 1 = Some 2%Z ∧
  ∃ s', (pos <~ erase 0 (Ptr (Some 0) 1);
         insert 0%Z left_to_right 0 pos 2%Z) list_123 =
          Ok (Ptr (Some 0) 1) s' ∧
        size 0 s' = Ok 3 s' ∧ capacity 0 s' = Ok 3 s' ∧
        (∀ i u, [1%Z; 2%Z; 3%Z] !! i = Some u → index 0 i s' = Ok u s').
Proof.
  assert (owns_at list_123 0 (Ptr (Some 0) 0) 3 [1%Z; 2%Z; 3%Z] []) as Hown
    by (by vm_compute).
  assert (0 < 1 < length [1%Z; 2%Z; 3%Z]) as Hk by (simpl; lia).
  assert ([1%Z; 2%Z; 3%Z] !! 1 = Some 2%Z) as Hv by reflexivity.
  split; [done|]. split; [lia|]. split; [done|].
  apply (erase_then_insert_restores 0%Z left_to_right list_123 0 (Some 0) 3
           [1%Z; 2%Z; 3%Z] [] 1 2%Z eq_refl Hown Hk Hv).
Defined.

Lemma insert_then_erase_restores_witness :
  owns_at list_123_spare 0 (Ptr (Some 1) 0) 4 [1%Z; 2%Z; 3%Z] [Some 0%Z] ∧
  0 < 1 ≤ 3 ∧ 3 < 4 ∧
  ∃ s', (pos <~ insert 0%Z left_to_right 0 (Ptr (Some 1) 1) 9%Z;
         erase 0 pos) list_123_spare =
          Ok (Ptr (Some 1) 1) s' ∧
        size 0 s' = Ok 3 s' ∧ capacity 0 s' = Ok 4 s' ∧
        (∀ i u, [1%Z; 2%Z; 3%Z] !! i = Some u → index 0 i s' = Ok u s').
Proof.
  assert (owns_at list_123_spare 0 (Ptr (Some 1) 0) 4 [1%Z; 2%Z; 3%Z] [Some 0%Z])
    as Hown by (by vm_compute).
  assert (0 < 1 ≤ length [1%Z; 2%Z; 3%Z]) as Hk by (simpl; lia).
  assert (length [1%Z; 2%Z; 3%Z] < 4) as Hroom by (simpl; lia).
  split; [done|]. split; [lia|]. split; [lia|].
  apply (insert_then_erase_restores 0%Z left_to_right list_123_spare 0 (Some 1) 4
           [1%Z; 2%Z; 3%Z] [Some 0%Z] 1 9%Z eq_refl Hown Hk Hroom).
Defined.

Lemma swap_exchanges_witness :
  owns_at lists_12_34 0 (Ptr (Some 0) 0) 2 [1%Z; 2%Z] [] ∧
  owns_at lists_12_34 1 (Ptr (Some 1) 0) 2 [3%Z; 4%Z] [] ∧ 0 ≠ 1 ∧
  ∃ s', swap 0 1 lists_12_34 = Ok () s' ∧
        owns_at s' 0 (Ptr (Some 1) 0) 2 [3%Z; 4%Z] [] ∧
        owns_at s' 1 (Ptr (Some 0) 0) 2 [1%Z; 2%Z] [] ∧
        arrays s' = arrays lists_12_34 ∧
        (∀ z, z ≠ 0 → z ≠ 1 → objects s' !! z = objects lists_12_34 !! z) ∧
        swap 0 1 s' = Ok () lists_12_34.
Proof.
  assert (owns_at lists_12_34 0 (Ptr (Some 0) 0) 2 [1%Z; 2%Z] []) as Hx
    by (by vm_compute).
  assert (owns_at lists_12_34 1 (Ptr (Some 1) 0) 2 [3%Z; 4%Z] []) as Hy
    by (by vm_compute).
  assert (0 ≠ 1) as Hne by lia.
  split; [done|]. split; [done|]. split; [done|].
  apply (swap_exchanges lists_12_34 0 1 (Ptr (Some 0) 0) (Ptr (Some 1) 0) 2 2
           [1%Z; 2%Z] [3%Z; 4%Z] [] [] Hx Hy Hne).
Defined.

Lemma copy_assign_copies_witness :
  owns_at list_123_and_4 0 (Ptr (Some 0) 0) 3 [1%Z; 2%Z; 3%Z] [] ∧
  owns_at list_123_and_4 1 (Ptr (Some 1) 0) 1 [4%Z] [] ∧
  heap_ok list_123_and_4 ∧ 0 ≠ 1 ∧
  ∃ s', copy_assign 0%Z 0 1 list_123_and_4 = Ok () s' ∧
        size 0 s' = Ok 1 s' ∧
        capacity 0 s' = Ok 1 s' ∧
        (∀ i v, [4%Z] !! i = Some v → index 0 i s' = Ok v s') ∧
        (3 = 1 → begin 0 s' = Ok (Ptr (Some 0) 0) s') ∧
        (3 ≠ 1 → begin 0 s' = Ok (Ptr (Some 2) 0) s') ∧
        owns_at s' 1 (Ptr (Some 1) 0) 1 [4%Z] [].
Proof.
  assert (owns_at list_123_and_4 0 (Ptr (Some 0) 0) 3 [1%Z; 2%Z; 3%Z] []) as Hthis
    by (by vm_compute).
  assert (owns_at list_123_and_4 1 (Ptr (Some 1) 0) 1 [4%Z] []) as Hrhs
    by (by vm_compute).
  assert (heap_ok list_123_and_4) as Hok by heap_ok_by_computation.
  assert (0 ≠ 1) as Hne by lia.
  assert (∀ b, Some 0 = Some b → p_block (Ptr (Some 1) 0) ≠ Some b) as Hapart
    by (by intros b [= <-]).
  split; [done|]. split; [done|]. split; [done|]. split; [done|].
  apply (copy_assign_copies 0%Z list_123_and_4 0 1 (Some 0) 3 [1%Z; 2%Z; 3%Z] []
           (Ptr (Some 1) 0) 1 [4%Z] [] Hthis Hrhs Hok Hne Hapart).
Defined.

Lemma move_assign_transfers_witness :
  owns_at lists_12_34 0 (Ptr (Some 0) 0) 2 [1%Z; 2%Z] [] ∧
  owns_at lists_12_34 1 (Ptr (Some 1) 0) 2 [3%Z; 4%Z] [] ∧ 0 ≠ 1 ∧
  ∃ s', move_assign 0 1 lists_12_34 = Ok () s' ∧
        owns_at s' 0 (Ptr (Some 1) 0) 2 [3%Z; 4%Z] [] ∧
        objects s' !! 1 = Some (MkArrayList 0 0 nullptr) ∧
        arrays s' = arrays lists_12_34 ∧
        arrays s' !! 0 = Some ((Some <$> [1%Z; 2%Z]) ++ []) ∧
        (∀ a, objects s' !! 0 = Some a ∨ objects s' !! 1 = Some a →
              p_block (m_data a) ≠ Some 0).
Proof.
  assert (owns_at lists_12_34 0 (Ptr (Some 0) 0) 2 [1%Z; 2%Z] []) as Hx
    by (by vm_compute).
  assert (owns_at lists_12_34 1 (Ptr (Some 1) 0) 2 [3%Z; 4%Z] []) as Hy
    by (by vm_compute).
  assert (0 ≠ 1) as Hne by lia.
  assert (p_block (Ptr (Some 1) 0) ≠ Some 0) as Hapart by (by vm_compute).
  split; [done|]. split; [done|]. split; [done|].
  apply (move_assign_transfers lists_12_34 0 1 (Ptr (Some 1) 0) 2 [1%Z; 2%Z] []
           0 2 [3%Z; 4%Z] [] Hx Hy Hne Hapart).
Defined.

Lemma append_exact_fit_witness :
  owns_at lists_12_34 0 (Ptr (Some 0) 0) 2 [1%Z; 2%Z] [] ∧
  owns_at lists_12_34 1 (Ptr (Some 1) 0) 2 [3%Z; 4%Z] [] ∧
  heap_ok lists_12_34 ∧ 0 ≠ 1 ∧
  ∃ s', append 0 1 lists_12_34 = Ok () s' ∧
        size 0 s' = Ok 4 s' ∧
        capacity 0 s' = Ok 4 s' ∧
        (∀ i v, [1%Z; 2%Z; 3%Z; 4%Z] !! i = Some v → index 0 i s' = Ok v s') ∧
        owns_at s' 1 (Ptr (Some 1) 0) 2 [3%Z; 4%Z] [].
Proof.
  assert (owns_at lists_12_34 0 (Ptr (Some 0) 0) 2 [1%Z; 2%Z] []) as Hx
    by (by vm_compute).
  assert (owns_at lists_12_34 1 (Ptr (Some 1) 0) 2 [3%Z; 4%Z] []) as Hy
    by (by vm_compute).
  assert (heap_ok lists_12_34) as Hok by heap_ok_by_computation.
  assert (0 ≠ 1) as Hne by lia.
  assert (∀ b, Some 0 = Some b → p_block (Ptr (Some 1) 0) ≠ Some b) as Hapart
    by (by intros b [= <-]).
  split; [done|]. split; [done|]. split; [done|]. split; [done|].
  apply (append_exact_fit lists_12_34 0 1 (Some 0) 2 [1%Z; 2%Z] []
           (Ptr (Some 1) 0) 2 [3%Z; 4%Z] [] Hx Hy Hok Hne Hapart).
Defined.

Lemma append_self_doubles_witness :
  owns_at list_123 0 (Ptr (Some 0) 0) 3 [1%Z; 2%Z; 3%Z] [] ∧ heap_ok list_123 ∧
  ∃ s', append 0 0 list_123 = Ok () s' ∧
        size 0 s' = Ok 6 s' ∧
        capacity 0 s' = Ok 6 s' ∧
        (∀ i v, [1%Z; 2%Z; 3%Z; 1%Z; 2%Z; 3%Z] !! i = Some v →
                index 0 i s' = Ok v s').
Proof.
  assert (owns_at list_123 0 (Ptr (Some 0) 0) 3 [1%Z; 2%Z; 3%Z] []) as Hown
    by (by vm_compute).
  assert (heap_ok list_123) as Hok by heap_ok_by_computation.
  split; [done|]. split; [done|].
  apply (append_self_doubles list_123 0 (Some 0) 3 [1%Z; 2%Z; 3%Z] [] Hown Hok).
Defined.

Lemma equality_compares_elements_witness :
  owns lists_12_34 0 2 [1%Z; 2%Z] ∧ owns lists_12_34 1 2 [3%Z; 4%Z] ∧
  ∃ r, equal 0 1 lists_12_34 = Ok r lists_12_34 ∧
       not_equal 0 1 lists_12_34 = Ok (negb r) lists_12_34 ∧
       (r = true ↔ [1%Z; 2%Z] = [3%Z; 4%Z]).
Proof.
  assert (owns lists_12_34 0 2 [1%Z; 2%Z]) as Hx
    by (exists (Ptr (Some 0) 0), []; by vm_compute).
  assert (owns lists_12_34 1 2 [3%Z; 4%Z]) as Hy
    by (exists (Ptr (Some 1) 0), []; by vm_compute).
  split; [done|]. split; [done|].
  apply (equality_compares_elements lists_12_34 0 1 2 2 [1%Z; 2%Z] [3%Z; 4%Z]
           Hx Hy).
Defined.

Lemma print_braces_and_commas_witness :
  owns list_123 0 3 [1%Z; 2%Z; 3%Z] ∧
  print pretty "list = " 0 list_123 = Ok "list = {1,2,3}" list_123.
Proof.
  assert (owns list_123 0 3 [1%Z; 2%Z; 3%Z]) as Hown
    by (exists (Ptr (Some 0) 0), []; by vm_compute).
  assert ("list = " +:+ "{" +:+
            String.concat "," (pretty <$> [1%Z; 2%Z; 3%Z]) +:+ "}" =
          "list = {1,2,3}") as Htext by (by vm_compute).
  split; [done|]. rewrite <- Htext.
  apply (print_braces_and_commas pretty list_123 0 3 [1%Z; 2%Z; 3%Z] "list = "
           Hown).
Defined.

Lemma copy_is_deep_witness :
  owns_at list_123 0 (Ptr (Some 0) 0) 3 [1%Z; 2%Z; 3%Z] [] ∧ heap_ok list_123 ∧
  1 ≠ 0 ∧
  ∃ s', (ctor_copy 0%Z 1 0;;; dtor 0) list_123 = Ok () s' ∧
        objects s' !! 0 = None ∧
        arrays s' !! 0 = None ∧
        size 1 s' = Ok 3 s' ∧
        (∀ i v, [1%Z; 2%Z; 3%Z] !! i = Some v → index 1 i s' = Ok v s').
Proof.
  assert (owns_at list_123 0 (Ptr (Some 0) 0) 3 [1%Z; 2%Z; 3%Z] []) as Hown
    by (by vm_compute).
  assert (heap_ok list_123) as Hok by heap_ok_by_computation.
  assert (1 ≠ 0) as Hne by lia.
  split; [done|]. split; [done|]. split; [done|].
  apply (copy_is_deep 0%Z list_123 0 1 0 3 [1%Z; 2%Z; 3%Z] [] Hown Hok Hne).
Defined.

Lemma move_then_destroy_source_witness :
  owns list_123_spare 0 4 [1%Z; 2%Z; 3%Z] ∧ 1 ≠ 0 ∧
  ∃ s', (ctor_move 1 0;;; dtor 0) list_123_spare = Ok () s' ∧
        objects s' !! 0 = None ∧
        arrays s' = arrays list_123_spare ∧
        size 1 s' = Ok 3 s' ∧ capacity 1 s' = Ok 4 s' ∧
        (∀ i v, [1%Z; 2%Z; 3%Z] !! i = Some v → index 1 i s' = Ok v s').
Proof.
  assert (owns list_123_spare 0 4 [1%Z; 2%Z; 3%Z]) as Hown
    by (exists (Ptr (Some 1) 0), [Some 0%Z]; by vm_compute).
  assert (1 ≠ 0) as Hne by lia.
  split; [done|]. split; [done|].
  apply (move_then_destroy_source list_123_spare 0 1 4 [1%Z; 2%Z; 3%Z] Hown Hne).
Defined.

Lemma plus_exact_fit_no_temporary_witness :
  owns lists_12_34 0 2 [1%Z; 2%Z] ∧ owns lists_12_34 1 2 [3%Z; 4%Z] ∧
  heap_ok lists_12_34 ∧ 3 ≠ 0 ∧ 3 ≠ 1 ∧ 2 ≠ 0 ∧ 2 ≠ 1 ∧ 2 ≠ 3 ∧
  ∃ s', plus 0%Z 2 3 0 1 lists_12_34 = Ok () s' ∧
        size 2 s' = Ok 4 s' ∧
        capacity 2 s' = Ok 4 s' ∧
        objects s' !! 3 = None.
Proof.
  assert (owns lists_12_34 0 2 [1%Z; 2%Z]) as Hlhs
    by (exists (Ptr (Some 0) 0), []; by vm_compute).
  assert (owns lists_12_34 1 2 [3%Z; 4%Z]) as Hrhs
    by (exists (Ptr (Some 1) 0), []; by vm_compute).
  assert (heap_ok lists_12_34) as Hok by heap_ok_by_computation.
  repeat (split; [done || lia|]).
  apply (plus_exact_fit_no_temporary 0%Z lists_12_34 2 3 0 1 2 [1%Z; 2%Z] 2
           [3%Z; 4%Z] Hlhs Hrhs Hok); lia.
Defined.

Lemma out_of_range_leaves_state_unchanged_witness :
  exec 0%Z left_to_right (call_erase 0 (Ptr (Some 0) 0)) list_123 =
    Throw out_of_range list_123 ∧
  list_123 = list_123 ∧
  ((∃ this pos (value : Z),
      call_erase 0 (Ptr (Some 0) 0) = call_insert this pos value) ∨
   (∃ this pos, @call_erase Z 0 (Ptr (Some 0) 0) = call_erase this pos)).
Proof.
  assert (exec 0%Z left_to_right (call_erase 0 (Ptr (Some 0) 0)) list_123 =
          Throw out_of_range list_123) as Hthrow by (by vm_compute).
  split; [done|].
  apply (out_of_range_leaves_state_unchanged 0%Z left_to_right
           (call_erase 0 (Ptr (Some 0) 0)) list_123 list_123 Hthrow).
Defined.

End AL.
